(** * Maze-Game: the maze model, its generator, its three solvers and the game

    A shallow embedding of [src/main.py] (classes [Direction], [Cell],
    [Maze] and [MazeGame]) and the properties of the generated mazes, of
    the paths the solvers return and of the states the game goes through.

    Conventions of the embedding:
    - Python integers are [Z]; coordinates are pairs [Z * Z].
    - A Python exception is a value [Raise e] of the [result] type; the
      [while] loops take a fuel argument and raise [OutOfFuel] when it is
      used up (the theorems show this never happens on a well-formed maze).
    - [random.choice] reads an oracle [rnd : nat -> nat]: the [k]-th draw
      on a sequence [s] returns [s[rnd k mod len(s)]].
    - Objects mutated in place ([Cell]s held by [Maze.cells]) are updated
      functionally in the grid that holds them; every [Cell] is held once.
    - The game reads its input from lists of events, one list per frame,
      and [draw] returns the calls it makes on the screen.
    - Whether [pygame.display.set_mode] opens a window of a given size is
      decided by the video system, not by the program: it is an oracle
      [set_mode], which returns or raises ([pygame.error] is
      [PygameError]). *)

From stdpp Require Import gmap list sorting strings pretty.
From Stdlib Require Import ZArith Lia.

Local Open Scope Z_scope.

(** ** Exceptions *)

Inductive error :=
  IndexError | KeyError | ValueError | OutOfFuel | PygameError.

Inductive result (A : Type) : Type :=
| Ok (a : A)
| Raise (e : error).
Arguments Ok {A} a.
Arguments Raise {A} e.

Global Instance result_ret : MRet result := fun A a => Ok a.

Global Instance result_bind : MBind result := fun A B k r =>
  match r with
  | Ok a => k a
  | Raise e => Raise e
  end.

Fixpoint foldM {A B} (f : B -> A -> result B) (b : B) (l : list A) : result B :=
  match l with
  | [] => Ok b
  | a :: l' => b' ← f b a; foldM f b' l'
  end.

(** ** Python sequences *)

(** [range(n)]: empty when [n <= 0]. *)
Definition range (n : Z) : list Z := seqZ 0 n.

(** The position a Python index denotes in a sequence of length [len]:
    negative indices count from the end. *)
Definition py_norm (len : nat) (i : Z) : option nat :=
  let j := if i <? 0 then i + Z.of_nat len else i in
  if (0 <=? j) && (j <? Z.of_nat len) then Some (Z.to_nat j) else None.

(** [l[i]] *)
Definition py_index {A} (l : list A) (i : Z) : result A :=
  match py_norm (length l) i with
  | Some j => match l !! j with Some a => Ok a | None => Raise IndexError end
  | None => Raise IndexError
  end.

(** [l.pop()] and [l[-1]]: the last element and the elements before it. *)
Fixpoint pop_last {A} (l : list A) : option (A * list A) :=
  match l with
  | [] => None
  | a :: l' =>
      match pop_last l' with
      | None => Some (a, [])
      | Some (b, r) => Some (b, a :: r)
      end
  end.

(** [l.pop(0)] *)
Definition pop_first {A} (l : list A) : option (A * list A) :=
  match l with
  | [] => None
  | a :: l' => Some (a, l')
  end.

(** ** class Direction *)

Module Direction.

Inductive t := NORTH | SOUTH | EAST | WEST.

Definition value (d : t) : Z * Z :=
  match d with
  | NORTH => (0, -1)
  | SOUTH => (0, 1)
  | EAST => (1, 0)
  | WEST => (-1, 0)
  end.

(** Iteration order of the enumeration: the order of definition. *)
Definition members : list t := [NORTH; SOUTH; EAST; WEST].

Definition opposite (direction : t) : t :=
  match direction with
  | NORTH => SOUTH
  | SOUTH => NORTH
  | EAST => WEST
  | WEST => EAST
  end.

(** [Direction(v)]: the member whose value is [v], else [ValueError]. *)
Definition of_value (v : Z * Z) : result t :=
  match v with
  | (0, -1) => Ok NORTH
  | (0, 1) => Ok SOUTH
  | (1, 0) => Ok EAST
  | (-1, 0) => Ok WEST
  | _ => Raise ValueError
  end.

Definition to_nat (d : t) : nat :=
  match d with NORTH => 0 | SOUTH => 1 | EAST => 2 | WEST => 3 end%nat.

Definition of_nat (n : nat) : t :=
  match n with O => NORTH | 1 => SOUTH | 2 => EAST | _ => WEST end%nat.

End Direction.

Global Instance Direction_eq_dec : EqDecision Direction.t.
Proof. solve_decision. Defined.

Global Instance Direction_countable : Countable Direction.t :=
  inj_countable' Direction.to_nat Direction.of_nat
    (fun d => match d with
              | Direction.NORTH | Direction.SOUTH
              | Direction.EAST | Direction.WEST => eq_refl
              end).

(** ** class Cell *)

Module Cell.

Record t := mk {
  x : Z;
  y : Z;
  walls : gmap Direction.t bool;
  visited : bool;
  is_start : bool;
  is_end : bool
}.

(** [Cell(x, y)] *)
Definition __init__ (x y : Z) : t :=
  {| x := x; y := y;
     walls := list_to_map ((fun d => (d, true)) <$> Direction.members);
     visited := false; is_start := false; is_end := false |}.

Definition remove_wall (self : t) (direction : Direction.t) : t :=
  {| x := x self; y := y self;
     walls := <[direction := false]> (walls self);
     visited := visited self;
     is_start := is_start self; is_end := is_end self |}.

Definition has_wall (self : t) (direction : Direction.t) : bool :=
  default true (walls self !! direction).

Definition set_visited (self : t) (b : bool) : t :=
  {| x := x self; y := y self; walls := walls self; visited := b;
     is_start := is_start self; is_end := is_end self |}.

Definition set_is_start (self : t) (b : bool) : t :=
  {| x := x self; y := y self; walls := walls self;
     visited := visited self; is_start := b; is_end := is_end self |}.

Definition set_is_end (self : t) (b : bool) : t :=
  {| x := x self; y := y self; walls := walls self;
     visited := visited self; is_start := is_start self; is_end := b |}.

End Cell.

(** ** The grid [Maze.cells]: a list of columns, [cells[x][y]] *)

Abbreviation grid := (list (list Cell.t)).

Definition grid_get (cells : grid) (x y : Z) : result Cell.t :=
  col ← py_index cells x; py_index col y.

(** [cells[x][y].attr = v] and [cells[x][y].method()]: the cell object is
    fetched (which may raise) and changed in place. *)
Definition grid_update (cells : grid) (x y : Z) (f : Cell.t -> Cell.t)
  : result grid :=
  match py_norm (length cells) x with
  | None => Raise IndexError
  | Some i =>
      match cells !! i with
      | None => Raise IndexError
      | Some col =>
          match py_norm (length col) y with
          | None => Raise IndexError
          | Some j =>
              match col !! j with
              | None => Raise IndexError
              | Some c => Ok (<[i := <[j := f c]> col]> cells)
              end
          end
      end
  end.

(** ** class Maze *)

Module Maze.

Record t := mk {
  width : Z;
  height : Z;
  cell_size : Z;
  cells : grid;
  start : Z * Z;
  end_ : Z * Z
}.

Definition set_cells (self : t) (cs : grid) : t :=
  {| width := width self; height := height self;
     cell_size := cell_size self; cells := cs;
     start := start self; end_ := end_ self |}.

Definition in_bounds (self : t) (nx ny : Z) : bool :=
  (0 <=? nx) && (nx <? width self) && (0 <=? ny) && (ny <? height self).

Definition _get_neighbors (self : t) (x y : Z) : list (Z * Z) :=
  fold_left
    (fun neighbors '(dx, dy) =>
       let nx := x + dx in
       let ny := y + dy in
       if in_bounds self nx ny then neighbors ++ [(nx, ny)] else neighbors)
    [(0, 1); (1, 0); (0, -1); (-1, 0)] [].

(** The wall of [cells[x][y]] is only looked at for a direction whose
    neighbour is in bounds ([and] evaluates left to right). *)
Definition _get_connected_neighbors (self : t) (x y : Z)
  : result (list (Z * Z)) :=
  foldM
    (fun connected direction =>
       let '(dx, dy) := Direction.value direction in
       let nx := x + dx in
       let ny := y + dy in
       if in_bounds self nx ny then
         c ← grid_get (cells self) x y;
         Ok (if negb (Cell.has_wall c direction)
             then connected ++ [(nx, ny)] else connected)
       else Ok connected)
    [] Direction.members.

(** The comprehension of [_generate_maze]: the neighbours in bounds
    whose cell is not visited yet. *)
Definition unvisited_neighbors (self : t) (x y : Z)
  : result (list (Z * Z)) :=
  foldM
    (fun acc '(nx, ny) =>
       c ← grid_get (cells self) nx ny;
       Ok (if negb (Cell.visited c) then acc ++ [(nx, ny)] else acc))
    [] (_get_neighbors self x y).

(** [random.choice(s)] at the [k]-th draw of the ambient generator. *)
Definition choice {A} (rnd : nat -> nat) (k : nat) (s : list A)
  : result A :=
  match s !! (rnd k mod length s)%nat with
  | Some a => Ok a
  | None => Raise IndexError
  end.

(** The [while stack:] loop of [_generate_maze]. [k] counts the draws made
    so far. *)
Fixpoint generate_loop (fuel : nat) (rnd : nat -> nat) (k : nat)
    (self : t) (stack : list (Z * Z)) : result t :=
  match pop_last stack with
  | None => Ok self
  | Some ((x, y), rest) =>
      match fuel with
      | O => Raise OutOfFuel
      | S fuel' =>
          _ ← grid_get (cells self) x y;
          neighbors ← unvisited_neighbors self x y;
          match neighbors with
          | [] => generate_loop fuel' rnd k self rest
          | _ :: _ =>
              '(nx, ny) ← choice rnd k neighbors;
              _ ← grid_get (cells self) nx ny;
              direction ← Direction.of_value (nx - x, ny - y);
              cs1 ← grid_update (cells self) x y
                       (fun c => Cell.remove_wall c direction);
              cs2 ← grid_update cs1 nx ny
                       (fun c => Cell.remove_wall c
                                   (Direction.opposite direction));
              cs3 ← grid_update cs2 nx ny
                       (fun c => Cell.set_visited c true);
              generate_loop fuel' rnd (S k) (set_cells self cs3)
                (stack ++ [(nx, ny)])
          end
      end
  end.

(** Every iteration either marks a cell or pops one. *)
Definition generate_fuel (self : t) : nat :=
  Z.to_nat (2 * (width self * height self)).

Definition _generate_maze (rnd : nat -> nat) (self : t) : result t :=
  cs0 ← grid_update (cells self) 0 0 (fun c => Cell.set_visited c true);
  self1 ← generate_loop (generate_fuel self) rnd 0
             (set_cells self cs0) [(0, 0)];
  cs1 ← grid_update (cells self1) (start self1).1 (start self1).2
           (fun c => Cell.set_is_start c true);
  cs2 ← grid_update cs1 (end_ self1).1 (end_ self1).2
           (fun c => Cell.set_is_end c true);
  Ok (set_cells self1 cs2).

(** [Maze(width, height, cell_size)] *)
Definition __init__ (rnd : nat -> nat) (width height cell_size : Z)
  : result t :=
  _generate_maze rnd
    {| width := width; height := height; cell_size := cell_size;
       cells := (fun x => (fun y => Cell.__init__ x y) <$> range height)
                  <$> range width;
       start := (0, 0);
       end_ := (width - 1, height - 1) |}.

(** *** The solvers *)

(** The body of the [for] loop shared by [solve_bfs] and [solve_dfs]:
    [frontier] is the queue or the stack, holding (cell, path so far). *)
Definition visit (path : list (Z * Z))
    (st : list ((Z * Z) * list (Z * Z)) * gset (Z * Z)) (n : Z * Z)
  : list ((Z * Z) * list (Z * Z)) * gset (Z * Z) :=
  let '(frontier, visited) := st in
  if decide (n ∈ visited) then (frontier, visited)
  else (frontier ++ [(n, path ++ [n])], {[n]} ∪ visited).

(** The [while] loop of [solve_bfs] and of [solve_dfs], which differ only
    in the end of the list the next entry is popped from. *)
Fixpoint search_loop
    (pop : list ((Z * Z) * list (Z * Z)) ->
           option (((Z * Z) * list (Z * Z)) * list ((Z * Z) * list (Z * Z))))
    (fuel : nat) (self : t)
    (frontier : list ((Z * Z) * list (Z * Z))) (visited : gset (Z * Z))
  : result (list (Z * Z)) :=
  match pop frontier with
  | None => Ok []
  | Some (((x, y), path), rest) =>
      if decide ((x, y) = end_ self) then Ok path
      else
        match fuel with
        | O => Raise OutOfFuel
        | S fuel' =>
            connected ← _get_connected_neighbors self x y;
            let '(frontier', visited') :=
              fold_left (visit path) connected (rest, visited) in
            search_loop pop fuel' self frontier' visited'
        end
  end.

(** Every iteration pops an entry, and every cell is pushed once. *)
Definition search_fuel (self : t) : nat :=
  Z.to_nat (2 * (width self * height self) + 1).

Definition solve_bfs (self : t) : result (list (Z * Z)) :=
  search_loop pop_first (search_fuel self) self
    [(start self, [start self])] {[start self]}.

Definition solve_dfs (self : t) : result (list (Z * Z)) :=
  search_loop pop_last (search_fuel self) self
    [(start self, [start self])] {[start self]}.

Definition heuristic (a b : Z * Z) : Z :=
  Z.abs (a.1 - b.1) + Z.abs (a.2 - b.2).

(** The order of Python tuples [(f, (x, y))]: lexicographic. *)
Definition entry_le (a b : Z * (Z * Z)) : bool :=
  (a.1 <? b.1) ||
  ((a.1 =? b.1) &&
   ((a.2.1 <? b.2.1) || ((a.2.1 =? b.2.1) && (a.2.2 <=? b.2.2)))).

(** [heapq]: the list is kept as a binary heap, of which [heappop]
    returns and removes the smallest item. Equal items are the same
    tuple, so only the multiset of items is observable: the model keeps
    the items in the order they were pushed. *)
Definition heappush (heap : list (Z * (Z * Z))) (item : Z * (Z * Z))
  : list (Z * (Z * Z)) :=
  heap ++ [item].

Fixpoint heap_min (e : Z * (Z * Z)) (heap : list (Z * (Z * Z)))
  : Z * (Z * Z) :=
  match heap with
  | [] => e
  | e' :: heap' => heap_min (if entry_le e e' then e else e') heap'
  end.

Fixpoint remove_one (e : Z * (Z * Z)) (heap : list (Z * (Z * Z)))
  : list (Z * (Z * Z)) :=
  match heap with
  | [] => []
  | e' :: heap' => if decide (e = e') then heap' else e' :: remove_one e heap'
  end.

Definition heappop (heap : list (Z * (Z * Z)))
  : option ((Z * (Z * Z)) * list (Z * (Z * Z))) :=
  match heap with
  | [] => None
  | e :: heap' =>
      let m := heap_min e heap' in Some (m, remove_one m heap)
  end.

Record astar_state := mk_astar {
  open_set : list (Z * (Z * Z));
  came_from : gmap (Z * Z) (Z * Z);
  g_score : gmap (Z * Z) Z;
  f_score : gmap (Z * Z) Z
}.

(** [d[k]] on a dict *)
Definition dict_get {V} (d : gmap (Z * Z) V) (k : Z * Z) : result V :=
  match d !! k with
  | Some v => Ok v
  | None => Raise KeyError
  end.

(** The body of the [for neighbor in ...] loop of [solve_astar]. *)
Definition relax (self : t) (current : Z * Z) (st : astar_state)
    (neighbor : Z * Z) : result astar_state :=
  g ← dict_get (g_score st) current;
  let tentative_g_score := g + 1 in
  let better :=
    match g_score st !! neighbor with
    | None => true
    | Some gn => tentative_g_score <? gn
    end in
  if better then
    let f := tentative_g_score + heuristic neighbor (end_ self) in
    Ok {| open_set := heappush (open_set st) (f, neighbor);
          came_from := <[neighbor := current]> (came_from st);
          g_score := <[neighbor := tentative_g_score]> (g_score st);
          f_score := <[neighbor := f]> (f_score st) |}
  else Ok st.

(** [while current in came_from: path.append(current); current = ...] *)
Fixpoint walk_back (fuel : nat) (came_from : gmap (Z * Z) (Z * Z))
    (current : Z * Z) (path : list (Z * Z)) : result (list (Z * Z)) :=
  match came_from !! current with
  | None => Ok path
  | Some previous =>
      match fuel with
      | O => Raise OutOfFuel
      | S fuel' => walk_back fuel' came_from previous (path ++ [current])
      end
  end.

Fixpoint astar_loop (fuel : nat) (self : t) (st : astar_state)
  : result (list (Z * Z)) :=
  match heappop (open_set st) with
  | None => Ok []
  | Some ((_, current), open_set') =>
      if decide (current = end_ self) then
        path ← walk_back (Z.to_nat (width self * height self))
                 (came_from st) current [];
        Ok (reverse (path ++ [start self]))
      else
        match fuel with
        | O => Raise OutOfFuel
        | S fuel' =>
            connected ← _get_connected_neighbors self current.1 current.2;
            st' ← foldM (relax self current)
                    {| open_set := open_set'; came_from := came_from st;
                       g_score := g_score st; f_score := f_score st |}
                    connected;
            astar_loop fuel' self st'
        end
  end.

(** Every iteration pops an item, and an item is pushed only when the
    score of its cell goes down. *)
Definition astar_fuel (self : t) : nat :=
  let n := Z.to_nat (width self * height self) in (2 * n * n + 1)%nat.

Definition solve_astar (self : t) : result (list (Z * Z)) :=
  astar_loop (astar_fuel self) self
    {| open_set := heappush [] (0, start self);
       came_from := ∅;
       g_score := {[start self := 0]};
       f_score := {[start self := heuristic (start self) (end_ self)]} |}.

End Maze.

(** ** class MazeGame *)

(** [l[:-1]], [l[-n:]] for a positive [n], and [l.index(v)]. *)
Definition but_last {A} (l : list A) : list A := take (length l - 1) l.

Definition last_n {A} (n : nat) (l : list A) : list A :=
  drop (length l - n) l.

Fixpoint index {A} `{EqDecision A} (l : list A) (v : A) : result nat :=
  match l with
  | [] => Raise ValueError
  | a :: l' => if decide (a = v) then Ok O else i ← index l' v; Ok (S i)
  end.

Module MazeGame.

(** The keys [run] reacts to and the events [pygame.event.get()] returns:
    every other key is [K_other], every other event [OTHER]. *)
Inductive key :=
| K_ESCAPE | K_r | K_UP | K_DOWN | K_LEFT | K_RIGHT | K_s | K_1 | K_2 | K_3
| K_other.

Inductive event := QUIT | KEYDOWN (k : key) | OTHER.

(** The calls [draw] makes on the screen: [screen.fill], [pygame.draw.rect],
    [pygame.draw.line], [font.render] followed by [screen.blit], and
    [pygame.display.flip]. *)
Inductive command :=
| Fill (color : Z * Z * Z)
| Rect (color : Z * Z * Z) (left top width height : Z)
| Line (color : Z * Z * Z) (start_pos end_pos : Z * Z) (width : Z)
| Blit (text : string) (color : Z * Z * Z) (dest : Z * Z)
| Flip.

(** The attributes of the game that are plain data; [screen], [clock] and
    [font] are pygame objects. [player_pos], a list of two numbers, is a
    pair. *)
Record t := mk {
  width : Z;
  height : Z;
  cell_size : Z;
  screen_width : Z;
  screen_height : Z;
  maze : Maze.t;
  player_pos : Z * Z;
  path : list (Z * Z);
  solution : list (Z * Z);
  lives : Z;
  game_over : bool;
  show_solution : bool;
  solving_algorithm : string
}.

Definition set_player_pos (self : t) (p : Z * Z) : t :=
  {| width := width self; height := height self;
     cell_size := cell_size self; screen_width := screen_width self;
     screen_height := screen_height self; maze := maze self;
     player_pos := p; path := path self; solution := solution self;
     lives := lives self; game_over := game_over self;
     show_solution := show_solution self;
     solving_algorithm := solving_algorithm self |}.

Definition set_path (self : t) (p : list (Z * Z)) : t :=
  {| width := width self; height := height self;
     cell_size := cell_size self; screen_width := screen_width self;
     screen_height := screen_height self; maze := maze self;
     player_pos := player_pos self; path := p; solution := solution self;
     lives := lives self; game_over := game_over self;
     show_solution := show_solution self;
     solving_algorithm := solving_algorithm self |}.

Definition set_solution (self : t) (p : list (Z * Z)) : t :=
  {| width := width self; height := height self;
     cell_size := cell_size self; screen_width := screen_width self;
     screen_height := screen_height self; maze := maze self;
     player_pos := player_pos self; path := path self; solution := p;
     lives := lives self; game_over := game_over self;
     show_solution := show_solution self;
     solving_algorithm := solving_algorithm self |}.

Definition set_lives (self : t) (n : Z) : t :=
  {| width := width self; height := height self;
     cell_size := cell_size self; screen_width := screen_width self;
     screen_height := screen_height self; maze := maze self;
     player_pos := player_pos self; path := path self;
     solution := solution self;
     lives := n; game_over := game_over self;
     show_solution := show_solution self;
     solving_algorithm := solving_algorithm self |}.

Definition set_game_over (self : t) (b : bool) : t :=
  {| width := width self; height := height self;
     cell_size := cell_size self; screen_width := screen_width self;
     screen_height := screen_height self; maze := maze self;
     player_pos := player_pos self; path := path self;
     solution := solution self;
     lives := lives self; game_over := b;
     show_solution := show_solution self;
     solving_algorithm := solving_algorithm self |}.

Definition set_show_solution (self : t) (b : bool) : t :=
  {| width := width self; height := height self;
     cell_size := cell_size self; screen_width := screen_width self;
     screen_height := screen_height self; maze := maze self;
     player_pos := player_pos self; path := path self;
     solution := solution self;
     lives := lives self; game_over := game_over self;
     show_solution := b;
     solving_algorithm := solving_algorithm self |}.

Definition set_solving_algorithm (self : t) (s : string) : t :=
  {| width := width self; height := height self;
     cell_size := cell_size self; screen_width := screen_width self;
     screen_height := screen_height self; maze := maze self;
     player_pos := player_pos self; path := path self;
     solution := solution self;
     lives := lives self; game_over := game_over self;
     show_solution := show_solution self;
     solving_algorithm := s |}.

(** [rnd] gives the draws of the construction of the new maze. *)
Definition reset_game (rnd : nat -> nat) (self : t) : result t :=
  m ← Maze.__init__ rnd (width self) (height self) (cell_size self);
  Ok {| width := width self; height := height self;
        cell_size := cell_size self; screen_width := screen_width self;
        screen_height := screen_height self;
        maze := m;
        player_pos := Maze.start m;
        path := [];
        solution := [];
        lives := 3;
        game_over := false;
        show_solution := false;
        solving_algorithm := "BFS" |}.

(** [MazeGame(width, height, cell_size)]. The window is opened before the
    maze is built: [set_mode] stands for [pygame.display.set_mode], whose
    exception, if any, leaves the constructor at once. The attributes
    [reset_game] assigns do not exist before it is called: the record it
    is given holds values for them that it overwrites. *)
Definition __init__ (set_mode : Z * Z -> result unit) (rnd : nat -> nat)
    (width height cell_size : Z) : result t :=
  _ ← set_mode (width * cell_size + 100, height * cell_size + 100);
  reset_game rnd
    {| width := width; height := height; cell_size := cell_size;
       screen_width := width * cell_size + 100;
       screen_height := height * cell_size + 100;
       maze := {| Maze.width := width; Maze.height := height;
                  Maze.cell_size := cell_size; Maze.cells := [];
                  Maze.start := (0, 0); Maze.end_ := (0, 0) |};
       player_pos := (0, 0); path := []; solution := []; lives := 3;
       game_over := false; show_solution := false;
       solving_algorithm := "BFS" |}.

(** The background and the walls of the cell at [(x, y)]. *)
Definition draw_cell (self : t) (x y : Z) : result (list command) :=
  cell ← grid_get (Maze.cells (maze self)) x y;
  let cs := cell_size self in
  let background :=
    if Cell.is_start cell then
      [Rect (144, 238, 144) (x * cs + 50) (y * cs + 50) cs cs]
    else if Cell.is_end cell then
      [Rect (255, 182, 193) (x * cs + 50) (y * cs + 50) cs cs]
    else if bool_decide ((x, y) = player_pos self) then
      [Rect (100, 100, 255) (x * cs + 50) (y * cs + 50) cs cs]
    else if bool_decide ((x, y) ∈ path self) then
      [Rect (200, 200, 255) (x * cs + 50) (y * cs + 50) cs cs]
    else if show_solution self && bool_decide ((x, y) ∈ solution self) then
      [Rect (255, 255, 200) (x * cs + 50) (y * cs + 50) cs cs]
    else [] in
  Ok (background ++
      (if Cell.has_wall cell Direction.NORTH then
         [Line (0, 0, 0) (x * cs + 50, y * cs + 50)
            ((x + 1) * cs + 50, y * cs + 50) 2]
       else []) ++
      (if Cell.has_wall cell Direction.SOUTH then
         [Line (0, 0, 0) (x * cs + 50, (y + 1) * cs + 50)
            ((x + 1) * cs + 50, (y + 1) * cs + 50) 2]
       else []) ++
      (if Cell.has_wall cell Direction.WEST then
         [Line (0, 0, 0) (x * cs + 50, y * cs + 50)
            (x * cs + 50, (y + 1) * cs + 50) 2]
       else []) ++
      (if Cell.has_wall cell Direction.EAST then
         [Line (0, 0, 0) ((x + 1) * cs + 50, y * cs + 50)
            ((x + 1) * cs + 50, (y + 1) * cs + 50) 2]
       else [])).

(** The texts of [draw]: the lives, the outcome when the game is over and
    the algorithm. *)
Definition draw_ui (self : t) : list command :=
  [Blit ("Lives: " +:+ pretty (lives self)) (0, 0, 0) (20, 20)] ++
  (if game_over self then
     [if 0 <? lives self then
        Blit "You Win! Press R to restart" (0, 200, 0)
          (screen_width self / 2 - 100, 20)
      else
        Blit "Game Over! Press R to restart" (200, 0, 0)
          (screen_width self / 2 - 100, 20)]
   else []) ++
  [Blit ("Algorithm: " +:+ solving_algorithm self) (0, 0, 0)
     (screen_width self - 200, 20)].

(** The calls made on the screen, in order, when [draw] returns. *)
Definition draw (self : t) : result (list command) :=
  cells ←
    foldM (fun acc x =>
             foldM (fun acc y => cmds ← draw_cell self x y; Ok (acc ++ cmds))
               acc (range (height self)))
      [] (range (width self));
  Ok ([Fill (255, 255, 255)] ++ cells ++ draw_ui self ++ [Flip]).

(** [dx > 0 and self.maze.cells[x][y].has_wall(direction)]: the cell is
    fetched only when the comparison holds. *)
Definition blocked (self : t) (x y : Z) (moving : bool)
    (direction : Direction.t) : result bool :=
  if moving then
    c ← grid_get (Maze.cells (maze self)) x y;
    Ok (Cell.has_wall c direction)
  else Ok false.

Definition move_player (self : t) (dx dy : Z) : result t :=
  if game_over self then Ok self
  else
    let '(x, y) := player_pos self in
    let new_x := x + dx in
    let new_y := y + dy in
    if negb ((0 <=? new_x) && (new_x <? width self) &&
             ((0 <=? new_y) && (new_y <? height self))) then Ok self
    else
      east ← blocked self x y (0 <? dx) Direction.EAST;
      if (east : bool) then Ok self
      else
        west ← blocked self x y (dx <? 0) Direction.WEST;
        if (west : bool) then Ok self
        else
          south ← blocked self x y (0 <? dy) Direction.SOUTH;
          if (south : bool) then Ok self
          else
            north ← blocked self x y (dy <? 0) Direction.NORTH;
            if (north : bool) then Ok self
            else
              let self1 :=
                set_path (set_player_pos self (new_x, new_y))
                  (path self ++ [(x, y)]) in
              if decide ((new_x, new_y) = Maze.end_ (maze self1))
              then Ok (set_game_over self1 true)
              else Ok self1.

Definition solve_maze (self : t) : result t :=
  self1 ←
    (if decide (solving_algorithm self = "BFS") then
       p ← Maze.solve_bfs (maze self); Ok (set_solution self p)
     else if decide (solving_algorithm self = "DFS") then
       p ← Maze.solve_dfs (maze self); Ok (set_solution self p)
     else if decide (solving_algorithm self = "A*") then
       p ← Maze.solve_astar (maze self); Ok (set_solution self p)
     else Ok self);
  Ok (set_show_solution self1 true).

(** [self.lives -= 1], then [if self.lives <= 0: self.game_over = True]. *)
Definition lose_life (self : t) : t :=
  let self1 := set_lives self (lives self - 1) in
  if lives self1 <=? 0 then set_game_over self1 true else self1.

(** The keys [1], [2] and [3]. *)
Definition select_algorithm (self : t) (name : string) : t :=
  set_solution (set_show_solution (set_solving_algorithm self name) false) [].

(** The body of [for event in pygame.event.get()] in [run]; [rnd] gives
    the draws made if the event builds a new maze. *)
Definition handle_event (rnd : nat -> nat) (running : bool) (self : t)
    (ev : event) : result (bool * t) :=
  match ev with
  | QUIT => Ok (false, self)
  | KEYDOWN K_ESCAPE => Ok (false, self)
  | KEYDOWN K_r => self1 ← reset_game rnd self; Ok (running, self1)
  | KEYDOWN k =>
      if negb (game_over self) then
        match k with
        | K_UP => self1 ← move_player self 0 (-1); Ok (running, self1)
        | K_DOWN => self1 ← move_player self 0 1; Ok (running, self1)
        | K_LEFT => self1 ← move_player self (-1) 0; Ok (running, self1)
        | K_RIGHT => self1 ← move_player self 1 0; Ok (running, self1)
        | K_s => self1 ← solve_maze self; Ok (running, self1)
        | K_1 => Ok (running, select_algorithm self "BFS")
        | K_2 => Ok (running, select_algorithm self "DFS")
        | K_3 => Ok (running, select_algorithm self "A*")
        | _ => Ok (running, self)
        end
      else Ok (running, self)
  | OTHER => Ok (running, self)
  end.

(** The check [run] makes in every frame once the events are handled. *)
Definition check_path (self : t) : result t :=
  if negb (game_over self) && bool_decide (1 < length (path self))%nat then
    let '(x, y) := player_pos self in
    if bool_decide ((x, y) ∈ but_last (path self)) then
      if bool_decide ((x, y) ∈ last_n 5 (but_last (path self))) then
        let self1 := lose_life self in
        i ← index (path self1) (x, y);
        Ok (set_path self1 (take (i + 1) (path self1)))
      else Ok self
    else if width self * height self * 2 <? Z.of_nat (length (path self)) then
      let self1 := lose_life self in
      Ok (set_player_pos (set_path self1 []) (Maze.start (maze self1)))
    else Ok self
  else Ok self.

(** One turn of the [while running] loop of [run]: [events] is what
    [pygame.event.get()] returns, each event with the draws made while
    it is handled. *)
Definition frame (events : list ((nat -> nat) * event)) (running : bool)
    (self : t) : result (bool * t) :=
  '(running1, self1) ←
    foldM (fun '(running, self) '(rnd, ev) =>
             handle_event rnd running self ev)
      (running, self) events;
  self2 ← check_path self1;
  _ ← draw self2;
  Ok (running1, self2).

(** The loop of [run] on the events of the successive frames; the state
    reached is returned when the loop ends or the frames are used up. *)
Fixpoint run_loop (frames : list (list ((nat -> nat) * event)))
    (running : bool) (self : t) : result t :=
  if running then
    match frames with
    | [] => Ok self
    | events :: frames' =>
        '(running1, self1) ← frame events running self;
        run_loop frames' running1 self1
    end
  else Ok self.

Definition run (frames : list (list ((nat -> nat) * event))) (self : t)
  : result t :=
  run_loop frames true self.

(** The script: [MazeGame(40, 35, 20).run()]. *)
Definition main (set_mode : Z * Z -> result unit) (rnd : nat -> nat)
    (frames : list (list ((nat -> nat) * event))) : result t :=
  game ← __init__ set_mode rnd 40 35 20; run frames game.

End MazeGame.

(** * Vocabulary of the properties *)

(** ** Grids and positions *)

(** A grid of [w] columns of [h] cells. *)
Definition shape (w h : Z) (cells : grid) : Prop :=
  length cells = Z.to_nat w ∧ Forall (fun col => length col = Z.to_nat h) cells.

(** The cell at a position, for reasoning: total, with an arbitrary value
    where [cells[x][y]] raises. *)
Definition cell_of (cells : grid) (p : Z * Z) : Cell.t :=
  match grid_get cells p.1 p.2 with
  | Ok c => c
  | Raise _ => Cell.__init__ p.1 p.2
  end.

Definition inb (m : Maze.t) (p : Z * Z) : Prop :=
  (0 <= p.1 < Maze.width m) ∧ (0 <= p.2 < Maze.height m).

(** The grid neighbour of [p] in direction [d]. *)
Definition move (p : Z * Z) (d : Direction.t) : Z * Z :=
  (p.1 + (Direction.value d).1, p.2 + (Direction.value d).2).

Definition has_wall_at (m : Maze.t) (p : Z * Z) (d : Direction.t) : bool :=
  Cell.has_wall (cell_of (Maze.cells m) p) d.

Definition visited_at (m : Maze.t) (p : Z * Z) : bool :=
  Cell.visited (cell_of (Maze.cells m) p).

(** All the positions of the grid. *)
Definition all_cells (m : Maze.t) : list (Z * Z) :=
  list_prod (range (Maze.width m)) (range (Maze.height m)).

(** A maze whose grid has the announced dimensions and whose start cell
    lies on it. Nothing is assumed of the walls. *)
Definition well_formed (m : Maze.t) : Prop :=
  shape (Maze.width m) (Maze.height m) (Maze.cells m) ∧ inb m (Maze.start m).

(** ** The connectivity graph *)

(** An edge of the connectivity graph, as the solvers enumerate them. *)
Definition step (m : Maze.t) (a b : Z * Z) : Prop :=
  ∃ l, Maze._get_connected_neighbors m a.1 a.2 = Ok l ∧ b ∈ l.

(** What [_get_connected_neighbors] returns on a cell of the grid. *)
Definition connected_of (m : Maze.t) (p : Z * Z) : list (Z * Z) :=
  Direction.members ≫= (fun d =>
     if Maze.in_bounds m (move p d).1 (move p d).2 && negb (has_wall_at m p d)
     then [move p d] else []).

(** Consecutive elements of a list are related. *)
Inductive chain {A} (R : A -> A -> Prop) : list A -> Prop :=
| chain_nil : chain R []
| chain_one a : chain R [a]
| chain_cons a b l : R a b -> chain R (b :: l) -> chain R (a :: b :: l).

(** [p] is a path of the connectivity graph from [a] to [b]. *)
Definition path (m : Maze.t) (a b : Z * Z) (p : list (Z * Z)) : Prop :=
  head p = Some a ∧ last p = Some b ∧ chain (step m) p.

Definition reachable (m : Maze.t) (a b : Z * Z) : Prop := rtc (step m) a b.

(** Wall state agrees on the two sides of every shared edge. *)
Definition symmetric_walls (m : Maze.t) : Prop :=
  ∀ p d, inb m p -> inb m (move p d) ->
         has_wall_at m p d = has_wall_at m (move p d) (Direction.opposite d).

Definition connected (m : Maze.t) : Prop :=
  ∀ a b, inb m a -> inb m b -> reachable m a b.

(** A cycle: at least three distinct cells, each joined to the next and the
    last to the first. *)
Definition cycle (m : Maze.t) (c : list (Z * Z)) : Prop :=
  ∃ a c', c = a :: c' ∧ (2 <= length c')%nat ∧ NoDup c ∧
          chain (step m) (c ++ [a]).

Definition acyclic (m : Maze.t) : Prop := ∀ c, ¬ cycle m c.

(** The edges of the graph, each listed once, from its western or northern
    end: a cell and the side (east or south) on which it is open towards a
    cell of the grid. *)
Definition is_edge (m : Maze.t) (e : (Z * Z) * Direction.t) : bool :=
  Maze.in_bounds m (move e.1 e.2).1 (move e.1 e.2).2 &&
  negb (has_wall_at m e.1 e.2).

Definition edges (m : Maze.t) : list ((Z * Z) * Direction.t) :=
  List.filter (is_edge m)
    (list_prod (all_cells m) [Direction.EAST; Direction.SOUTH]).

Definition visited_count (m : Maze.t) : nat :=
  length (List.filter (visited_at m) (all_cells m)).

(** ** Invariants and measures used in the proofs *)

(** [m'] is [m] after the wall between [u] and its neighbour in direction
    [d] was removed on both sides and that neighbour marked visited. *)
Record carved (m m' : Maze.t) (u : Z * Z) (d : Direction.t) : Prop := {
  carved_width : Maze.width m' = Maze.width m;
  carved_height : Maze.height m' = Maze.height m;
  carved_shape : shape (Maze.width m) (Maze.height m) (Maze.cells m');
  carved_wall : ∀ p e, inb m p ->
    has_wall_at m' p e =
    if decide ((p, e) = (u, d) ∨ (p, e) = (move u d, Direction.opposite d))
    then false else has_wall_at m p e;
  carved_visited : ∀ p, inb m p ->
    visited_at m' p = if decide (p = move u d) then true else visited_at m p;
  carved_flags : ∀ p, inb m p ->
    Cell.is_start (cell_of (Maze.cells m') p) =
      Cell.is_start (cell_of (Maze.cells m) p) ∧
    Cell.is_end (cell_of (Maze.cells m') p) =
      Cell.is_end (cell_of (Maze.cells m) p)
}.
Arguments carved_width {_ _ _ _}.
Arguments carved_height {_ _ _ _}.
Arguments carved_shape {_ _ _ _}.
Arguments carved_wall {_ _ _ _}.
Arguments carved_visited {_ _ _ _}.
Arguments carved_flags {_ _ _ _}.

(** The invariant of the [while stack:] loop of [_generate_maze]. *)
Record gen_inv (m : Maze.t) (stack : list (Z * Z)) : Prop := {
  gi_shape : shape (Maze.width m) (Maze.height m) (Maze.cells m);
  gi_stack : Forall (fun p => inb m p ∧ visited_at m p = true) stack;
  gi_root : inb m (0, 0) ∧ visited_at m (0, 0) = true;
  gi_sym : symmetric_walls m;
  gi_open : ∀ p d, inb m p -> inb m (move p d) -> has_wall_at m p d = false ->
                   visited_at m p = true ∧ visited_at m (move p d) = true;
  gi_closed : ∀ p d, inb m p -> visited_at m p = true -> p ∉ stack ->
                     inb m (move p d) -> visited_at m (move p d) = true;
  gi_reach : ∀ p, inb m p -> visited_at m p = true -> reachable m (0, 0) p;
  gi_count : S (length (edges m)) = visited_count m;
  gi_acyclic : acyclic m;
  gi_flags : ∀ p, inb m p ->
               Cell.is_start (cell_of (Maze.cells m) p) = false ∧
               Cell.is_end (cell_of (Maze.cells m) p) = false
}.
Arguments gi_shape {_ _}.
Arguments gi_stack {_ _}.
Arguments gi_root {_ _}.
Arguments gi_sym {_ _}.
Arguments gi_open {_ _}.
Arguments gi_closed {_ _}.
Arguments gi_reach {_ _}.
Arguments gi_count {_ _}.
Arguments gi_acyclic {_ _}.
Arguments gi_flags {_ _}.

(** The grid [Maze.__init__] builds: every cell with its four walls, not
    visited. *)
Definition fresh_cells (w h : Z) : grid :=
  (fun x => (fun y => Cell.__init__ x y) <$> range h) <$> range w.

(** What decreases at every iteration of the generator's loop: a push
    visits a cell, a pop shortens the stack. *)
Definition gen_measure (m : Maze.t) (stack : list (Z * Z)) : nat :=
  (2 * (length (all_cells m) - visited_count m) + length stack)%nat.

(** [m'] has the dimensions and the walls of [m]. *)
Definition same_walls (m m' : Maze.t) : Prop :=
  Maze.width m' = Maze.width m ∧ Maze.height m' = Maze.height m ∧
  shape (Maze.width m) (Maze.height m) (Maze.cells m) ∧
  shape (Maze.width m) (Maze.height m) (Maze.cells m') ∧
  ∀ p d, inb m p -> has_wall_at m' p d = has_wall_at m p d.

(** What holds of the maze [Maze(w, h, cs)] returns. *)
Record generated (w h cs : Z) (m : Maze.t) : Prop := {
  gen_width : Maze.width m = w;
  gen_height : Maze.height m = h;
  gen_cell_size : Maze.cell_size m = cs;
  gen_start : Maze.start m = (0, 0);
  gen_end : Maze.end_ m = (w - 1, h - 1);
  gen_shape : shape w h (Maze.cells m);
  gen_symmetric : symmetric_walls m;
  gen_connected : connected m;
  gen_acyclic : acyclic m;
  gen_edges : Z.of_nat (length (edges m)) = w * h - 1;
  gen_is_start : ∀ p, inb m p ->
    Cell.is_start (cell_of (Maze.cells m) p) = bool_decide (p = (0, 0));
  gen_is_end : ∀ p, inb m p ->
    Cell.is_end (cell_of (Maze.cells m) p) = bool_decide (p = (w - 1, h - 1))
}.
Arguments gen_width {_ _ _ _}.
Arguments gen_height {_ _ _ _}.
Arguments gen_cell_size {_ _ _ _}.
Arguments gen_start {_ _ _ _}.
Arguments gen_end {_ _ _ _}.
Arguments gen_shape {_ _ _ _}.
Arguments gen_symmetric {_ _ _ _}.
Arguments gen_connected {_ _ _ _}.
Arguments gen_acyclic {_ _ _ _}.
Arguments gen_edges {_ _ _ _}.
Arguments gen_is_start {_ _ _ _}.
Arguments gen_is_end {_ _ _ _}.

(** What the two solvers need of the way an entry is popped. *)
Definition pop_spec
    (pop : list ((Z * Z) * list (Z * Z)) ->
           option (((Z * Z) * list (Z * Z)) * list ((Z * Z) * list (Z * Z))))
  : Prop :=
  (∀ l, pop l = None -> l = []) ∧
  (∀ l e r, pop l = Some (e, r) -> l ≡ₚ e :: r).

(** The invariant of the [while] loop of [solve_bfs] and [solve_dfs]. *)
Record search_inv (m : Maze.t)
    (frontier : list ((Z * Z) * list (Z * Z))) (visited : gset (Z * Z))
  : Prop := {
  si_entries : ∀ v p, (v, p) ∈ frontier ->
    path m (Maze.start m) v p ∧ NoDup p ∧ (∀ x, x ∈ p -> x ∈ visited);
  si_inb : ∀ v, v ∈ visited -> inb m v;
  si_closed : ∀ c w, c ∈ visited -> c ∉ frontier.*1 -> step m c w ->
                     w ∈ visited;
  si_end : Maze.end_ m ∈ visited -> Maze.end_ m ∈ frontier.*1;
  si_start : Maze.start m ∈ visited;
  si_nodup : NoDup frontier.*1
}.
Arguments si_entries {_ _ _}.
Arguments si_inb {_ _ _}.
Arguments si_closed {_ _ _}.
Arguments si_end {_ _ _}.
Arguments si_start {_ _ _}.
Arguments si_nodup {_ _ _}.

(** What decreases at every iteration of a search: an entry is popped,
    and an entry is pushed only for a cell that becomes visited. *)
Definition search_measure (m : Maze.t)
    (frontier : list ((Z * Z) * list (Z * Z))) (visited : gset (Z * Z)) : nat :=
  (2 * (length (all_cells m) - size visited) + length frontier)%nat.

(** The order of the entries of the queue: by length of the path. *)
Definition shorter (e1 e2 : (Z * Z) * list (Z * Z)) : Prop :=
  (length e1.2 <= length e2.2)%nat.

(** What the queue of [solve_bfs] satisfies besides [search_inv]: paths
    come in order of length, their lengths differ by one at most, and
    every path from the start to a cell not yet expanded goes through a
    queued cell whose recorded path is no longer than the way there. *)
Record bfs_inv (m : Maze.t)
    (queue : list ((Z * Z) * list (Z * Z))) (visited : gset (Z * Z))
  : Prop := {
  bi_sorted : StronglySorted shorter queue;
  bi_spread : ∀ e1 e2, e1 ∈ queue -> e2 ∈ queue ->
                       (length e2.2 <= S (length e1.2))%nat;
  bi_front : ∀ q u, path m (Maze.start m) u q ->
    (u ∈ visited -> u ∈ queue.*1) ->
    ∃ q1 x q2 p, q = q1 ++ x :: q2 ∧ (x, p) ∈ queue ∧
                 (length p <= S (length q1))%nat
}.
Arguments bi_sorted {_ _ _}.
Arguments bi_spread {_ _ _}.
Arguments bi_front {_ _ _}.

(** The outcome of a search: no path when the end is out of reach, else a
    path without repetition from the start to the end. *)
Definition search_result (m : Maze.t) (p : list (Z * Z)) : Prop :=
  (p = [] ∧ ¬ reachable m (Maze.start m) (Maze.end_ m)) ∨
  (path m (Maze.start m) (Maze.end_ m) p ∧ NoDup p).

(** The heuristic of a cell: its Manhattan distance to the end. *)
Definition hcost (m : Maze.t) (v : Z * Z) : Z :=
  Maze.heuristic v (Maze.end_ m).

(** The invariant of the dictionaries and of the heap of [solve_astar]. *)
Record astar_inv (m : Maze.t) (st : Maze.astar_state) : Prop := {
  ai_start : Maze.g_score st !! Maze.start m = Some 0;
  ai_start_root : Maze.came_from st !! Maze.start m = None;
  ai_score : ∀ v c, Maze.g_score st !! v = Some c ->
    inb m v ∧ 0 <= c < Z.of_nat (size (Maze.g_score st));
  ai_parent : ∀ v u, Maze.came_from st !! v = Some u ->
    step m u v ∧
    ∃ cu cv, Maze.g_score st !! u = Some cu ∧
             Maze.g_score st !! v = Some cv ∧ cu + 1 <= cv;
  ai_has_parent : ∀ v, v ≠ Maze.start m ->
    is_Some (Maze.g_score st !! v) -> is_Some (Maze.came_from st !! v);
  ai_heap : ∀ f v, (f, v) ∈ Maze.open_set st ->
    ∃ c, Maze.g_score st !! v = Some c ∧
         (c + hcost m v <= f ∨ v = Maze.start m);
  ai_end : is_Some (Maze.g_score st !! Maze.end_ m) ->
    ∃ f, (f, Maze.end_ m) ∈ Maze.open_set st
}.
Arguments ai_start {_ _}.
Arguments ai_start_root {_ _}.
Arguments ai_score {_ _}.
Arguments ai_parent {_ _}.
Arguments ai_has_parent {_ _}.
Arguments ai_heap {_ _}.
Arguments ai_end {_ _}.

(** A scored cell is either waiting in the heap with a key that does not
    overestimate it, or all its neighbours are scored within one step. *)
Definition settled (m : Maze.t) (st : Maze.astar_state) (v : Z * Z) : Prop :=
  ∀ c, Maze.g_score st !! v = Some c ->
    (∃ f, (f, v) ∈ Maze.open_set st ∧ f <= c + hcost m v) ∨
    (∀ w, step m v w ->
          ∃ c', Maze.g_score st !! w = Some c' ∧ c' <= c + 1).

(** The invariant inside the [for neighbor] loop that expands [cur], after
    the neighbours [done] were handled. *)
Definition relax_inv (m : Maze.t) (cur : Z * Z) (done : list (Z * Z))
    (st : Maze.astar_state) : Prop :=
  astar_inv m st ∧ (∀ v, v ≠ cur -> settled m st v) ∧
  ∃ c, Maze.g_score st !! cur = Some c ∧
       ∀ w, w ∈ done -> ∃ c', Maze.g_score st !! w = Some c' ∧ c' <= c + 1.

(** The score of a cell as a natural number, with the number of cells,
    which no score reaches, for a cell without score. *)
Definition score_of (m : Maze.t) (g : gmap (Z * Z) Z) (v : Z * Z) : nat :=
  match g !! v with
  | Some c => Z.to_nat c
  | None => length (all_cells m)
  end.

(** What decreases at every iteration of [solve_astar]: an item is
    popped, and an item is pushed only when a score goes down. *)
Definition astar_measure (m : Maze.t) (st : Maze.astar_state) : nat :=
  (2 * sum_list_with (score_of m (Maze.g_score st)) (all_cells m) +
   length (Maze.open_set st))%nat.

(** [b] is one grid step away from [a], both on the grid, and [a] has no
    wall on that side. *)
Definition adjacent (m : Maze.t) (a b : Z * Z) : Prop :=
  inb m a ∧ inb m b ∧ ∃ d, b = move a d ∧ has_wall_at m a d = false.

(** The graph of the specification: its vertices are the cells of the
    grid and [adjacent] is its edge relation, read off the walls. [p] is
    a path of that graph from [a] to [b]. *)
Definition wall_path (m : Maze.t) (a b : Z * Z) (p : list (Z * Z)) : Prop :=
  head p = Some a ∧ last p = Some b ∧ chain (adjacent m) p.

(** [b] can be reached from [a] along edges of that graph. *)
Definition wall_reachable (m : Maze.t) (a b : Z * Z) : Prop :=
  rtc (adjacent m) a b.

(** The three solvers [MazeGame.solve_maze] chooses from. *)
Definition solvers : list (Maze.t -> result (list (Z * Z))) :=
  [Maze.solve_bfs; Maze.solve_dfs; Maze.solve_astar].

(** The wall layout a construction produces: the [walls] of every cell of
    the grid, or the exception raised. *)
Definition layout (r : result Maze.t)
  : result (list (list (gmap Direction.t bool))) :=
  m ← r; Ok ((fun col : list Cell.t => Cell.walls <$> col) <$> Maze.cells m).

(** A maze for examples: the 2 x 2 maze generated when the [k]-th draw is
    [k]. *)
Definition example_maze : Maze.t :=
  match Maze.__init__ (fun k => k) 2 2 20 with
  | Ok m => m
  | Raise _ =>
      {| Maze.width := 0; Maze.height := 0; Maze.cell_size := 0;
         Maze.cells := []; Maze.start := (0, 0); Maze.end_ := (0, 0) |}
  end.

(** A grid whose walls are all standing: the end is out of reach. *)
Definition walled_maze : Maze.t :=
  {| Maze.width := 2; Maze.height := 1; Maze.cell_size := 20;
     Maze.cells := [[Cell.__init__ 0 0]; [Cell.__init__ 1 0]];
     Maze.start := (0, 0); Maze.end_ := (1, 0) |}.

(** A grid of two cells joined by an opening, to be crossed westwards:
    the start is the eastern cell. *)
Definition west_maze : Maze.t :=
  {| Maze.width := 2; Maze.height := 1; Maze.cell_size := 20;
     Maze.cells :=
       [[Cell.remove_wall (Cell.__init__ 0 0) Direction.EAST];
        [Cell.remove_wall (Cell.__init__ 1 0) Direction.WEST]];
     Maze.start := (1, 0); Maze.end_ := (0, 0) |}.

(** A grid whose only opening is on one side of a wall: the eastern cell
    has no west wall, the western cell has its east wall. *)
Definition one_way_maze : Maze.t :=
  {| Maze.width := 2; Maze.height := 1; Maze.cell_size := 20;
     Maze.cells :=
       [[Cell.__init__ 0 0];
        [Cell.remove_wall (Cell.__init__ 1 0) Direction.WEST]];
     Maze.start := (1, 0); Maze.end_ := (0, 0) |}.

(** The maze of one cell. *)
Definition single_cell_maze : Maze.t :=
  match Maze.__init__ (fun k => k) 1 1 20 with
  | Ok m => m
  | Raise _ =>
      {| Maze.width := 0; Maze.height := 0; Maze.cell_size := 0;
         Maze.cells := []; Maze.start := (0, 0); Maze.end_ := (1, 1) |}
  end.

(** [m] with another [cell_size]. *)
Definition with_cell_size (m : Maze.t) (cs : Z) : Maze.t :=
  {| Maze.width := Maze.width m; Maze.height := Maze.height m;
     Maze.cell_size := cs; Maze.cells := Maze.cells m;
     Maze.start := Maze.start m; Maze.end_ := Maze.end_ m |}.

(** Two outcomes that differ in [cell_size] at most. *)
Definition same_but_size (r r' : result Maze.t) : Prop :=
  match r, r' with
  | Ok m, Ok m' => m' = with_cell_size m (Maze.cell_size m')
  | Raise e, Raise e' => e = e'
  | _, _ => False
  end.

(** Every side of a cell that faces outside the grid has its wall. *)
Definition enclosed (m : Maze.t) : Prop :=
  ∀ p d, inb m p -> ¬ inb m (move p d) -> has_wall_at m p d = true.

Definition all_visited (m : Maze.t) : Prop :=
  ∀ p, inb m p -> visited_at m p = true.

(** [m] with other end points. *)
Definition with_ends (m : Maze.t) (a b : Z * Z) : Maze.t :=
  {| Maze.width := Maze.width m; Maze.height := Maze.height m;
     Maze.cell_size := Maze.cell_size m; Maze.cells := Maze.cells m;
     Maze.start := a; Maze.end_ := b |}.

(** The [walls] of every cell of the grid. *)
Definition wall_grid (m : Maze.t) : list (list (gmap Direction.t bool)) :=
  (fun col : list Cell.t => Cell.walls <$> col) <$> Maze.cells m.

(** Two mazes that differ at most in [cell_size] and in the [x], [y],
    [visited], [is_start] and [is_end] attributes of their cells. *)
Definition same_layout (m m' : Maze.t) : Prop :=
  Maze.width m = Maze.width m' ∧ Maze.height m = Maze.height m' ∧
  Maze.start m = Maze.start m' ∧ Maze.end_ m = Maze.end_ m' ∧
  wall_grid m = wall_grid m'.

(** [m] with another [cell_size] and every cell marked visited. *)
Definition repainted (m : Maze.t) (cs : Z) : Maze.t :=
  {| Maze.width := Maze.width m; Maze.height := Maze.height m;
     Maze.cell_size := cs;
     Maze.cells := (fun col : list Cell.t =>
                      (fun c => Cell.set_visited c true) <$> col)
                     <$> Maze.cells m;
     Maze.start := Maze.start m; Maze.end_ := Maze.end_ m |}.

(** What holds of the game from its construction on, whatever the events. *)
Record game_inv (g : MazeGame.t) : Prop := {
  gv_maze : generated (MazeGame.width g) (MazeGame.height g)
              (MazeGame.cell_size g) (MazeGame.maze g);
  gv_enclosed : enclosed (MazeGame.maze g);
  gv_dims : 0 < MazeGame.width g ∧ 0 < MazeGame.height g;
  gv_screen :
    MazeGame.screen_width g = MazeGame.width g * MazeGame.cell_size g + 100 ∧
    MazeGame.screen_height g = MazeGame.height g * MazeGame.cell_size g + 100;
  gv_pos : inb (MazeGame.maze g) (MazeGame.player_pos g);
  gv_path : Forall (inb (MazeGame.maze g)) (MazeGame.path g);
  gv_lives : 0 <= MazeGame.lives g <= 3;
  gv_dead : MazeGame.lives g = 0 -> MazeGame.game_over g = true;
  gv_over : MazeGame.game_over g = true ->
            MazeGame.player_pos g = Maze.end_ (MazeGame.maze g) ∨
            MazeGame.lives g = 0;
  gv_end : MazeGame.player_pos g = Maze.end_ (MazeGame.maze g) ->
           MazeGame.game_over g = true ∨
           Maze.start (MazeGame.maze g) = Maze.end_ (MazeGame.maze g);
  gv_solution :
    MazeGame.solution g = [] ∨
    (path (MazeGame.maze g) (Maze.start (MazeGame.maze g))
       (Maze.end_ (MazeGame.maze g)) (MazeGame.solution g) ∧
     NoDup (MazeGame.solution g));
  gv_algorithm :
    MazeGame.solving_algorithm g ∈ ["BFS"; "DFS"; "A*"]%string
}.
Arguments gv_maze {_}.
Arguments gv_enclosed {_}.
Arguments gv_dims {_}.
Arguments gv_screen {_}.
Arguments gv_pos {_}.
Arguments gv_path {_}.
Arguments gv_lives {_}.
Arguments gv_dead {_}.
Arguments gv_over {_}.
Arguments gv_end {_}.
Arguments gv_solution {_}.
Arguments gv_algorithm {_}.

(** The game after a step of the player in direction [d]. *)
Definition moved (g : MazeGame.t) (d : Direction.t) : MazeGame.t :=
  let g1 :=
    MazeGame.set_path
      (MazeGame.set_player_pos g (move (MazeGame.player_pos g) d))
      (MazeGame.path g ++ [MazeGame.player_pos g]) in
  if decide (move (MazeGame.player_pos g) d = Maze.end_ (MazeGame.maze g))
  then MazeGame.set_game_over g1 true else g1.

(** The player can step in direction [d]: the game goes on, the
    neighbour is on the grid and no wall is in the way. *)
Definition can_move (g : MazeGame.t) (d : Direction.t) : bool :=
  negb (MazeGame.game_over g) &&
  Maze.in_bounds (MazeGame.maze g) (move (MazeGame.player_pos g) d).1
    (move (MazeGame.player_pos g) d).2 &&
  negb (has_wall_at (MazeGame.maze g) (MazeGame.player_pos g) d).

(** The arrow key of a direction. *)
Definition arrow (d : Direction.t) : MazeGame.key :=
  match d with
  | Direction.NORTH => MazeGame.K_UP
  | Direction.SOUTH => MazeGame.K_DOWN
  | Direction.WEST => MazeGame.K_LEFT
  | Direction.EAST => MazeGame.K_RIGHT
  end.

(** What [check_path] does, by cases. *)
Inductive checked (g : MazeGame.t) : MazeGame.t -> Prop :=
| checked_same : checked g g
| checked_back i :
    MazeGame.game_over g = false ->
    MazeGame.player_pos g ∈ last_n 5 (but_last (MazeGame.path g)) ->
    MazeGame.path g !! i = Some (MazeGame.player_pos g) ->
    MazeGame.player_pos g ∉ take i (MazeGame.path g) ->
    checked g (MazeGame.set_path (MazeGame.lose_life g)
                 (take (i + 1) (MazeGame.path g)))
| checked_long :
    MazeGame.game_over g = false ->
    MazeGame.player_pos g ∉ but_last (MazeGame.path g) ->
    MazeGame.width g * MazeGame.height g * 2 <
      Z.of_nat (length (MazeGame.path g)) ->
    checked g (MazeGame.set_player_pos
                 (MazeGame.set_path (MazeGame.lose_life g) [])
                 (Maze.start (MazeGame.maze g))).

(** The calls [draw] makes for the cell at [p]. *)
Definition cell_commands (g : MazeGame.t) (p : Z * Z)
  : list MazeGame.command :=
  match MazeGame.draw_cell g p.1 p.2 with
  | Ok l => l
  | Raise _ => []
  end.

(** The states the game goes through: the state [MazeGame(...)] builds,
    whatever the video system, and the states that follow by an event
    handled or by the check of a frame. *)
Inductive reachable_game : MazeGame.t -> Prop :=
| reach_init set_mode rnd w h cs g :
    MazeGame.__init__ set_mode rnd w h cs = Ok g -> reachable_game g
| reach_event rnd running g ev running' g' :
    reachable_game g ->
    MazeGame.handle_event rnd running g ev = Ok (running', g') ->
    reachable_game g'
| reach_check g g' :
    reachable_game g -> MazeGame.check_path g = Ok g' -> reachable_game g'.

(** A video system that opens every window, and one that refuses the
    sizes with a negative side. *)
Definition any_window (size : Z * Z) : result unit := Ok ().

Definition no_negative_window (size : Z * Z) : result unit :=
  if (size.1 <? 0) || (size.2 <? 0) then Raise PygameError else Ok ().

(** A game for examples: the 2 x 2 game built when the [k]-th draw is
    [k]. *)
Definition example_game : MazeGame.t :=
  match MazeGame.__init__ any_window (fun k => k) 2 2 20 with
  | Ok g => g
  | Raise _ =>
      {| MazeGame.width := 0; MazeGame.height := 0; MazeGame.cell_size := 0;
         MazeGame.screen_width := 0; MazeGame.screen_height := 0;
         MazeGame.maze := example_maze; MazeGame.player_pos := (0, 0);
         MazeGame.path := []; MazeGame.solution := []; MazeGame.lives := 0;
         MazeGame.game_over := true; MazeGame.show_solution := false;
         MazeGame.solving_algorithm := "" |}
  end.

(** An event that is not the restart key. *)
Definition no_restart (e : (nat -> nat) * MazeGame.event) : Prop :=
  e.2 ≠ MazeGame.KEYDOWN MazeGame.K_r.

(** The example game after the keys down and right, which lead to the
    end of its maze. *)
Definition won_game : MazeGame.t :=
  match
    foldM (fun '(running, self) '(rnd, ev) =>
             MazeGame.handle_event rnd running self ev)
      (true, example_game)
      [(fun k : nat => k, MazeGame.KEYDOWN MazeGame.K_DOWN);
       (fun k : nat => k, MazeGame.KEYDOWN MazeGame.K_RIGHT)]
  with
  | Ok (_, g) => g
  | Raise _ => example_game
  end.

(** The rectangle of the cell at [p], in colour [color]. *)
Definition rect_at (g : MazeGame.t) (p : Z * Z) (color : Z * Z * Z)
  : MazeGame.command :=
  MazeGame.Rect color (p.1 * MazeGame.cell_size g + 50)
    (p.2 * MazeGame.cell_size g + 50)
    (MazeGame.cell_size g) (MazeGame.cell_size g).

(** The background of the cell at [p], told from the positions rather
    than from the flags of the cell. *)
Definition background (g : MazeGame.t) (p : Z * Z)
  : list MazeGame.command :=
  if bool_decide (p = Maze.start (MazeGame.maze g)) then
    [rect_at g p (144, 238, 144)]
  else if bool_decide (p = Maze.end_ (MazeGame.maze g)) then
    [rect_at g p (255, 182, 193)]
  else if bool_decide (p = MazeGame.player_pos g) then
    [rect_at g p (100, 100, 255)]
  else if bool_decide (p ∈ MazeGame.path g) then
    [rect_at g p (200, 200, 255)]
  else if MazeGame.show_solution g && bool_decide (p ∈ MazeGame.solution g)
  then [rect_at g p (255, 255, 200)]
  else [].

(** The corner of the cell at [p] shifted by [dx] cells to the east and
    [dy] cells to the south. *)
Definition corner (g : MazeGame.t) (p : Z * Z) (dx dy : Z) : Z * Z :=
  ((p.1 + dx) * MazeGame.cell_size g + 50,
   (p.2 + dy) * MazeGame.cell_size g + 50).

(** The segment [draw] shows for the wall of the cell at [p] in direction
    [d]. *)
Definition wall_segment (g : MazeGame.t) (p : Z * Z) (d : Direction.t)
  : MazeGame.command :=
  match d with
  | Direction.NORTH =>
      MazeGame.Line (0, 0, 0) (corner g p 0 0) (corner g p 1 0) 2
  | Direction.SOUTH =>
      MazeGame.Line (0, 0, 0) (corner g p 0 1) (corner g p 1 1) 2
  | Direction.WEST =>
      MazeGame.Line (0, 0, 0) (corner g p 0 0) (corner g p 0 1) 2
  | Direction.EAST =>
      MazeGame.Line (0, 0, 0) (corner g p 1 0) (corner g p 1 1) 2
  end.

Definition wall_lines (g : MazeGame.t) (p : Z * Z)
  : list MazeGame.command :=
  [Direction.NORTH; Direction.SOUTH; Direction.WEST; Direction.EAST] ≫=
    (fun d => if has_wall_at (MazeGame.maze g) p d
              then [wall_segment g p d] else []).

(** A call that paints inside the area of the maze: the window without
    its margin of 50 pixels. *)
Definition in_maze_area (g : MazeGame.t) (c : MazeGame.command) : Prop :=
  match c with
  | MazeGame.Rect _ l t w h =>
      50 <= l ∧ l + w <= MazeGame.screen_width g - 50 ∧
      50 <= t ∧ t + h <= MazeGame.screen_height g - 50
  | MazeGame.Line _ a b _ =>
      (50 <= a.1 <= MazeGame.screen_width g - 50 ∧
       50 <= a.2 <= MazeGame.screen_height g - 50) ∧
      (50 <= b.1 <= MazeGame.screen_width g - 50 ∧
       50 <= b.2 <= MazeGame.screen_height g - 50)
  | _ => True
  end.

(** The text shown when the player has won, and when it has lost. *)
Definition win_text : string := "You Win! Press R to restart".

Definition lost_text : string := "Game Over! Press R to restart".

(** A text is among the calls. *)
Definition shows (cmds : list MazeGame.command) (text : string) : Prop :=
  ∃ color dest, MazeGame.Blit text color dest ∈ cmds.

(** * Proofs *)

(** ** Indexing the grid *)

Lemma py_norm_inrange (len : nat) (i : Z) :
  0 <= i < Z.of_nat len -> py_norm len i = Some (Z.to_nat i).
Proof.
  intros Hi. unfold py_norm.
  destruct (Z.ltb_spec i 0); [lia|].
  destruct (Z.leb_spec 0 i); [|lia].
  destruct (Z.ltb_spec i (Z.of_nat len)); [done|lia].
Qed.

Lemma py_norm_lt len i j : py_norm len i = Some j -> (j < len)%nat.
Proof.
  unfold py_norm. intros H.
  destruct (_ && _) eqn:E; [|done].
  apply andb_prop in E as [E1 E2].
  apply Z.leb_le in E1. apply Z.ltb_lt in E2.
  inversion H; subst. lia.
Qed.

Section grid.
Context (w h : Z) (cells : grid).
Hypothesis Hshape : shape w h cells.

Lemma shape_col i col : cells !! i = Some col -> length col = Z.to_nat h.
Proof.
  intros Hc. destruct Hshape as [_ HF].
  rewrite Forall_lookup in HF. eauto.
Qed.

Lemma grid_lookup (x y : Z) :
  0 <= x < w -> 0 <= y < h ->
  ∃ col c, cells !! Z.to_nat x = Some col ∧ col !! Z.to_nat y = Some c ∧
           length col = Z.to_nat h.
Proof.
  intros Hx Hy. destruct Hshape as [Hl HF].
  destruct (lookup_lt_is_Some_2 cells (Z.to_nat x)) as [col Hcol]; [lia|].
  pose proof (shape_col _ _ Hcol) as Hlc.
  destruct (lookup_lt_is_Some_2 col (Z.to_nat y)) as [c Hc]; [lia|].
  eauto.
Qed.

Lemma grid_get_ok (x y : Z) :
  0 <= x < w -> 0 <= y < h ->
  grid_get cells x y = Ok (cell_of cells (x, y)).
Proof.
  intros Hx Hy.
  destruct (grid_lookup x y Hx Hy) as (col & c & Hcol & Hc & Hlc).
  assert (E : grid_get cells x y = Ok c).
  { unfold grid_get, py_index. destruct Hshape as [Hl _].
    rewrite py_norm_inrange by lia. rewrite Hcol. simpl.
    rewrite py_norm_inrange by lia. by rewrite Hc. }
  unfold cell_of. simpl. by rewrite E.
Qed.

Lemma grid_update_ok (x y : Z) (f : Cell.t -> Cell.t) :
  0 <= x < w -> 0 <= y < h ->
  ∃ cells',
    grid_update cells x y f = Ok cells' ∧ shape w h cells' ∧
    cell_of cells' (x, y) = f (cell_of cells (x, y)) ∧
    ∀ q, 0 <= q.1 < w -> 0 <= q.2 < h -> q ≠ (x, y) ->
         cell_of cells' q = cell_of cells q.
Proof.
  intros Hx Hy.
  destruct (grid_lookup x y Hx Hy) as (col & c & Hcol & Hc & Hlc).
  pose proof Hshape as [Hl HF].
  exists (<[Z.to_nat x := <[Z.to_nat y := f c]> col]> cells).
  assert (Hsh' : shape w h (<[Z.to_nat x := <[Z.to_nat y := f c]> col]> cells)).
  { split; [by rewrite length_insert|].
    apply Forall_insert; [done|]. by rewrite length_insert. }
  split; [|split; [done|split]].
  - unfold grid_update. rewrite py_norm_inrange by lia. rewrite Hcol.
    rewrite py_norm_inrange by lia. by rewrite Hc.
  - assert (cell_of cells (x, y) = c) as ->.
    { unfold cell_of, grid_get, py_index. simpl.
      rewrite py_norm_inrange by lia. rewrite Hcol. simpl.
      rewrite py_norm_inrange by lia. by rewrite Hc. }
    unfold cell_of, grid_get, py_index. simpl.
    rewrite length_insert, py_norm_inrange by lia.
    rewrite list_lookup_insert_eq by lia. simpl.
    rewrite length_insert, py_norm_inrange by lia.
    by rewrite list_lookup_insert_eq by lia.
  - intros [qx qy] Hqx Hqy Hne. simpl in *.
    unfold cell_of, grid_get, py_index. simpl.
    rewrite length_insert, !py_norm_inrange by lia.
    destruct (decide (qx = x)) as [->|Hnx].
    + rewrite list_lookup_insert_eq by lia. rewrite Hcol. simpl.
      rewrite length_insert, !py_norm_inrange by lia.
      rewrite list_lookup_insert_ne; [done|].
      intros E. apply Z2Nat.inj in E; [|lia|lia]. congruence.
    + rewrite list_lookup_insert_ne; [done|].
      intros E. apply Z2Nat.inj in E; [|lia|lia]. congruence.
Qed.
End grid.

(** ** Moves and connected neighbours *)

Lemma in_bounds_spec m x y : Maze.in_bounds m x y = true ↔ inb m (x, y).
Proof.
  unfold Maze.in_bounds, inb. simpl.
  rewrite !andb_true_iff, !Z.leb_le, !Z.ltb_lt. lia.
Qed.

Lemma move_inj p d1 d2 : move p d1 = move p d2 -> d1 = d2.
Proof.
  destruct p as [x y]. unfold move.
  destruct d1, d2; simpl; intros E; inversion E; try done; lia.
Qed.

Lemma move_ne p d : move p d ≠ p.
Proof. destruct p as [x y], d; unfold move; simpl; intros E; inversion E; lia. Qed.

Lemma move_opposite p d : move (move p d) (Direction.opposite d) = p.
Proof. destruct p as [x y], d; unfold move; simpl; f_equal; lia. Qed.

Lemma opposite_involutive d : Direction.opposite (Direction.opposite d) = d.
Proof. by destruct d. Qed.

Lemma of_value_move p d :
  Direction.of_value ((move p d).1 - p.1, (move p d).2 - p.2) = Ok d.
Proof.
  destruct p as [x y], d; unfold move; simpl.
  all: repeat match goal with |- context [?a + ?b - ?a] =>
         replace (a + b - a) with b by lia end; reflexivity.
Qed.

Lemma foldM_collect {A B} (f : list B -> A -> result (list B))
    (g : A -> list B) (l : list A) :
  (∀ acc a, a ∈ l -> f acc a = Ok (acc ++ g a)) ->
  ∀ acc, foldM f acc l = Ok (acc ++ (l ≫= g)).
Proof.
  induction l as [|a l IH]; intros Hf acc; simpl.
  - by rewrite app_nil_r.
  - rewrite Hf by left. simpl. unfold mbind, result_bind.
    rewrite IH; [by rewrite app_assoc|].
    intros acc' a' Ha'. apply Hf. by right.
Qed.

Lemma get_connected_neighbors_eq m p :
  shape (Maze.width m) (Maze.height m) (Maze.cells m) -> inb m p ->
  Maze._get_connected_neighbors m p.1 p.2 = Ok (connected_of m p).
Proof.
  intros Hsh [Hx Hy]. unfold Maze._get_connected_neighbors, connected_of.
  rewrite (foldM_collect _ (fun d =>
     if Maze.in_bounds m (move p d).1 (move p d).2 &&
        negb (has_wall_at m p d)
     then [move p d] else [])); [done|].
  intros acc d _.
  rewrite (grid_get_ok _ _ _ Hsh) by done.
  destruct p as [x y]. unfold has_wall_at. simpl in *.
  destruct d; simpl; unfold move; simpl;
    destruct (Maze.in_bounds m _ _); simpl; try (by rewrite app_nil_r);
    destruct (Cell.has_wall _ _); simpl; by rewrite ?app_nil_r.
Qed.

Lemma elem_of_connected_of m p b :
  b ∈ connected_of m p ↔
  ∃ d, b = move p d ∧ inb m b ∧ has_wall_at m p d = false.
Proof.
  unfold connected_of. rewrite list_elem_of_bind. split.
  - intros (d & Hb & _).
    destruct (Maze.in_bounds _ _ _) eqn:E1; simpl in Hb;
      [|by apply not_elem_of_nil in Hb].
    destruct (has_wall_at _ _ _) eqn:E2; simpl in Hb;
      [by apply not_elem_of_nil in Hb|].
    apply list_elem_of_singleton in Hb as ->.
    exists d. split; [done|]. split; [|done].
    apply in_bounds_spec in E1. by destruct (move p d).
  - intros (d & -> & Hin & Hop).
    exists d. split.
    + assert (Maze.in_bounds m (move p d).1 (move p d).2 = true) as ->.
      { apply in_bounds_spec. by destruct (move p d). }
      rewrite Hop. by left.
    + unfold Direction.members. destruct d; rewrite !elem_of_cons; auto 10.
Qed.

Lemma step_spec m a b :
  shape (Maze.width m) (Maze.height m) (Maze.cells m) -> inb m a ->
  step m a b ↔ ∃ d, b = move a d ∧ inb m b ∧ has_wall_at m a d = false.
Proof.
  intros Hsh Ha. unfold step. rewrite get_connected_neighbors_eq by done.
  rewrite <- elem_of_connected_of. split.
  - by intros (l & [= <-] & Hb).
  - eauto.
Qed.

Lemma step_inb m a b :
  shape (Maze.width m) (Maze.height m) (Maze.cells m) -> inb m a ->
  step m a b -> inb m b.
Proof. intros Hsh Ha Hs. apply step_spec in Hs as (d & _ & Hb & _); done. Qed.

(** ** The cells of the grid *)

Lemma NoDup_list_prod {A B} (l : list A) (k : list B) :
  NoDup l -> NoDup k -> NoDup (list_prod l k).
Proof.
  intros Hl Hk. induction Hl as [|a l Ha Hl IH]; simpl; [constructor|].
  apply NoDup_app. split; [|split; [|done]].
  - apply NoDup_fmap_2; [|done]. by intros ?? [= ->].
  - intros [a' b'] H1 H2.
    apply list_elem_of_fmap in H1 as (b & [= -> ->] & _).
    apply list_elem_of_In, in_prod_iff in H2 as [H2 _].
    by apply list_elem_of_In in H2.
Qed.

Lemma elem_of_all_cells m p : p ∈ all_cells m ↔ inb m p.
Proof.
  destruct p as [x y]. unfold all_cells, range, inb.
  rewrite list_elem_of_In, in_prod_iff, <- !list_elem_of_In, !elem_of_seqZ.
  simpl. lia.
Qed.

Lemma NoDup_all_cells m : NoDup (all_cells m).
Proof. apply NoDup_list_prod; apply NoDup_seqZ. Qed.

Lemma length_all_cells m :
  0 <= Maze.width m -> 0 <= Maze.height m ->
  length (all_cells m) = Z.to_nat (Maze.width m * Maze.height m).
Proof.
  intros. unfold all_cells, range. rewrite length_prod, !length_seqZ. lia.
Qed.

(** ** Counting with a predicate that changes at one place *)

Lemma length_filter_ext {A} (P Q : A -> bool) (l : list A) :
  (∀ a, a ∈ l -> Q a = P a) ->
  length (List.filter Q l) = length (List.filter P l).
Proof.
  induction l as [|a l IH]; intros H; simpl; [done|].
  rewrite (H a) by left.
  destruct (P a); simpl; rewrite IH; auto; intros; apply H; by right.
Qed.

Lemma length_filter_flip {A} (P Q : A -> bool) (l : list A) (a : A) :
  NoDup l -> a ∈ l -> P a = false -> Q a = true ->
  (∀ b, b ∈ l -> b ≠ a -> Q b = P b) ->
  length (List.filter Q l) = S (length (List.filter P l)).
Proof.
  intros Hnd. induction Hnd as [|b l Hb Hnd IH]; intros Ha HP HQ Hext.
  - by apply not_elem_of_nil in Ha.
  - simpl. apply elem_of_cons in Ha as [->|Ha].
    + rewrite HP, HQ. simpl. f_equal. apply length_filter_ext.
      intros c Hc. apply Hext; [by right|]. intros ->. done.
    + assert (Hne : b ≠ a) by (by intros ->).
      rewrite (Hext b) by (done || by left).
      specialize (IH Ha HP HQ).
      destruct (P b); simpl; rewrite IH; auto; intros; apply Hext;
        (done || by right).
Qed.

Lemma length_filter_all {A} (P : A -> bool) (l : list A) :
  (∀ a, a ∈ l -> P a = true) -> length (List.filter P l) = length l.
Proof.
  induction l as [|a l IH]; intros H; simpl; [done|].
  rewrite (H a) by left. simpl. f_equal. apply IH. intros; apply H; by right.
Qed.

Lemma length_filter_le {A} (P : A -> bool) (l : list A) :
  (length (List.filter P l) <= length l)%nat.
Proof. induction l as [|a l IH]; simpl; [done|]. destruct (P a); simpl; lia. Qed.

(** ** Grid neighbours *)

Lemma get_neighbors_eq m x y :
  Maze._get_neighbors m x y =
  [Direction.SOUTH; Direction.EAST; Direction.NORTH; Direction.WEST] ≫=
    (fun d => if Maze.in_bounds m (move (x, y) d).1 (move (x, y) d).2
              then [move (x, y) d] else []).
Proof.
  unfold Maze._get_neighbors, move. simpl.
  repeat destruct (Maze.in_bounds m _ _); reflexivity.
Qed.

Lemma elem_of_get_neighbors m p q :
  q ∈ Maze._get_neighbors m p.1 p.2 ↔ ∃ d, q = move p d ∧ inb m q.
Proof.
  rewrite get_neighbors_eq, list_elem_of_bind.
  replace (p.1, p.2) with p by by destruct p. split.
  - intros (d & Hq & _). exists d.
    destruct (Maze.in_bounds _ _ _) eqn:E; [|by apply not_elem_of_nil in Hq].
    apply list_elem_of_singleton in Hq as ->. split; [done|].
    apply in_bounds_spec in E. by destruct (move p d).
  - intros (d & -> & Hin). exists d. split.
    + assert (Maze.in_bounds m (move p d).1 (move p d).2 = true) as ->.
      { apply in_bounds_spec. by destruct (move p d). }
      by left.
    + destruct d; rewrite !elem_of_cons; auto 10.
Qed.

Lemma unvisited_neighbors_eq m x y :
  shape (Maze.width m) (Maze.height m) (Maze.cells m) ->
  Maze.unvisited_neighbors m x y =
  Ok (Maze._get_neighbors m x y ≫=
        (fun q => if negb (visited_at m q) then [q] else [])).
Proof.
  intros Hsh. unfold Maze.unvisited_neighbors.
  rewrite (foldM_collect _
    (fun q => if negb (visited_at m q) then [q] else [])); [done|].
  intros acc [nx ny] Hq.
  replace x with (x, y).1 in Hq by done. replace y with (x, y).2 in Hq at 2 by done.
  apply elem_of_get_neighbors in Hq as (d & _ & [Hx Hy]).
  rewrite (grid_get_ok _ _ _ Hsh) by done. simpl.
  unfold visited_at. destruct (Cell.visited _); simpl; by rewrite ?app_nil_r.
Qed.

Lemma elem_of_unvisited m (l : list (Z * Z)) q :
  q ∈ l ≫= (fun q => if negb (visited_at m q) then [q] else []) ↔
  q ∈ l ∧ visited_at m q = false.
Proof.
  rewrite list_elem_of_bind. split.
  - intros (q' & Hq & Hl). destruct (visited_at m q') eqn:E; simpl in Hq;
      [by apply not_elem_of_nil in Hq|].
    apply list_elem_of_singleton in Hq as ->. done.
  - intros [Hl Hv]. exists q. rewrite Hv. simpl. split; [by left|done].
Qed.

Lemma choice_ok {A} rnd k (l : list A) :
  l ≠ [] -> ∃ a, Maze.choice rnd k l = Ok a ∧ a ∈ l.
Proof.
  intros Hl. unfold Maze.choice.
  destruct (lookup_lt_is_Some_2 l (rnd k mod length l)%nat) as [a Ha].
  { apply Nat.mod_upper_bound. by destruct l. }
  rewrite Ha. exists a. split; [done|]. by eapply list_elem_of_lookup_2.
Qed.

Lemma pop_last_None {A} (l : list A) : pop_last l = None -> l = [].
Proof.
  destruct l as [|a l]; [done|]. simpl.
  by destruct (pop_last l) as [[??]|].
Qed.

Lemma pop_last_Some {A} (l : list A) a r :
  pop_last l = Some (a, r) -> l = r ++ [a].
Proof.
  revert a r. induction l as [|b l IH]; intros a r; simpl; [done|].
  destruct (pop_last l) as [[a' r']|] eqn:E.
  - intros [= <- <-]. rewrite (IH a' r') by done. done.
  - intros [= <- <-]. by rewrite (pop_last_None l).
Qed.

Lemma pop_last_snoc {A} (l : list A) a : pop_last (l ++ [a]) = Some (a, l).
Proof.
  induction l as [|b l IH]; simpl; [done|]. by rewrite IH.
Qed.

(** ** The generator *)

(** *** Carving a wall *)

Lemma has_wall_remove_wall c d e :
  Cell.has_wall (Cell.remove_wall c d) e =
  if decide (d = e) then false else Cell.has_wall c e.
Proof.
  unfold Cell.has_wall, Cell.remove_wall. simpl.
  rewrite lookup_insert. by destruct (decide (d = e)).
Qed.

Lemma has_wall_set_visited c b e :
  Cell.has_wall (Cell.set_visited c b) e = Cell.has_wall c e.
Proof. reflexivity. Qed.

Lemma carve_ok m u d :
  shape (Maze.width m) (Maze.height m) (Maze.cells m) ->
  inb m u -> inb m (move u d) ->
  ∃ cs1 cs2 cs3,
    grid_update (Maze.cells m) u.1 u.2
      (fun c => Cell.remove_wall c d) = Ok cs1 ∧
    grid_update cs1 (move u d).1 (move u d).2
      (fun c => Cell.remove_wall c (Direction.opposite d)) = Ok cs2 ∧
    grid_update cs2 (move u d).1 (move u d).2
      (fun c => Cell.set_visited c true) = Ok cs3 ∧
    carved m (Maze.set_cells m cs3) u d.
Proof.
  intros Hsh [Hux Huy] [Hvx Hvy].
  pose proof (move_ne u d) as Hne.
  destruct (grid_update_ok _ _ _ Hsh u.1 u.2
              (fun c => Cell.remove_wall c d) Hux Huy)
    as (cs1 & E1 & Hsh1 & Hu1 & Ho1).
  destruct (grid_update_ok _ _ _ Hsh1 (move u d).1 (move u d).2
              (fun c => Cell.remove_wall c (Direction.opposite d)) Hvx Hvy)
    as (cs2 & E2 & Hsh2 & Hu2 & Ho2).
  destruct (grid_update_ok _ _ _ Hsh2 (move u d).1 (move u d).2
              (fun c => Cell.set_visited c true) Hvx Hvy)
    as (cs3 & E3 & Hsh3 & Hu3 & Ho3).
  exists cs1, cs2, cs3. split; [done|]. split; [done|]. split; [done|].
  replace (u.1, u.2) with u in * by by destruct u.
  replace ((move u d).1, (move u d).2) with (move u d) in * by by destruct (move u d).
  assert (Hcell : ∀ p, inb m p ->
    cell_of cs3 p =
    if decide (p = move u d) then
      Cell.set_visited
        (Cell.remove_wall (cell_of (Maze.cells m) p) (Direction.opposite d)) true
    else if decide (p = u) then Cell.remove_wall (cell_of (Maze.cells m) p) d
    else cell_of (Maze.cells m) p).
  { intros p [Hpx Hpy]. destruct (decide (p = move u d)) as [->|Hpv].
    - rewrite Hu3, Hu2, Ho1; done.
    - rewrite Ho3, Ho2 by done. destruct (decide (p = u)) as [->|Hpu].
      + by rewrite Hu1.
      + by rewrite Ho1. }
  split; simpl; try done.
  - intros p e Hp. unfold has_wall_at. simpl. rewrite Hcell by done.
    destruct (decide (p = move u d)) as [->|Hpv].
    + rewrite has_wall_set_visited, has_wall_remove_wall.
      destruct (decide (Direction.opposite d = e)) as [<-|Hde].
      * rewrite decide_True; [done|]. by right.
      * rewrite decide_False; [done|]. intros [[= ? ?]|[= ?]]; done.
    + destruct (decide (p = u)) as [->|Hpu].
      * rewrite has_wall_remove_wall.
        destruct (decide (d = e)) as [<-|Hde].
        -- rewrite decide_True; [done|]. by left.
        -- rewrite decide_False; [done|]. intros [[= ?]|[= ? ?]]; done.
      * rewrite decide_False; [done|]. intros [[= ? ?]|[= ? ?]]; done.
  - intros p Hp. unfold visited_at. simpl. rewrite Hcell by done.
    destruct (decide (p = move u d)); [done|].
    by destruct (decide (p = u)).
  - intros p Hp. rewrite Hcell by done.
    destruct (decide (p = move u d)); [done|].
    by destruct (decide (p = u)).
Qed.

Lemma move_inj_l p q d : move p d = move q d -> p = q.
Proof.
  destruct p as [x y], q as [x' y']. unfold move. simpl.
  intros [= ? ?]. f_equal; lia.
Qed.

(** *** Chains *)

Lemma chain_app_inv {A} (R : A -> A -> Prop) l1 a l2 :
  chain R (l1 ++ a :: l2) -> chain R (l1 ++ [a]) ∧ chain R (a :: l2).
Proof.
  induction l1 as [|b l1 IH]; simpl; intros H.
  - split; [constructor|done].
  - destruct l1 as [|c l1]; simpl in *.
    + inversion H; subst. split; [|done]. constructor; [done|constructor].
    + inversion H; subst. destruct (IH H4) as [H5 H6].
      split; [|done]. by constructor.
Qed.

Lemma chain_app {A} (R : A -> A -> Prop) l1 a l2 :
  chain R (l1 ++ [a]) -> chain R (a :: l2) -> chain R (l1 ++ a :: l2).
Proof.
  induction l1 as [|b l1 IH]; simpl; intros H1 H2; [done|].
  destruct l1 as [|c l1]; simpl in *.
  - inversion H1; subst. by constructor.
  - inversion H1; subst. constructor; [done|]. by apply IH.
Qed.

Lemma chain_mono {A} (R R' : A -> A -> Prop) l :
  (∀ a b, a ∈ l -> b ∈ l -> R a b -> R' a b) -> chain R l -> chain R' l.
Proof.
  intros H Hc. induction Hc as [|a|a b l Hab Hc IH]; try constructor.
  - apply H; [by left|by right; left|done].
  - apply IH. intros x y Hx Hy. apply H; by right.
Qed.

Lemma chain_tail_target {A} (R : A -> A -> Prop) a l b :
  chain R (a :: l) -> b ∈ l -> ∃ c, R c b.
Proof.
  revert a. induction l as [|c l IH]; intros a Hc Hb.
  - by apply not_elem_of_nil in Hb.
  - inversion Hc; subst. apply elem_of_cons in Hb as [->|Hb]; eauto.
Qed.

(** *** Steps lead to cells of the grid *)

Lemma foldM_invariant {A B} (P : B -> Prop) (f : B -> A -> result B) l :
  (∀ b a b', P b -> f b a = Ok b' -> P b') ->
  ∀ b r, P b -> foldM f b l = Ok r -> P r.
Proof.
  intros Hf. induction l as [|a l IH]; intros b r Hb; simpl.
  - by intros [= <-].
  - destruct (f b a) as [b'|e] eqn:E; simpl; [|done]. eauto.
Qed.

Lemma step_move m a b : step m a b -> ∃ d, b = move a d ∧ inb m b.
Proof.
  intros (l & Hl & Hb). revert b Hb.
  apply Forall_forall. revert Hl.
  unfold Maze._get_connected_neighbors.
  apply foldM_invariant; [|constructor].
  intros acc d acc' Hacc.
  destruct (Direction.value d) as [dx dy] eqn:Ed.
  destruct (Maze.in_bounds m _ _) eqn:E; [|by intros [= <-]].
  destruct (grid_get _ _ _); simpl; [|done].
  destruct (negb _); intros [= <-]; [|done].
  apply Forall_app. split; [done|]. constructor; [|constructor].
  exists d. split.
  - unfold move. by rewrite Ed.
  - by apply in_bounds_spec.
Qed.

Lemma step_target_inb m a b : step m a b -> inb m b.
Proof. intros Hs. by apply step_move in Hs as (d & _ & Hb). Qed.

Lemma cycle_inb m c p : cycle m c -> p ∈ c -> inb m p.
Proof.
  intros (a & c' & -> & _ & _ & Hch) Hp. simpl in Hch.
  assert (Hp' : p ∈ c' ++ [a]).
  { apply elem_of_app. apply elem_of_cons in Hp as [->|Hp];
      [right; by left|by left]. }
  destruct (chain_tail_target _ _ _ _ Hch Hp') as [q Hq].
  by eapply step_target_inb.
Qed.

(** *** Rotating a cycle *)

Lemma cycle_rotate m c p :
  cycle m c -> p ∈ c -> ∃ c', cycle m (p :: c') ∧ c' ++ [p] ≡ₚ c.
Proof.
  intros (a & c0 & -> & Hlen & Hnd & Hch) Hp.
  apply elem_of_cons in Hp as [->|Hp].
  { exists c0. split.
    - exists a, c0. done.
    - by rewrite <- Permutation_cons_append. }
  apply list_elem_of_split in Hp as (l1 & l2 & ->).
  assert (Hperm : (l2 ++ a :: l1) ++ [p] ≡ₚ a :: l1 ++ p :: l2).
  { rewrite <- app_assoc. simpl.
    rewrite (Permutation_app_comm l2 (a :: l1 ++ [p])). simpl.
    by rewrite <- app_assoc. }
  exists (l2 ++ a :: l1). split; [|done].
  exists p, (l2 ++ a :: l1). split; [done|]. split.
  { rewrite length_app in *. simpl in *. lia. }
  split.
  { rewrite (Permutation_cons_append (l2 ++ a :: l1) p), Hperm. done. }
  simpl in Hch. rewrite <- app_assoc in Hch. simpl in Hch.
  change (a :: l1 ++ p :: l2 ++ [a]) with ((a :: l1) ++ p :: l2 ++ [a]) in Hch.
  apply chain_app_inv in Hch as [H1 H2].
  replace ((p :: l2 ++ a :: l1) ++ [p]) with ((p :: l2) ++ a :: l1 ++ [p])
    by (simpl; by rewrite <- app_assoc).
  by apply chain_app.
Qed.

(** *** Carving keeps the invariant *)

Section carve.
Context (m m' : Maze.t) (u : Z * Z) (d : Direction.t) (stack : list (Z * Z)).
Hypothesis Hinv : gen_inv m stack.
Hypothesis Hcarved : carved m m' u d.
Hypothesis Hu : u ∈ stack.
Hypothesis Hv : inb m (move u d).
Hypothesis Hfresh : visited_at m (move u d) = false.

Local Lemma carve_inb p : inb m' p ↔ inb m p.
Proof.
  unfold inb. by rewrite (carved_width Hcarved),
    (carved_height Hcarved).
Qed.

Local Lemma carve_in_bounds x y : Maze.in_bounds m' x y = Maze.in_bounds m x y.
Proof.
  unfold Maze.in_bounds. by rewrite (carved_width Hcarved),
    (carved_height Hcarved).
Qed.

Local Lemma carve_u : inb m u ∧ visited_at m u = true.
Proof.
  pose proof (gi_stack Hinv) as HF. rewrite Forall_forall in HF. auto.
Qed.

Local Lemma carve_wall_before : has_wall_at m u d = true.
Proof.
  destruct carve_u as [Hiu _].
  destruct (has_wall_at m u d) eqn:E; [done|].
  destruct (gi_open Hinv u d Hiu Hv E) as [_ H]. congruence.
Qed.

Local Lemma carve_wall_before' :
  has_wall_at m (move u d) (Direction.opposite d) = true.
Proof.
  destruct carve_u as [Hiu _].
  rewrite <- (gi_sym Hinv u d Hiu Hv). apply carve_wall_before.
Qed.

Local Lemma carve_visited_mono p :
  inb m p -> visited_at m p = true -> visited_at m' p = true.
Proof.
  intros Hp Hvp. rewrite (carved_visited Hcarved) by done.
  by destruct (decide _).
Qed.

Local Lemma carve_step a b :
  inb m a ->
  step m' a b ↔
  step m a b ∨ (a = u ∧ b = move u d) ∨ (a = move u d ∧ b = u).
Proof.
  intros Ha. destruct carve_u as [Hiu _].
  pose proof (gi_shape Hinv) as Hsh.
  pose proof (carved_shape Hcarved) as Hsh'.
  rewrite <- (carved_width Hcarved),
    <- (carved_height Hcarved) in Hsh'.
  rewrite (step_spec m' a b Hsh') by (by apply carve_inb).
  rewrite (step_spec m a b Hsh Ha). split.
  - intros (e & -> & Hb & Hw). apply carve_inb in Hb.
    rewrite (carved_wall Hcarved) in Hw by done.
    destruct (decide _) as [[[= -> ->]|[= -> ->]]|_].
    + right. left. done.
    + right. right. by rewrite move_opposite.
    + left. eauto.
  - intros [(e & -> & Hb & Hw)|[[-> ->]|[-> ->]]].
    + exists e. split; [done|]. split; [by apply carve_inb|].
      rewrite (carved_wall Hcarved) by done.
      by destruct (decide _).
    + exists d. split; [done|]. split; [by apply carve_inb|].
      rewrite (carved_wall Hcarved) by done.
      rewrite decide_True; [done|by left].
    + exists (Direction.opposite d). rewrite move_opposite.
      split; [done|]. split; [by apply carve_inb|].
      rewrite (carved_wall Hcarved) by done.
      rewrite decide_True; [done|by right].
Qed.

Local Lemma carve_reach_mono a b :
  inb m a -> reachable m a b -> reachable m' a b.
Proof.
  intros Ha Hr. induction Hr as [a|a b c Hab Hbc IH]; [constructor|].
  econstructor.
  - apply carve_step; [done|]. by left.
  - apply IH. eapply step_inb; [apply (gi_shape Hinv)|done..].
Qed.

Local Lemma carve_sym : symmetric_walls m'.
Proof.
  intros p e Hp Hq. apply carve_inb in Hp, Hq.
  rewrite !(carved_wall Hcarved) by done.
  destruct (decide ((p, e) = (u, d) ∨ _)) as [[[= -> ->]|[= -> ->]]|Hn].
  - rewrite decide_True; [done|by right].
  - rewrite decide_True; [done|]. left.
    by rewrite move_opposite, opposite_involutive.
  - rewrite decide_False; [by apply (gi_sym Hinv)|].
    intros [E|E]; apply pair_equal_spec in E as [E1 E2]; apply Hn.
    + right. subst u d. by rewrite move_opposite, opposite_involutive.
    + left. assert (e = d) as -> by (by destruct e, d).
      by apply move_inj_l in E1 as ->.
Qed.

Local Lemma carve_open p e :
  inb m' p -> inb m' (move p e) -> has_wall_at m' p e = false ->
  visited_at m' p = true ∧ visited_at m' (move p e) = true.
Proof.
  intros Hp Hq Hw. apply carve_inb in Hp, Hq. destruct carve_u as [Hiu Hvu].
  rewrite (carved_wall Hcarved) in Hw by done.
  rewrite !(carved_visited Hcarved) by done.
  destruct (decide ((p, e) = (u, d) ∨ _)) as [[[= -> ->]|[= -> ->]]|Hn].
  - split; [by destruct (decide _)|by rewrite decide_True].
  - rewrite move_opposite. split; [by rewrite decide_True|].
    by destruct (decide _).
  - destruct (gi_open Hinv p e Hp Hq Hw) as [-> ->].
    by repeat destruct (decide _).
Qed.

Local Lemma carve_edges : length (edges m') = S (length (edges m)).
Proof.
  destruct carve_u as [Hiu Hvu].
  unfold edges.
  assert (all_cells m' = all_cells m) as ->.
  { unfold all_cells. by rewrite (carved_width Hcarved),
      (carved_height Hcarved). }
  set (e0 := if decide (d = Direction.EAST ∨ d = Direction.SOUTH)
             then (u, d) else (move u d, Direction.opposite d)).
  assert (He0 : inb m e0.1 ∧
                (e0.2 = Direction.EAST ∨ e0.2 = Direction.SOUTH) ∧
                inb m (move e0.1 e0.2) ∧
                has_wall_at m e0.1 e0.2 = true ∧
                (e0 = (u, d) ∨ e0 = (move u d, Direction.opposite d))).
  { unfold e0. destruct (decide _) as [Hd|Hd]; simpl.
    - split; [done|]. split; [done|]. split; [done|].
      split; [apply carve_wall_before|by left].
    - split; [done|]. split; [destruct d; tauto|].
      rewrite move_opposite. split; [done|].
      split; [apply carve_wall_before'|by right]. }
  destruct He0 as (Hi0 & Hd0 & Hm0 & Hw0 & Hcase).
  apply (length_filter_flip _ _ _ e0).
  - apply NoDup_list_prod; [apply NoDup_all_cells|].
    repeat constructor; rewrite ?elem_of_cons, ?elem_of_nil; intros H;
      repeat destruct H as [H|H]; done.
  - destruct e0 as [p0 d0]. simpl in *.
    apply list_elem_of_In, in_prod_iff. split.
    + by apply list_elem_of_In, elem_of_all_cells.
    + destruct Hd0 as [-> | ->]; simpl; auto.
  - unfold is_edge. rewrite Hw0. apply andb_false_r.
  - unfold is_edge. rewrite carve_in_bounds.
    assert (Maze.in_bounds m (move e0.1 e0.2).1 (move e0.1 e0.2).2 = true) as ->.
    { apply in_bounds_spec. by destruct (move e0.1 e0.2). }
    rewrite (carved_wall Hcarved) by done.
    rewrite decide_True; [done|]. destruct e0; simpl. done.
  - intros [p e] Hpe Hne.
    apply list_elem_of_In, in_prod_iff in Hpe as [Hp He].
    apply list_elem_of_In, elem_of_all_cells in Hp.
    unfold is_edge. simpl. rewrite carve_in_bounds. f_equal. f_equal.
    rewrite (carved_wall Hcarved) by done.
    rewrite decide_False; [done|].
    intros Hc. apply Hne. clear Hne.
    assert (He' : e = Direction.EAST ∨ e = Direction.SOUTH).
    { simpl in He. destruct He as [<-|[<-|[]]]; auto. }
    destruct Hcase as [E0|E0]; rewrite E0 in *; simpl in *.
    + destruct Hc as [Hc|[= _ ->]]; [done|].
      destruct d; destruct He' as [?|?]; destruct Hd0 as [?|?]; done.
    + destruct Hc as [[= _ ->]|Hc]; [|done].
      destruct d; destruct He' as [?|?]; destruct Hd0 as [?|?]; done.
Qed.

Local Lemma carve_visited_count : visited_count m' = S (visited_count m).
Proof.
  unfold visited_count.
  assert (all_cells m' = all_cells m) as ->.
  { unfold all_cells. by rewrite (carved_width Hcarved),
      (carved_height Hcarved). }
  apply (length_filter_flip _ _ _ (move u d)).
  - apply NoDup_all_cells.
  - by apply elem_of_all_cells.
  - done.
  - rewrite (carved_visited Hcarved) by done.
    by rewrite decide_True.
  - intros p Hp Hne. apply elem_of_all_cells in Hp.
    rewrite (carved_visited Hcarved) by done.
    by rewrite decide_False.
Qed.

Local Lemma carve_acyclic : acyclic m'.
Proof.
  intros c Hc. destruct carve_u as [Hiu Hvu].
  assert (Hnov : ∀ a b, inb m a -> step m a b ->
                        a ≠ move u d ∧ b ≠ move u d).
  { intros a b Ha Hs.
    apply (step_spec _ _ _ (gi_shape Hinv) Ha) in Hs as (e & -> & Hb & Hw).
    destruct (gi_open Hinv a e Ha Hb Hw) as [H1 H2].
    split; intros E; rewrite E in *; congruence. }
  destruct (decide (move u d ∈ c)) as [Hin|Hnin].
  - destruct (cycle_rotate _ _ _ Hc Hin) as (c' & Hc' & _).
    pose proof (fun p => cycle_inb _ _ p Hc') as Hvi.
    destruct Hc' as (a & c0 & [= <- <-] & Hlen & Hnd & Hch).
    destruct c' as [|x c']; [simpl in Hlen; lia|].
    simpl in Hch. inversion Hch as [| |? ? ? Hs1 Hch1]; subst.
    apply carve_step in Hs1; [|apply carve_inb, Hvi; by left].
    assert (x = u) as ->.
    { destruct Hs1 as [Hs1|[[E _]|[_ ->]]]; [|by apply move_ne in E|done].
      by destruct (Hnov _ _ Hv Hs1). }
    destruct c' as [|y c' _] using rev_ind; [simpl in Hlen; lia|].
    rewrite <- app_assoc in Hch1. simpl in Hch1.
    rewrite app_comm_cons in Hch1.
    apply chain_app_inv in Hch1 as [_ Hlast].
    inversion Hlast as [| |? ? ? Hs2 _]; subst.
    assert (Hy : inb m y).
    { apply carve_inb, Hvi. rewrite !elem_of_cons, elem_of_app.
      right. right. right. by left. }
    apply carve_step in Hs2; [|done].
    assert (y = u) as ->.
    { destruct Hs2 as [Hs2|[[-> _]|[_ E]]]; [|done|by apply move_ne in E].
      by destruct (Hnov _ _ Hy Hs2). }
    apply NoDup_cons in Hnd as [_ Hnd]. apply NoDup_cons in Hnd as [Hnd _].
    apply Hnd. apply elem_of_app. right. by left.
  - apply (gi_acyclic Hinv c).
    pose proof (fun p => cycle_inb _ _ p Hc) as Hci.
    destruct Hc as (a & c0 & -> & Hlen & Hnd & Hch).
    exists a, c0. split; [done|]. split; [done|]. split; [done|].
    eapply chain_mono; [|exact Hch].
    intros x y Hx Hy Hs.
    assert (Hxc : x ∈ a :: c0).
    { rewrite elem_of_app, list_elem_of_singleton in Hx.
      destruct Hx as [Hx| ->]; [done|by left]. }
    assert (Hyc : y ∈ a :: c0).
    { rewrite elem_of_app, list_elem_of_singleton in Hy.
      destruct Hy as [Hy| ->]; [done|by left]. }
    apply carve_step in Hs; [|by apply carve_inb, Hci].
    destruct Hs as [Hs|[[_ ->]|[-> _]]]; done.
Qed.

Lemma carve_inv : gen_inv m' (stack ++ [move u d]).
Proof.
  destruct carve_u as [Hiu Hvu].
  pose proof (gi_root Hinv) as [Hr1 Hr2].
  split.
  - rewrite (carved_width Hcarved), (carved_height Hcarved).
    apply (carved_shape Hcarved).
  - apply Forall_app. split.
    + pose proof (gi_stack Hinv) as HF.
      eapply Forall_impl; [exact HF|]. intros p [Hp Hvp].
      split; [by apply carve_inb|by apply carve_visited_mono].
    + constructor; [|constructor]. split; [by apply carve_inb|].
      rewrite (carved_visited Hcarved) by done.
      by rewrite decide_True.
  - split; [by apply carve_inb|by apply carve_visited_mono].
  - apply carve_sym.
  - apply carve_open.
  - intros p e Hp Hvp Hns Hq. apply carve_inb in Hp, Hq.
    apply not_elem_of_app in Hns as [Hns Hnv].
    rewrite list_elem_of_singleton in Hnv.
    rewrite (carved_visited Hcarved) in Hvp by done.
    rewrite decide_False in Hvp by done.
    apply carve_visited_mono; [done|].
    by apply (gi_closed Hinv).
  - intros p Hp Hvp. apply carve_inb in Hp.
    rewrite (carved_visited Hcarved) in Hvp by done.
    destruct (decide (p = move u d)) as [->|Hne].
    + apply (rtc_r _ u).
      * apply carve_reach_mono; [exact Hr1|]. by apply (gi_reach Hinv).
      * apply carve_step; [done|]. right. by left.
    + apply carve_reach_mono; [exact Hr1|]. by apply (gi_reach Hinv).
  - rewrite carve_edges, carve_visited_count. f_equal.
    apply (gi_count Hinv).
  - apply carve_acyclic.
  - intros p Hp. apply carve_inb in Hp.
    destruct (carved_flags Hcarved p Hp) as [-> ->].
    by apply (gi_flags Hinv).
Qed.

Lemma carve_measure : visited_count m' = S (visited_count m).
Proof. apply carve_visited_count. Qed.
End carve.

(** *** Backtracking keeps the invariant *)

Lemma pop_inv m rest u :
  gen_inv m (rest ++ [u]) ->
  (∀ q, q ∈ Maze._get_neighbors m u.1 u.2 -> visited_at m q = true) ->
  gen_inv m rest.
Proof.
  intros Hinv Hall.
  destruct Hinv as [Hsh Hst Hroot Hsym Hopen Hclosed Hreach Hcount Hacyc Hfl].
  split; try done.
  - by apply Forall_app in Hst as [? _].
  - intros p d Hp Hvp Hns Hq.
    destruct (decide (p = u)) as [->|Hne].
    + apply Hall, elem_of_get_neighbors. eauto.
    + apply Hclosed; try done.
      rewrite elem_of_app, list_elem_of_singleton. tauto.
Qed.

(** *** The invariant holds when the loop is entered *)

Lemma shape_fresh_cells w h : shape w h (fresh_cells w h).
Proof.
  unfold fresh_cells, range. split.
  - by rewrite length_fmap, length_seqZ.
  - apply Forall_fmap, Forall_forall. intros x _. simpl.
    by rewrite length_fmap, length_seqZ.
Qed.

Lemma cell_of_fresh_cells w h p :
  0 <= p.1 < w -> 0 <= p.2 < h ->
  cell_of (fresh_cells w h) p = Cell.__init__ p.1 p.2.
Proof.
  intros Hx Hy. unfold cell_of, grid_get, py_index, fresh_cells, range.
  rewrite length_fmap, length_seqZ, py_norm_inrange by lia.
  rewrite list_lookup_fmap, lookup_seqZ_lt by lia. simpl.
  rewrite length_fmap, length_seqZ, py_norm_inrange by lia.
  rewrite list_lookup_fmap, lookup_seqZ_lt by lia. simpl.
  do 2 f_equal; lia.
Qed.

Lemma length_filter_none {A} (P : A -> bool) (l : list A) :
  (∀ a, a ∈ l -> P a = false) -> length (List.filter P l) = 0%nat.
Proof.
  induction l as [|a l IH]; intros H; simpl; [done|].
  rewrite (H a) by left. apply IH. intros; apply H; by right.
Qed.

Lemma no_wall_no_cycle m :
  shape (Maze.width m) (Maze.height m) (Maze.cells m) ->
  (∀ p d, inb m p -> has_wall_at m p d = true) -> acyclic m.
Proof.
  intros Hsh Hw c Hc.
  pose proof (fun p => cycle_inb _ _ p Hc) as Hin.
  destruct Hc as (a & c' & -> & Hlen & _ & Hch).
  destruct c' as [|b c']; [simpl in Hlen; lia|].
  simpl in Hch. inversion Hch as [| |? ? ? Hs _]; subst.
  apply step_spec in Hs as (d & _ & _ & Hd); [|done|apply Hin; by left].
  rewrite Hw in Hd; [done|]. apply Hin. by left.
Qed.

Lemma gen_inv_init m cs0 :
  0 < Maze.width m -> 0 < Maze.height m ->
  Maze.cells m = fresh_cells (Maze.width m) (Maze.height m) ->
  grid_update (Maze.cells m) 0 0 (fun c => Cell.set_visited c true) = Ok cs0 ->
  gen_inv (Maze.set_cells m cs0) [(0, 0)].
Proof.
  intros Hw Hh Hcells Hupd.
  pose proof (shape_fresh_cells (Maze.width m) (Maze.height m)) as Hsh.
  rewrite <- Hcells in Hsh.
  destruct (grid_update_ok _ _ _ Hsh 0 0 (fun c => Cell.set_visited c true))
    as (cs0' & E & Hsh0 & H00 & Hother); [lia..|].
  rewrite Hupd in E. injection E as <-.
  set (m1 := Maze.set_cells m cs0).
  assert (Hcell : ∀ p, inb m1 p ->
            cell_of (Maze.cells m1) p =
            if decide (p = (0, 0)) then Cell.set_visited (Cell.__init__ 0 0) true
            else Cell.__init__ p.1 p.2).
  { intros p [Hp1 Hp2]. simpl in *. destruct (decide (p = (0, 0))) as [->|Hne].
    - rewrite H00, Hcells. rewrite cell_of_fresh_cells; simpl; [done|lia..].
    - rewrite Hother by done. rewrite Hcells.
      by rewrite cell_of_fresh_cells. }
  assert (Hwall : ∀ p d, inb m1 p -> has_wall_at m1 p d = true).
  { intros p d Hp. unfold has_wall_at. rewrite Hcell by done.
    destruct (decide _); by destruct d. }
  assert (Hvis : ∀ p, inb m1 p ->
            visited_at m1 p = if decide (p = (0, 0)) then true else false).
  { intros p Hp. unfold visited_at. rewrite Hcell by done.
    by destruct (decide _). }
  assert (H0 : inb m1 (0, 0)) by (unfold inb; simpl; lia).
  split.
  - done.
  - constructor; [|constructor]. split; [done|]. by rewrite Hvis.
  - split; [done|]. by rewrite Hvis.
  - intros p d Hp Hq. by rewrite !Hwall.
  - intros p d Hp Hq Hd. rewrite Hwall in Hd; done.
  - intros p d Hp Hvp Hns. rewrite Hvis in Hvp by done.
    destruct (decide _) as [->|]; [|done]. exfalso. apply Hns. by left.
  - intros p Hp Hvp. rewrite Hvis in Hvp by done.
    destruct (decide _) as [->|]; [|done]. constructor.
  - unfold edges, visited_count.
    rewrite length_filter_none.
    + symmetry.
      rewrite (length_filter_flip (fun _ => false) _ _ (0, 0)).
      * f_equal. by apply length_filter_none.
      * apply NoDup_all_cells.
      * by apply elem_of_all_cells.
      * done.
      * by rewrite Hvis.
      * intros p Hp Hne. apply elem_of_all_cells in Hp.
        rewrite Hvis by done. by rewrite decide_False.
    + intros [p d] Hpd.
      apply list_elem_of_In, in_prod_iff in Hpd as [Hp _].
      apply list_elem_of_In, elem_of_all_cells in Hp.
      unfold is_edge. simpl. rewrite Hwall by done. apply andb_false_r.
  - by apply no_wall_no_cycle.
  - intros p Hp. rewrite Hcell by done. by destruct (decide _).
Qed.

(** *** The loop runs to completion *)

Lemma generate_loop_ok rnd fuel : ∀ k m stack,
  gen_inv m stack -> (gen_measure m stack <= fuel)%nat ->
  ∃ m', Maze.generate_loop fuel rnd k m stack = Ok m' ∧ gen_inv m' [] ∧
        Maze.width m' = Maze.width m ∧ Maze.height m' = Maze.height m ∧
        Maze.start m' = Maze.start m ∧ Maze.end_ m' = Maze.end_ m ∧
        Maze.cell_size m' = Maze.cell_size m.
Proof.
  induction fuel as [|fuel IH]; intros k m stack Hinv Hfuel.
  - destruct stack as [|p stack].
    + exists m. by simpl.
    + unfold gen_measure in Hfuel. simpl in Hfuel. lia.
  - destruct (pop_last stack) as [[[x y] rest]|] eqn:Epop.
    + apply pop_last_Some in Epop as ->.
      simpl. rewrite pop_last_snoc.
      pose proof (gi_shape Hinv) as Hsh.
      pose proof (gi_stack Hinv) as Hst.
      apply Forall_app in Hst as [_ Hst].
      apply Forall_singleton in Hst as [Hu Hvu].
      rewrite (grid_get_ok _ _ _ Hsh) by apply Hu. simpl.
      rewrite unvisited_neighbors_eq by done. simpl.
      destruct (Maze._get_neighbors m x y ≫= _) as [|q l] eqn:El.
      * apply IH.
        -- eapply pop_inv; [done|]. intros q Hq. simpl in Hq.
           destruct (visited_at m q) eqn:E; [done|].
           assert (Hq' : q ∈ @nil (Z * Z)).
           { rewrite <- El. by apply elem_of_unvisited. }
           by apply not_elem_of_nil in Hq'.
        -- unfold gen_measure in *. rewrite length_app in Hfuel.
           simpl in Hfuel. lia.
      * destruct (choice_ok rnd k (q :: l)) as ([nx ny] & -> & Hv); [done|].
        simpl. rewrite <- El in Hv.
        apply elem_of_unvisited in Hv as [Hv Hfresh].
        change x with (x, y).1 in Hv. change y with (x, y).2 in Hv at 2.
        apply elem_of_get_neighbors in Hv as (d & Hvd & Hvin).
        rewrite (grid_get_ok _ _ _ Hsh) by apply Hvin. simpl.
        pose proof (of_value_move (x, y) d) as Hdir.
        rewrite <- Hvd in Hdir. simpl in Hdir. rewrite Hdir. simpl.
        rewrite Hvd in Hvin, Hfresh.
        destruct (carve_ok m (x, y) d Hsh Hu Hvin)
          as (cs1 & cs2 & cs3 & E1 & E2 & E3 & Hcarved).
        rewrite <- Hvd in E2, E3. simpl in E1, E2, E3.
        rewrite E1. simpl. rewrite E2. simpl. rewrite E3. simpl.
        rewrite Hvd.
        assert (Hin : (x, y) ∈ rest ++ [(x, y)]).
        { apply elem_of_app. right. by left. }
        destruct (IH (S k) (Maze.set_cells m cs3)
                    ((rest ++ [(x, y)]) ++ [move (x, y) d]))
          as (m' & Em' & Hinv' & Hframe).
        -- by eapply carve_inv.
        -- assert (Hvc : visited_count (Maze.set_cells m cs3) =
                          S (visited_count m))
             by (eapply carve_measure; eauto).
           unfold gen_measure in *.
           assert (Hall : all_cells (Maze.set_cells m cs3) = all_cells m) by done.
           rewrite Hall, Hvc.
           pose proof (length_filter_le (visited_at (Maze.set_cells m cs3))
                         (all_cells m)) as Hle.
           fold (visited_count (Maze.set_cells m cs3)) in Hle.
           unfold visited_count in Hle, Hvc. rewrite Hall in Hvc.
           rewrite !length_app in *. simpl in *.
           unfold visited_count in *. lia.
        -- exists m'. split; [done|]. split; [done|]. exact Hframe.
    + apply pop_last_None in Epop as ->.
      exists m. by simpl.
Qed.

(** *** Mazes with the same walls have the same graph *)

Section same_walls.
Context (m m' : Maze.t).
Hypothesis Hsame : same_walls m m'.

Lemma same_walls_inb p : inb m' p ↔ inb m p.
Proof. destruct Hsame as (Hw & Hh & _). unfold inb. by rewrite Hw, Hh. Qed.

Lemma same_walls_step a b : inb m a -> step m' a b ↔ step m a b.
Proof.
  intros Ha. destruct Hsame as (Hw & Hh & Hsh & Hsh' & Hwalls).
  rewrite <- Hw, <- Hh in Hsh'.
  rewrite (step_spec m' a b Hsh') by (by apply same_walls_inb).
  rewrite (step_spec m a b Hsh Ha).
  split; intros (d & -> & Hb & Hd); exists d; (split; [done|]).
  - split; [by apply same_walls_inb|]. by rewrite <- Hwalls.
  - split; [by apply same_walls_inb|]. by rewrite Hwalls.
Qed.

Lemma same_walls_reachable a b :
  inb m a -> reachable m a b -> reachable m' a b.
Proof.
  destruct Hsame as (_ & _ & Hsh & _).
  intros Ha Hr. induction Hr as [a|a b c Hab Hbc IH]; [constructor|].
  econstructor; [by apply same_walls_step|].
  apply IH. by eapply step_inb.
Qed.

Lemma same_walls_connected : connected m -> connected m'.
Proof.
  intros Hc a b Ha Hb. apply same_walls_inb in Ha, Hb.
  apply same_walls_reachable; auto.
Qed.

Lemma same_walls_symmetric : symmetric_walls m -> symmetric_walls m'.
Proof.
  destruct Hsame as (_ & _ & _ & _ & Hwalls).
  intros Hs p d Hp Hq. apply same_walls_inb in Hp, Hq.
  rewrite !Hwalls by done. by apply Hs.
Qed.

Lemma same_walls_acyclic : acyclic m -> acyclic m'.
Proof.
  intros Hac c Hc. apply (Hac c).
  pose proof (fun p => cycle_inb _ _ p Hc) as Hin.
  destruct Hc as (a & c' & -> & Hlen & Hnd & Hch).
  exists a, c'. split; [done|]. split; [done|]. split; [done|].
  eapply chain_mono; [|exact Hch].
  intros x y Hx _ Hs. apply same_walls_step; [|done].
  apply same_walls_inb, Hin.
  rewrite elem_of_app, list_elem_of_singleton in Hx.
  destruct Hx as [Hx| ->]; [done|by left].
Qed.

Lemma same_walls_edges : edges m' = edges m.
Proof.
  destruct Hsame as (Hw & Hh & _ & _ & Hwalls).
  unfold edges.
  assert (all_cells m' = all_cells m) as ->.
  { unfold all_cells. by rewrite Hw, Hh. }
  apply filter_ext_in. intros [p d] Hpd.
  apply in_prod_iff in Hpd as [Hp _].
  apply list_elem_of_In, elem_of_all_cells in Hp.
  unfold is_edge, Maze.in_bounds. simpl. by rewrite Hw, Hh, Hwalls.
Qed.
End same_walls.

(** *** A finished generation has visited every cell *)

Lemma gen_inv_all_visited m p :
  gen_inv m [] -> inb m p -> visited_at m p = true.
Proof.
  intros Hinv. destruct (gi_root Hinv) as [H0 Hv0].
  assert (H : ∀ n : nat, ∀ p, inb m p -> Z.to_nat (p.1 + p.2) = n ->
                              visited_at m p = true).
  { clear p. induction n as [|n IH]; intros [x y] Hp Hn;
      pose proof Hp as [Hx Hy]; simpl in *.
    - assert (x = 0) as -> by lia. assert (y = 0) as -> by lia. done.
    - destruct (decide (0 < x)) as [Hpos|Hzero].
      + assert (Hq : inb m (x - 1, y)) by (unfold inb; simpl; lia).
        replace (x, y) with (move (x - 1, y) Direction.EAST)
          by (unfold move; simpl; f_equal; lia).
        apply (gi_closed Hinv); [done| |apply not_elem_of_nil|].
        * apply IH; [done|simpl; lia].
        * unfold move. simpl. unfold inb. simpl. lia.
      + assert (Hq : inb m (x, y - 1)) by (unfold inb; simpl; lia).
        replace (x, y) with (move (x, y - 1) Direction.SOUTH)
          by (unfold move; simpl; f_equal; lia).
        apply (gi_closed Hinv); [done| |apply not_elem_of_nil|].
        * apply IH; [done|simpl; lia].
        * unfold move. simpl. unfold inb. simpl. lia. }
  intros Hp. by eapply H.
Qed.

Lemma step_symmetric m a b :
  shape (Maze.width m) (Maze.height m) (Maze.cells m) ->
  symmetric_walls m -> inb m a -> step m a b -> step m b a.
Proof.
  intros Hsh Hsym Ha Hs.
  apply (step_spec _ _ _ Hsh Ha) in Hs as (d & -> & Hb & Hd).
  apply (step_spec _ _ _ Hsh Hb). exists (Direction.opposite d).
  rewrite move_opposite. split; [done|]. split; [done|].
  by rewrite <- Hsym.
Qed.

Lemma reachable_symmetric m a b :
  shape (Maze.width m) (Maze.height m) (Maze.cells m) ->
  symmetric_walls m -> inb m a -> reachable m a b -> reachable m b a.
Proof.
  intros Hsh Hsym Ha Hr. induction Hr as [a|a b c Hab Hbc IH]; [constructor|].
  eapply rtc_r.
  - apply IH. by eapply step_inb.
  - by apply step_symmetric.
Qed.

Lemma gen_inv_connected m : gen_inv m [] -> connected m.
Proof.
  intros Hinv a b Ha Hb. destruct (gi_root Hinv) as [H0 _].
  pose proof (gi_shape Hinv) as Hsh.
  pose proof (gi_sym Hinv) as Hsym.
  apply (@rtc_trans _ (step m) a (0, 0) b).
  - apply reachable_symmetric; try done.
    apply (gi_reach Hinv); [done|]. by apply gen_inv_all_visited.
  - apply (gi_reach Hinv); [done|]. by apply gen_inv_all_visited.
Qed.

Lemma gen_inv_edges m :
  0 <= Maze.width m -> 0 <= Maze.height m ->
  gen_inv m [] ->
  Z.of_nat (length (edges m)) = Maze.width m * Maze.height m - 1.
Proof.
  intros Hw Hh Hinv. pose proof (gi_count Hinv) as Hc.
  unfold visited_count in Hc.
  rewrite length_filter_all in Hc.
  - rewrite length_all_cells in Hc by done. lia.
  - intros p Hp. apply gen_inv_all_visited; [done|].
    by apply elem_of_all_cells.
Qed.

(** *** What the constructor returns *)

Lemma init_generated rnd w h cs :
  0 < w -> 0 < h -> ∃ m, Maze.__init__ rnd w h cs = Ok m ∧ generated w h cs m.
Proof.
  intros Hw Hh. unfold Maze.__init__, Maze._generate_maze.
  set (m0 := {| Maze.width := w; Maze.height := h; Maze.cell_size := cs;
                Maze.cells := _; Maze.start := (0, 0);
                Maze.end_ := (w - 1, h - 1) |}).
  pose proof (shape_fresh_cells w h) as Hsh0.
  destruct (grid_update_ok _ _ _ Hsh0 0 0 (fun c => Cell.set_visited c true))
    as (cs0 & E0 & _); [lia..|].
  change (Maze.cells m0) with (fresh_cells w h). rewrite E0. simpl.
  assert (Hinv0 : gen_inv (Maze.set_cells m0 cs0) [(0, 0)]).
  { apply gen_inv_init; simpl; done. }
  destruct (generate_loop_ok rnd (Maze.generate_fuel m0) 0
              (Maze.set_cells m0 cs0) [(0, 0)] Hinv0)
    as (m1 & E1 & Hinv1 & Hw1 & Hh1 & Hs1 & He1 & Hc1).
  { unfold gen_measure, Maze.generate_fuel. simpl.
    rewrite <- (gi_count Hinv0).
    change (all_cells (Maze.set_cells m0 cs0)) with (all_cells m0).
    rewrite length_all_cells by (simpl; lia). simpl.
    assert (0 < w * h) by lia. lia. }
  rewrite E1. simpl in *.
  pose proof (gi_shape Hinv1) as Hsh1. rewrite Hs1, He1. simpl.
  destruct (grid_update_ok _ _ _ Hsh1 0 0 (fun c => Cell.set_is_start c true))
    as (cs2 & E2 & Hsh2 & H2a & H2b); [lia..|].
  rewrite E2. simpl.
  destruct (grid_update_ok _ _ _ Hsh2 (w - 1) (h - 1)
              (fun c => Cell.set_is_end c true))
    as (cs3 & E3 & Hsh3 & H3a & H3b); [lia..|].
  rewrite E3. simpl.
  exists (Maze.set_cells m1 cs3). split; [done|].
  assert (Hcell : ∀ p, inb m1 p ->
    cell_of cs3 p =
    (if decide (p = (w - 1, h - 1)) then fun c => Cell.set_is_end c true
     else fun c => c)
      ((if decide (p = (0, 0)) then fun c => Cell.set_is_start c true
        else fun c => c) (cell_of (Maze.cells m1) p))).
  { intros p [Hp1 Hp2]. rewrite Hw1, Hh1 in *.
    destruct (decide (p = (w - 1, h - 1))) as [->|Hne1].
    - rewrite H3a. f_equal.
      destruct (decide ((w - 1, h - 1) = (0, 0))) as [E|Hne2].
      + by rewrite E, H2a.
      + by rewrite H2b.
    - rewrite H3b by done.
      destruct (decide (p = (0, 0))) as [->|Hne2]; [done|].
      by rewrite H2b. }
  assert (Hsame : same_walls m1 (Maze.set_cells m1 cs3)).
  { split; [done|]. split; [done|]. split; [done|]. split; [done|].
    intros p d Hp. unfold has_wall_at. simpl. rewrite Hcell by done.
    by repeat destruct (decide _). }
  split; simpl; try done.
  - by rewrite <- Hw1, <- Hh1.
  - by apply (same_walls_symmetric _ _ Hsame), (gi_sym Hinv1).
  - by apply (same_walls_connected _ _ Hsame), gen_inv_connected.
  - by apply (same_walls_acyclic _ _ Hsame), (gi_acyclic Hinv1).
  - rewrite (same_walls_edges _ _ Hsame). rewrite <- Hw1, <- Hh1.
    apply gen_inv_edges; [lia..|done].
  - intros p Hp. apply (same_walls_inb _ _ Hsame) in Hp.
    rewrite Hcell by done.
    destruct (gi_flags Hinv1 p Hp) as [Hf1 Hf2].
    destruct (decide (p = (w - 1, h - 1))); destruct (decide (p = (0, 0)));
      simpl; rewrite ?Hf1; symmetry;
      (by apply bool_decide_eq_true_2) || (by apply bool_decide_eq_false_2).
  - intros p Hp. apply (same_walls_inb _ _ Hsame) in Hp.
    rewrite Hcell by done.
    destruct (gi_flags Hinv1 p Hp) as [Hf1 Hf2].
    destruct (decide (p = (w - 1, h - 1))); destruct (decide (p = (0, 0)));
      simpl; rewrite ?Hf2; symmetry;
      (by apply bool_decide_eq_true_2) || (by apply bool_decide_eq_false_2).
Qed.

(** ** Paths *)

Lemma chain_snoc {A} (R : A -> A -> Prop) l a b :
  chain R (l ++ [a]) -> R a b -> chain R (l ++ [a; b]).
Proof.
  intros H1 H2. apply chain_app; [done|]. constructor; [done|constructor].
Qed.

Lemma path_singleton m a : path m a a [a].
Proof. split; [done|]. split; [done|]. constructor. Qed.

Lemma path_snoc m a b c p :
  path m a b p -> step m b c -> path m a c (p ++ [c]).
Proof.
  intros (Hh & Hl & Hc) Hs.
  apply last_Some in Hl as [p' ->]. split; [|split].
  - destruct p'; simpl in *; done.
  - by rewrite last_snoc.
  - rewrite <- app_assoc. simpl. by apply chain_snoc.
Qed.

Lemma chain_rtc {A} (R : A -> A -> Prop) a l b :
  chain R (a :: l) -> last (a :: l) = Some b -> rtc R a b.
Proof.
  revert a. induction l as [|c l IH]; intros a Hc Hl.
  - simpl in Hl. injection Hl as <-. constructor.
  - inversion Hc; subst. econstructor; [done|]. apply IH; [done|].
    by rewrite last_cons_cons in Hl.
Qed.

Lemma path_reachable m a b p : path m a b p -> reachable m a b.
Proof.
  intros (Hh & Hl & Hc). destruct p as [|a' p]; [done|].
  injection Hh as ->. by eapply chain_rtc.
Qed.

Lemma reachable_path m a b : reachable m a b -> ∃ p, path m a b p.
Proof.
  induction 1 as [a|a b c Hab Hbc (p & Hh & Hl & Hc)].
  - exists [a]. apply path_singleton.
  - exists (a :: p). destruct p as [|b' p]; [done|].
    injection Hh as ->. split; [done|]. split.
    + by rewrite last_cons_cons.
    + by constructor.
Qed.

Lemma path_nonempty m a b p : path m a b p -> p ≠ [].
Proof. intros (Hh & _) ->. done. Qed.

(** ** Breadth-first and depth-first search *)

Lemma pop_first_spec : pop_spec pop_first.
Proof.
  split.
  - by intros [|??].
  - intros [|e' l] e r; simpl; [done|]. intros [= -> ->]. reflexivity.
Qed.

Lemma pop_last_spec : pop_spec pop_last.
Proof.
  split.
  - apply @pop_last_None.
  - intros l e r H. apply pop_last_Some in H as ->.
    symmetry. apply Permutation_cons_append.
Qed.

Lemma path_last_elem m a b p : path m a b p -> b ∈ p.
Proof.
  intros (_ & Hl & _). apply last_Some in Hl as [p' ->].
  apply elem_of_app. right. by left.
Qed.

Lemma search_inv_node m Q V v p :
  search_inv m Q V -> (v, p) ∈ Q -> v ∈ V.
Proof.
  intros Hinv Hin. destruct (si_entries Hinv v p Hin) as (Hp & _ & Hsub).
  apply Hsub. by eapply path_last_elem.
Qed.

(** The effect of the [for] loop on the frontier and the visited set. *)
Lemma fold_visit path nbrs : ∀ Q V Q' V',
  fold_left (Maze.visit path) nbrs (Q, V) = (Q', V') ->
  ∃ new,
    Q' = Q ++ new ∧ V' = V ∪ list_to_set nbrs ∧
    (∀ e, e ∈ new -> ∃ n, e = (n, path ++ [n]) ∧ n ∈ nbrs ∧ n ∉ V) ∧
    NoDup new.*1 ∧
    (∀ n, n ∈ nbrs -> n ∉ V -> n ∈ new.*1) ∧
    size V' = (size V + length new)%nat.
Proof.
  induction nbrs as [|n nbrs IH]; intros Q V Q' V'; simpl.
  - intros [= <- <-]. exists []. rewrite app_nil_r.
    split; [done|]. split.
    { apply set_eq. intros x. rewrite elem_of_union, elem_of_empty. tauto. }
    split; [by intros ? ?%not_elem_of_nil|].
    split; [constructor|]. split; [by intros ? ?%not_elem_of_nil|]. simpl. lia.
  - destruct (decide (n ∈ V)) as [Hn|Hn].
    + intros H. apply IH in H as (new & -> & -> & Hnew & Hnd & Hall & Hsz).
      exists new. split; [done|]. split.
      { apply set_eq. intros x.
        rewrite !elem_of_union, elem_of_singleton.
        split; [tauto|]. intros [?|[->|?]]; tauto. }
      split.
      { intros e He. destruct (Hnew e He) as (n' & -> & ? & ?).
        exists n'. split; [done|]. split; [by right|done]. }
      split; [done|]. split; [|done].
      intros n' Hn' Hn'V. apply Hall; [|done].
      apply elem_of_cons in Hn' as [->|Hn']; done.
    + intros H. apply IH in H as (new & -> & -> & Hnew & Hnd & Hall & Hsz).
      exists ((n, path ++ [n]) :: new). split.
      { by rewrite <- app_assoc. }
      split.
      { apply set_eq. intros x.
        rewrite !elem_of_union, elem_of_singleton. tauto. }
      split.
      { intros e He. apply elem_of_cons in He as [->|He].
        - exists n. split; [done|]. split; [by left|done].
        - destruct (Hnew e He) as (n' & -> & ? & HnV).
          exists n'. split; [done|]. split; [by right|].
          intros Hn'. apply HnV, elem_of_union. by right. }
      split.
      { simpl. constructor; [|done]. intros Hin.
        apply list_elem_of_fmap in Hin as ([n' p'] & Heq & Hin).
        simpl in Heq. subst n'.
        destruct (Hnew _ Hin) as (n' & [= -> _] & _ & HnV).
        apply HnV, elem_of_union. left. by apply elem_of_singleton. }
      split.
      { intros n' Hn' Hn'V. simpl.
        destruct (decide (n' = n)) as [->|Hne]; [by left|]. right.
        apply Hall; [|rewrite elem_of_union, elem_of_singleton; tauto].
        apply elem_of_cons in Hn' as [->|Hn']; done. }
      rewrite Hsz. rewrite size_union by (by apply disjoint_singleton_l).
      rewrite size_singleton. simpl. lia.
Qed.

Lemma size_visited_le (m : Maze.t) (V : gset (Z * Z)) :
  (∀ v, v ∈ V -> inb m v) -> (size V <= length (all_cells m))%nat.
Proof.
  intros HV.
  rewrite <- (size_list_to_set (C := gset (Z * Z)) (all_cells m))
    by apply NoDup_all_cells.
  apply subseteq_size. intros v Hv.
  apply elem_of_list_to_set, elem_of_all_cells. auto.
Qed.

Lemma step_connected_of m a b :
  shape (Maze.width m) (Maze.height m) (Maze.cells m) -> inb m a ->
  step m a b ↔ b ∈ connected_of m a.
Proof.
  intros Hsh Ha. rewrite elem_of_connected_of. by apply step_spec.
Qed.

Section search.
Context (m : Maze.t)
  (pop : list ((Z * Z) * list (Z * Z)) ->
         option (((Z * Z) * list (Z * Z)) * list ((Z * Z) * list (Z * Z)))).
Hypothesis Hwf : well_formed m.
Hypothesis Hpop : pop_spec pop.

Lemma search_inv_init :
  search_inv m [(Maze.start m, [Maze.start m])] {[Maze.start m]}.
Proof using Hwf.
  destruct Hwf as [Hsh Hst]. split.
  - intros v p Hin. apply list_elem_of_singleton in Hin as [= -> ->].
    split; [apply path_singleton|]. split.
    + apply NoDup_singleton.
    + intros x Hx. apply list_elem_of_singleton in Hx as ->.
      by apply elem_of_singleton.
  - intros v Hv. apply elem_of_singleton in Hv as ->. done.
  - intros c w Hc Hnc. exfalso. apply Hnc.
    apply elem_of_singleton in Hc as ->. simpl. by left.
  - intros He. apply elem_of_singleton in He as ->. simpl. by left.
  - by apply elem_of_singleton.
  - simpl. apply NoDup_singleton.
Qed.

Lemma search_inv_step Q V v pv rest Q' V' :
  search_inv m Q V ->
  pop Q = Some ((v, pv), rest) ->
  v ≠ Maze.end_ m ->
  fold_left (Maze.visit pv) (connected_of m v) (rest, V) = (Q', V') ->
  search_inv m Q' V' ∧
  (S (search_measure m Q' V') <= search_measure m Q V)%nat.
Proof.
  intros Hinv Hp Hne Hfold. destruct Hwf as [Hsh Hst].
  destruct Hpop as [_ Hperm]. apply Hperm in Hp.
  apply fold_visit in Hfold as (new & -> & -> & Hnew & Hnd & Hall & Hsz).
  assert (HvQ : (v, pv) ∈ Q) by (rewrite Hp; by left).
  assert (HrQ : ∀ e, e ∈ rest -> e ∈ Q) by (intros e He; rewrite Hp; by right).
  pose proof (search_inv_node _ _ _ _ _ Hinv HvQ) as HvV.
  pose proof (si_inb Hinv v HvV) as Hvin.
  destruct (si_entries Hinv v pv HvQ) as (Hpv & Hndpv & Hsubpv).
  assert (Hnodes : Q.*1 ≡ₚ v :: rest.*1) by (by rewrite Hp).
  pose proof (si_nodup Hinv) as HndQ. rewrite Hnodes in HndQ.
  apply NoDup_cons in HndQ as [Hvrest Hndrest].
  assert (Hinv' : search_inv m (rest ++ new)
                    (V ∪ list_to_set (connected_of m v))).
  { split.
    - intros x p Hin. apply elem_of_app in Hin as [Hin|Hin].
      + destruct (si_entries Hinv x p (HrQ _ Hin)) as (? & ? & Hsub).
        split; [done|]. split; [done|].
        intros y Hy. apply elem_of_union. left. auto.
      + destruct (Hnew _ Hin) as (n & [= -> ->] & Hn & HnV).
        split; [|split].
        * eapply path_snoc; [done|]. by apply step_connected_of.
        * apply NoDup_app. split; [done|]. split; [|apply NoDup_singleton].
          intros y Hy Hy'. apply list_elem_of_singleton in Hy' as ->. auto.
        * intros y Hy. apply elem_of_app in Hy as [Hy|Hy].
          -- apply elem_of_union. left. auto.
          -- apply list_elem_of_singleton in Hy as ->.
             apply elem_of_union. right. by apply elem_of_list_to_set.
    - intros x Hx. apply elem_of_union in Hx as [Hx|Hx].
      + by apply (si_inb Hinv).
      + apply elem_of_list_to_set, elem_of_connected_of in Hx
          as (d & -> & ? & _). done.
    - intros c w Hc Hnc Hs. rewrite fmap_app, elem_of_app in Hnc.
      apply elem_of_union in Hc as [Hc|Hc].
      + destruct (decide (c = v)) as [->|Hcv].
        * apply elem_of_union. right. apply elem_of_list_to_set.
          by apply step_connected_of.
        * apply elem_of_union. left.
          apply (si_closed Hinv c w); [done| |done].
          rewrite Hnodes, elem_of_cons. tauto.
      + apply elem_of_list_to_set in Hc.
        destruct (decide (c ∈ V)) as [HcV|HcV].
        * destruct (decide (c = v)) as [->|Hcv].
          -- apply elem_of_union. right. apply elem_of_list_to_set.
             by apply step_connected_of.
          -- apply elem_of_union. left.
             apply (si_closed Hinv c w); [done| |done].
             rewrite Hnodes, elem_of_cons. tauto.
        * exfalso. apply Hnc. right. by apply Hall.
    - intros He. rewrite fmap_app, elem_of_app.
      destruct (decide (Maze.end_ m ∈ V)) as [HeV|HeV].
      + left. pose proof (si_end Hinv HeV) as HeQ.
        rewrite Hnodes in HeQ. apply elem_of_cons in HeQ as [E|HeQ]; [|done].
        by rewrite E in Hne.
      + right. apply Hall; [|done].
        apply elem_of_union in He as [He|He]; [done|].
        by apply elem_of_list_to_set in He.
    - apply elem_of_union. left. apply (si_start Hinv).
    - rewrite fmap_app. apply NoDup_app. split; [done|]. split; [|done].
      intros x Hx Hx'.
      apply list_elem_of_fmap in Hx as ([x1 p1] & -> & Hx).
      apply list_elem_of_fmap in Hx' as ([x2 p2] & Heq & Hx').
      simpl in Heq. subst x2.
      destruct (Hnew _ Hx') as (n & [= -> _] & _ & HnV).
      apply HnV. eapply search_inv_node; [done|]. by apply HrQ. }
  split; [done|].
  pose proof (size_visited_le m _ (si_inb Hinv')) as Hle.
  unfold search_measure. rewrite Hsz in *.
  apply Permutation_length in Hp. rewrite length_app. simpl in Hp. lia.
Qed.

Lemma search_exhausted V :
  search_inv m [] V -> ¬ reachable m (Maze.start m) (Maze.end_ m).
Proof.
  intros Hinv Hr.
  assert (H : ∀ a b, reachable m a b -> a ∈ V -> b ∈ V).
  { intros a b Hab. induction Hab as [|a b c Hs _ IH]; [done|].
    intros Ha. apply IH. eapply (si_closed Hinv); [done| |done].
    simpl. apply not_elem_of_nil. }
  pose proof (H _ _ Hr (si_start Hinv)) as He.
  apply (si_end Hinv) in He. simpl in He. by apply not_elem_of_nil in He.
Qed.

(** An additional invariant, kept by every iteration. *)
Context (J : list ((Z * Z) * list (Z * Z)) -> gset (Z * Z) -> Prop).
Hypothesis J_step : ∀ Q V v pv rest Q' V',
  search_inv m Q V -> J Q V ->
  pop Q = Some ((v, pv), rest) -> v ≠ Maze.end_ m ->
  fold_left (Maze.visit pv) (connected_of m v) (rest, V) = (Q', V') ->
  J Q' V'.

Lemma search_loop_ok fuel : ∀ Q V,
  search_inv m Q V -> J Q V -> (search_measure m Q V <= fuel)%nat ->
  ∃ p, Maze.search_loop pop fuel m Q V = Ok p ∧
       ((p = [] ∧ ¬ reachable m (Maze.start m) (Maze.end_ m)) ∨
        (∃ Qf Vf rest, search_inv m Qf Vf ∧ J Qf Vf ∧
                       pop Qf = Some ((Maze.end_ m, p), rest))).
Proof.
  induction fuel as [|fuel IH]; intros Q V Hinv HJ Hfuel.
  - destruct (pop Q) as [[[[x y] pv] rest]|] eqn:Ep.
    + simpl. rewrite Ep. destruct (decide ((x, y) = Maze.end_ m)) as [E|Hne].
      * exists pv. split; [done|]. right. exists Q, V, rest. by rewrite <- E.
      * destruct Hpop as [_ Hperm]. apply Hperm, Permutation_length in Ep.
        unfold search_measure in Hfuel. simpl in Ep. lia.
    + simpl. rewrite Ep. exists []. split; [done|]. left. split; [done|].
      destruct Hpop as [Hnil _]. apply Hnil in Ep as ->.
      by eapply search_exhausted.
  - destruct (pop Q) as [[[[x y] pv] rest]|] eqn:Ep.
    + simpl. rewrite Ep. destruct (decide ((x, y) = Maze.end_ m)) as [E|Hne].
      * exists pv. split; [done|]. right. exists Q, V, rest. by rewrite <- E.
      * assert (HvQ : ((x, y), pv) ∈ Q).
        { destruct Hpop as [_ Hperm]. rewrite (Hperm _ _ _ Ep). by left. }
        pose proof (search_inv_node _ _ _ _ _ Hinv HvQ) as HvV.
        pose proof (si_inb Hinv _ HvV) as Hvin.
        destruct Hwf as [Hsh _].
        pose proof (get_connected_neighbors_eq m (x, y) Hsh Hvin) as Hcn.
        simpl in Hcn. rewrite Hcn. simpl.
        destruct (fold_left _ _ _) as [Q' V'] eqn:Efold.
        destruct (search_inv_step _ _ _ _ _ _ _ Hinv Ep Hne Efold)
          as [Hinv' Hm].
        apply IH; [done| |lia].
        eapply (J_step Q V (x, y) pv rest); eauto.
    + simpl. rewrite Ep. exists []. split; [done|]. left. split; [done|].
      destruct Hpop as [Hnil _]. apply Hnil in Ep as ->.
      by eapply search_exhausted.
Qed.
End search.

(** ** Breadth-first search returns a shortest path *)

Lemma StronglySorted_app_2 {A} (R : A -> A -> Prop) l1 l2 :
  StronglySorted R l1 -> StronglySorted R l2 ->
  (∀ x y, x ∈ l1 -> y ∈ l2 -> R x y) -> StronglySorted R (l1 ++ l2).
Proof.
  intros H1 H2 H. induction H1 as [|a l1 H1 IH Ha]; simpl; [done|].
  constructor.
  - apply IH. intros x y Hx Hy. apply H; [by right|done].
  - apply Forall_app. split; [done|].
    apply Forall_forall. intros y Hy. apply H; [by left|done].
Qed.

Lemma StronglySorted_same {A} (R : A -> A -> Prop) l :
  (∀ x y, x ∈ l -> y ∈ l -> R x y) -> StronglySorted R l.
Proof.
  induction l as [|a l IH]; intros H; constructor.
  - apply IH. intros x y Hx Hy. apply H; by right.
  - apply Forall_forall. intros y Hy. apply H; [by left|by right].
Qed.

Section bfs.
Context (m : Maze.t).
Hypothesis Hwf : well_formed m.

Lemma bfs_inv_init :
  bfs_inv m [(Maze.start m, [Maze.start m])] {[Maze.start m]}.
Proof.
  split.
  - constructor; [constructor|constructor].
  - intros e1 e2 H1 H2. apply list_elem_of_singleton in H1 as ->.
    apply list_elem_of_singleton in H2 as ->. simpl. lia.
  - intros q u (Hh & _ & _) _. destruct q as [|a q]; [done|].
    injection Hh as ->. exists [], (Maze.start m), q, [Maze.start m].
    split; [done|]. split; [by left|]. simpl. lia.
Qed.

(** A path that leaves an expanded cell meets the queue later on. *)
Lemma front_extend Q V k u : 
  search_inv m Q V ->
  (∀ e, e ∈ Q -> (length e.2 <= S k)%nat) ->
  (u ∈ V -> u ∈ Q.*1) ->
  ∀ q2 q1 x,
    chain (step m) (x :: q2) -> last (x :: q2) = Some u ->
    x ∈ V -> x ∉ Q.*1 -> (k <= S (length q1))%nat ->
    ∃ q1' x' q2' p, q1 ++ x :: q2 = q1' ++ x' :: q2' ∧ (x', p) ∈ Q ∧
                    (length p <= S (length q1'))%nat.
Proof.
  intros Hinv Hlen Hu. induction q2 as [|y q2 IH]; intros q1 x Hch Hl HxV HxQ Hk.
  - simpl in Hl. injection Hl as ->. tauto.
  - inversion Hch as [| |? ? ? Hs Hch']; subst.
    rewrite last_cons_cons in Hl.
    pose proof (si_closed Hinv x y HxV HxQ Hs) as HyV.
    destruct (decide (y ∈ Q.*1)) as [HyQ|HyQ].
    + apply list_elem_of_fmap in HyQ as ([y' py] & -> & HyQ). simpl in *.
      exists (q1 ++ [x]), y', q2, py. split; [by rewrite <- app_assoc|].
      split; [done|]. rewrite length_app. simpl.
      specialize (Hlen _ HyQ). simpl in Hlen. lia.
    + destruct (IH (q1 ++ [x]) y Hch' Hl HyV HyQ)
        as (q1' & x' & q2' & p & E & Hin & Hp).
      { rewrite length_app. simpl. lia. }
      exists q1', x', q2', p. split; [|done].
      rewrite <- E, <- app_assoc. done.
Qed.

Lemma bfs_inv_step Q V v pv rest Q' V' :
  search_inv m Q V -> bfs_inv m Q V ->
  pop_first Q = Some ((v, pv), rest) -> v ≠ Maze.end_ m ->
  fold_left (Maze.visit pv) (connected_of m v) (rest, V) = (Q', V') ->
  bfs_inv m Q' V'.
Proof.
  intros Hinv Hb Hp Hne Hfold.
  destruct (search_inv_step m pop_first Hwf pop_first_spec
              _ _ _ _ _ _ _ Hinv Hp Hne Hfold) as [Hinv' _].
  destruct Q as [|e Q0]; [done|]. simpl in Hp. injection Hp as -> ->.
  apply fold_visit in Hfold as (new & -> & -> & Hnew & Hnd & Hall & Hsz).
  destruct Hb as [Hsorted Hspread Hfront].
  apply StronglySorted_inv in Hsorted as [Hsorted Hhead].
  rewrite Forall_forall in Hhead.
  assert (Hnewlen : ∀ e, e ∈ new -> length e.2 = S (length pv)).
  { intros e He. destruct (Hnew e He) as (n & -> & _). simpl.
    rewrite length_app. simpl. lia. }
  assert (Hrestlen : ∀ e, e ∈ rest ->
            (length pv <= length e.2 <= S (length pv))%nat).
  { intros e He. split.
    - apply (Hhead e He).
    - apply (Hspread (v, pv) e); [by left|by right]. }
  split.
  - apply StronglySorted_app_2; [done| |].
    + apply StronglySorted_same. intros x y Hx Hy. unfold shorter.
      rewrite (Hnewlen x Hx), (Hnewlen y Hy). lia.
    + intros x y Hx Hy. unfold shorter. rewrite (Hnewlen y Hy).
      apply (Hrestlen x Hx).
  - intros e1 e2 H1 H2.
    apply elem_of_app in H1 as [H1|H1]; apply elem_of_app in H2 as [H2|H2].
    + apply Hspread; by right.
    + rewrite (Hnewlen e2 H2). pose proof (Hrestlen e1 H1). lia.
    + rewrite (Hnewlen e1 H1). pose proof (Hrestlen e2 H2). lia.
    + rewrite (Hnewlen e1 H1), (Hnewlen e2 H2). lia.
  - intros q u Hq Hu.
    assert (HvV : v ∈ V).
    { eapply search_inv_node; [done|]. by left. }
    pose proof (si_nodup Hinv) as HndQ. simpl in HndQ.
    apply NoDup_cons in HndQ as [Hvrest _].
    assert (Hnewfresh : ∀ x, x ∈ new.*1 -> x ∉ V).
    { intros x Hx. apply list_elem_of_fmap in Hx as (e & -> & He).
      destruct (Hnew e He) as (n & -> & _ & HnV). done. }
    destruct (Hfront q u Hq) as (q1 & x & q2 & p & -> & Hin & Hlen).
    { intros HuV. simpl.
      assert (HuV' : u ∈ V ∪ list_to_set (connected_of m v))
        by (apply elem_of_union; by left).
      apply Hu in HuV'. rewrite fmap_app, elem_of_app in HuV'.
      destruct HuV' as [H|H]; [by right|]. by apply Hnewfresh in H. }
    apply elem_of_cons in Hin as [[= -> ->]|Hin].
    + destruct Hq as (_ & Hl & Hch).
      apply chain_app_inv in Hch as [_ Hch].
      rewrite last_app_cons in Hl.
      apply (front_extend _ _ (length pv) u Hinv').
      * intros e He. apply elem_of_app in He as [He|He].
        -- apply (Hrestlen e He).
        -- rewrite (Hnewlen e He). lia.
      * exact Hu.
      * exact Hch.
      * exact Hl.
      * apply elem_of_union. by left.
      * rewrite fmap_app, elem_of_app. intros [H|H]; [done|].
        by apply Hnewfresh in H.
      * exact Hlen.
    + exists q1, x, q2, p. split; [done|]. split; [|done].
      apply elem_of_app. by left.
Qed.
End bfs.

(** ** What [solve_bfs] and [solve_dfs] return *)

Lemma search_fuel_enough m :
  well_formed m ->
  (search_measure m [(Maze.start m, [Maze.start m])] {[Maze.start m]}
   <= Maze.search_fuel m)%nat.
Proof.
  intros [_ [Hx Hy]]. unfold search_measure, Maze.search_fuel.
  rewrite size_singleton. rewrite length_all_cells; [|lia..].
  simpl length.
  assert (0 < Maze.width m * Maze.height m) by nia. lia.
Qed.

Lemma search_found m pop Q V p rest :
  pop_spec pop -> search_inv m Q V ->
  pop Q = Some ((Maze.end_ m, p), rest) ->
  path m (Maze.start m) (Maze.end_ m) p ∧ NoDup p.
Proof.
  intros [_ Hperm] Hinv Hp. apply Hperm in Hp.
  destruct (si_entries Hinv (Maze.end_ m) p) as (? & ? & _); [|done].
  rewrite Hp. by left.
Qed.

Lemma solve_dfs_ok m :
  well_formed m -> ∃ p, Maze.solve_dfs m = Ok p ∧ search_result m p.
Proof.
  intros Hwf.
  destruct (search_loop_ok m pop_last Hwf pop_last_spec (fun _ _ => True)
              (fun _ _ _ _ _ _ _ _ _ _ _ _ => I) (Maze.search_fuel m)
              [(Maze.start m, [Maze.start m])] {[Maze.start m]})
    as (p & E & Hres).
  - by apply search_inv_init.
  - done.
  - by apply search_fuel_enough.
  - exists p. split; [done|].
    destruct Hres as [[-> Hn]|(Qf & Vf & rest & Hinv & _ & Hp)].
    + by left.
    + right. eapply search_found; [apply pop_last_spec|done..].
Qed.

Lemma solve_bfs_ok m :
  well_formed m ->
  ∃ p, Maze.solve_bfs m = Ok p ∧ search_result m p ∧
       ∀ q, path m (Maze.start m) (Maze.end_ m) q ->
            (length p <= length q)%nat.
Proof.
  intros Hwf.
  destruct (search_loop_ok m pop_first Hwf pop_first_spec (bfs_inv m)
              (bfs_inv_step m Hwf) (Maze.search_fuel m)
              [(Maze.start m, [Maze.start m])] {[Maze.start m]})
    as (p & E & Hres).
  - by apply search_inv_init.
  - apply bfs_inv_init.
  - by apply search_fuel_enough.
  - exists p. split; [done|].
    destruct Hres as [[-> Hn]|(Qf & Vf & rest & Hinv & Hb & Hp)].
    + split; [by left|]. intros q _. simpl. lia.
    + split.
      { right. eapply search_found; [apply pop_first_spec|done..]. }
      intros q Hq. destruct Qf as [|e Qf]; [done|].
      simpl in Hp. injection Hp as -> ->.
      destruct (bi_front Hb q (Maze.end_ m) Hq)
        as (q1 & x & q2 & p' & -> & Hin & Hlen).
      { intros _. simpl. by left. }
      pose proof (bi_sorted Hb) as Hs.
      apply StronglySorted_inv in Hs as [_ Hhead].
      rewrite Forall_forall in Hhead.
      rewrite length_app. simpl.
      apply elem_of_cons in Hin as [[= -> ->]|Hin]; [lia|].
      specialize (Hhead _ Hin). unfold shorter in Hhead. simpl in Hhead. lia.
Qed.

(** ** The heap *)

Lemma entry_le_spec a b :
  Maze.entry_le a b = true ↔
  a.1 < b.1 ∨ (a.1 = b.1 ∧ (a.2.1 < b.2.1 ∨ (a.2.1 = b.2.1 ∧ a.2.2 <= b.2.2))).
Proof.
  unfold Maze.entry_le.
  rewrite !orb_true_iff, !andb_true_iff, !orb_true_iff, !andb_true_iff.
  rewrite !Z.ltb_lt, !Z.eqb_eq, Z.leb_le. tauto.
Qed.

Lemma entry_le_refl a : Maze.entry_le a a = true.
Proof. apply entry_le_spec. lia. Qed.

Lemma entry_le_trans a b c :
  Maze.entry_le a b = true -> Maze.entry_le b c = true ->
  Maze.entry_le a c = true.
Proof. rewrite !entry_le_spec. lia. Qed.

Lemma entry_le_total a b :
  Maze.entry_le a b = false -> Maze.entry_le b a = true.
Proof.
  intros H. apply entry_le_spec.
  destruct (Maze.entry_le a b) eqn:E; [done|].
  assert (Hn : ¬ (a.1 < b.1 ∨ (a.1 = b.1 ∧
             (a.2.1 < b.2.1 ∨ (a.2.1 = b.2.1 ∧ a.2.2 <= b.2.2))))).
  { rewrite <- entry_le_spec. congruence. }
  lia.
Qed.

Lemma entry_le_key a b : Maze.entry_le a b = true -> a.1 <= b.1.
Proof. rewrite entry_le_spec. lia. Qed.

Lemma heap_min_spec heap : ∀ e,
  Maze.heap_min e heap ∈ e :: heap ∧
  ∀ x, x ∈ e :: heap -> Maze.entry_le (Maze.heap_min e heap) x = true.
Proof.
  induction heap as [|e' heap IH]; intros e; simpl.
  - split; [by left|]. intros x Hx. apply list_elem_of_singleton in Hx as ->.
    apply entry_le_refl.
  - destruct (IH (if Maze.entry_le e e' then e else e')) as [Hin Hmin].
    split.
    + apply elem_of_cons in Hin as [Hin|Hin].
      * rewrite Hin. destruct (Maze.entry_le e e'); [by left|by right; left].
      * by right; right.
    + intros x Hx.
      destruct (Maze.entry_le e e') eqn:E.
      * apply elem_of_cons in Hx as [->|Hx]; [apply Hmin; by left|].
        apply elem_of_cons in Hx as [->|Hx]; [|apply Hmin; by right].
        eapply entry_le_trans; [|exact E]. apply Hmin. by left.
      * apply elem_of_cons in Hx as [->|Hx].
        -- eapply entry_le_trans; [|by apply entry_le_total].
           apply Hmin. by left.
        -- apply elem_of_cons in Hx as [->|Hx]; apply Hmin; [by left|by right].
Qed.

Lemma elem_of_remove_one e heap x :
  x ∈ Maze.remove_one e heap -> x ∈ heap.
Proof.
  induction heap as [|e' heap IH]; simpl; [done|].
  destruct (decide (e = e')); [by right|].
  intros Hx. apply elem_of_cons in Hx as [->|Hx]; [by left|right; auto].
Qed.

Lemma elem_of_remove_one_ne e heap x :
  x ∈ heap -> x ≠ e -> x ∈ Maze.remove_one e heap.
Proof.
  intros Hx Hne. induction heap as [|e' heap IH]; simpl; [done|].
  apply elem_of_cons in Hx as [->|Hx].
  - destruct (decide (e = e')); [done|by left].
  - destruct (decide (e = e')); [done|]. right. auto.
Qed.

Lemma length_remove_one e heap :
  e ∈ heap -> S (length (Maze.remove_one e heap)) = length heap.
Proof.
  induction heap as [|e' heap IH]; intros He; simpl.
  - by apply not_elem_of_nil in He.
  - destruct (decide (e = e')) as [->|Hne]; [done|].
    apply elem_of_cons in He as [->|He]; [done|]. simpl. by rewrite IH.
Qed.

Lemma heappop_None heap : Maze.heappop heap = None -> heap = [].
Proof. by destruct heap. Qed.

Lemma heappop_Some heap e heap' :
  Maze.heappop heap = Some (e, heap') ->
  e ∈ heap ∧ heap' = Maze.remove_one e heap ∧
  ∀ x, x ∈ heap -> e.1 <= x.1.
Proof.
  destruct heap as [|e0 heap]; [done|]. unfold Maze.heappop.
  intros [= <- <-]. destruct (heap_min_spec heap e0) as [Hin Hmin].
  split; [done|]. split; [done|].
  intros x Hx. by apply entry_le_key, Hmin.
Qed.

(** ** The heuristic *)

Lemma heuristic_step m a b e :
  step m a b -> Maze.heuristic a e <= 1 + Maze.heuristic b e.
Proof.
  intros Hs. apply step_move in Hs as (d & -> & _).
  destruct a as [x y], e as [ex ey]. unfold Maze.heuristic, move.
  destruct d; simpl; lia.
Qed.

Lemma heuristic_self e : Maze.heuristic e e = 0.
Proof. unfold Maze.heuristic. lia. Qed.

Lemma heuristic_nonneg a e : 0 <= Maze.heuristic a e.
Proof. unfold Maze.heuristic. lia. Qed.

(** The heuristic never exceeds the number of steps left on a path. *)
Lemma heuristic_chain m e l : ∀ a,
  chain (step m) (a :: l) -> last (a :: l) = Some e ->
  Maze.heuristic a e <= Z.of_nat (length l).
Proof.
  induction l as [|b l IH]; intros a Hch Hl.
  - simpl in Hl. injection Hl as ->. rewrite heuristic_self. simpl. lia.
  - inversion Hch as [| |? ? ? Hs Hch']; subst.
    rewrite last_cons_cons in Hl. specialize (IH b Hch' Hl).
    pose proof (heuristic_step m a b e Hs). simpl length. lia.
Qed.

(** ** A-star: the [for neighbor] loop *)

Lemma sum_list_flip {A} (f f' : A -> nat) (l : list A) (a : A) :
  NoDup l -> a ∈ l -> (f' a < f a)%nat ->
  (∀ b, b ∈ l -> b ≠ a -> f' b = f b) ->
  (S (sum_list_with f' l) <= sum_list_with f l)%nat.
Proof.
  intros Hnd. induction Hnd as [|b l Hb Hnd IH]; intros Ha Hlt Hext.
  - by apply not_elem_of_nil in Ha.
  - simpl. apply elem_of_cons in Ha as [->|Ha].
    + assert (sum_list_with f' l = sum_list_with f l) as ->; [|lia].
      clear IH Hnd. induction l as [|c l IH]; simpl; [done|].
      rewrite (Hext c); [|right; by left|].
      * f_equal. apply IH.
        -- intros Hin. apply Hb. by right.
        -- intros x Hx. apply Hext. apply elem_of_cons in Hx as [->|Hx];
             [by left|right; by right].
      * intros ->. apply Hb. by left.
    + rewrite (Hext b); [|by left|by intros ->].
      assert (S (sum_list_with f' l) <= sum_list_with f l)%nat; [|lia].
      apply IH; [done..|]. intros c Hc. apply Hext. by right.
Qed.

Lemma score_size (m : Maze.t) (g : gmap (Z * Z) Z) :
  (∀ v c, g !! v = Some c -> inb m v) ->
  (size g <= length (all_cells m))%nat.
Proof.
  intros H. rewrite <- size_dom. apply size_visited_le.
  intros v Hv. apply elem_of_dom in Hv as [c Hc]. eauto.
Qed.

Section relax.
Context (m : Maze.t).
Hypothesis Hwf : well_formed m.

Lemma relax_ok cur done st n :
  relax_inv m cur done st -> step m cur n ->
  ∃ st', Maze.relax m cur st n = Ok st' ∧
         relax_inv m cur (n :: done) st' ∧
         (astar_measure m st' <= astar_measure m st)%nat.
Proof.
  intros (Hinv & Hset & c & Hc & Hdone) Hs.
  destruct (step_move _ _ _ Hs) as (d & Hnd & Hnin).
  assert (Hncur : n ≠ cur) by (rewrite Hnd; apply move_ne).
  destruct (ai_score Hinv cur c Hc) as (Hcin & Hc0 & Hcsz).
  unfold Maze.relax, Maze.dict_get. rewrite Hc. simpl.
  set (t := c + 1).
  destruct (match Maze.g_score st !! n with
            | Some gn => t <? gn | None => true end) eqn:Ebetter; simpl.
  2:{ exists st. split; [done|]. split; [|done].
      split; [done|]. split; [done|]. exists c. split; [done|].
      intros w Hw. apply elem_of_cons in Hw as [->|Hw]; [|auto].
      destruct (Maze.g_score st !! n) as [gn|]; [|done].
      exists gn. split; [done|]. apply Z.ltb_ge in Ebetter. unfold t in *. lia. }
  assert (Hold : match Maze.g_score st !! n with
                 | Some gn => t < gn | None => True end).
  { destruct (Maze.g_score st !! n); [by apply Z.ltb_lt|done]. }
  clear Ebetter.
  assert (Hnstart : n ≠ Maze.start m).
  { intros ->. rewrite (ai_start Hinv) in Hold. unfold t in *. lia. }
  set (st' := {| Maze.open_set := _; Maze.came_from := _;
                 Maze.g_score := _; Maze.f_score := _ |}).
  exists st'. split; [done|].
  assert (Hsize : (size (Maze.g_score st) <= size (Maze.g_score st'))%nat ∧
                  (Maze.g_score st !! n = None ->
                   size (Maze.g_score st') = S (size (Maze.g_score st)))).
  { simpl. rewrite map_size_insert.
    destruct (Maze.g_score st !! n); simpl; split; try done; lia. }
  destruct Hsize as [Hsz1 Hsz2].
  assert (Hg' : ∀ v, Maze.g_score st' !! v =
                     if decide (n = v) then Some t else Maze.g_score st !! v).
  { intros v. simpl. by rewrite lookup_insert. }
  assert (Hle : ∀ v cv, Maze.g_score st !! v = Some cv ->
                ∃ cv', Maze.g_score st' !! v = Some cv' ∧ cv' <= cv).
  { intros v cv Hv. rewrite Hg'. destruct (decide (n = v)) as [<-|].
    - exists t. split; [done|]. rewrite Hv in Hold. lia.
    - exists cv. split; [done|lia]. }
  assert (Hinv' : astar_inv m st').
  { split.
    - rewrite Hg'. rewrite decide_False by done. apply (ai_start Hinv).
    - simpl. rewrite lookup_insert_ne by done. apply (ai_start_root Hinv).
    - intros v cv. rewrite Hg'. destruct (decide (n = v)) as [<-|Hne].
      + intros [= <-]. split; [done|]. split; [unfold t; lia|].
        destruct (Maze.g_score st !! n) as [gn|] eqn:En.
        * destruct (ai_score Hinv n gn En) as (_ & _ & ?). lia.
        * rewrite Hsz2 by done. unfold t. lia.
      + intros Hv. destruct (ai_score Hinv v cv Hv) as (? & ? & ?).
        split; [done|]. lia.
    - intros v u. simpl. rewrite lookup_insert.
      destruct (decide (n = v)) as [<-|Hne].
      + intros [= <-]. split; [done|]. exists c, t.
        rewrite !lookup_insert. rewrite decide_False by done.
        rewrite decide_True by done. split; [done|]. split; [done|].
        unfold t. lia.
      + intros Hv. destruct (ai_parent Hinv v u Hv)
          as (Hstep & cu & cv & Hu & Hcv & Hlt).
        split; [done|]. destruct (Hle u cu Hu) as (cu' & Hu' & ?).
        exists cu', cv. simpl in Hu'. split; [done|].
        rewrite lookup_insert_ne by done. split; [done|lia].
    - intros v Hv. simpl. rewrite lookup_insert, lookup_insert.
      destruct (decide (n = v)); [eauto|].
      intros Hs'. by apply (ai_has_parent Hinv).
    - intros f v Hin. simpl in Hin. unfold Maze.heappush in Hin.
      apply elem_of_app in Hin as [Hin|Hin].
      + destruct (ai_heap Hinv f v Hin) as (cv & Hv & Hb).
        destruct (Hle v cv Hv) as (cv' & Hv' & ?).
        exists cv'. split; [done|]. destruct Hb; [left; lia|by right].
      + apply list_elem_of_singleton in Hin as [= -> ->].
        exists t. rewrite Hg', decide_True by done. split; [done|].
        left. unfold hcost. lia.
    - intros He. simpl. unfold Maze.heappush.
      destruct (decide (n = Maze.end_ m)) as [<-|Hne].
      + eexists. apply elem_of_app. right. by left.
      + rewrite Hg', decide_False in He by done.
        destruct (ai_end Hinv He) as [f Hf].
        exists f. apply elem_of_app. by left. }
  split; [split; [done|split]|].
  - intros v Hv cv. rewrite Hg'. destruct (decide (n = v)) as [<-|Hne].
    + intros [= <-]. left. exists (t + Maze.heuristic n (Maze.end_ m)).
      split; [|unfold hcost; lia]. simpl. unfold Maze.heappush.
      apply elem_of_app. right. by left.
    + intros Hcv. destruct (Hset v Hv cv Hcv) as [(f & Hf & Hfle)|Hnb].
      * left. exists f. split; [|done]. simpl. unfold Maze.heappush.
        apply elem_of_app. by left.
      * right. intros w Hw. destruct (Hnb w Hw) as (cw & Hcw & ?).
        destruct (Hle w cw Hcw) as (cw' & Hcw' & ?).
        exists cw'. split; [done|lia].
  - exists c. split.
    + rewrite Hg'. by rewrite decide_False.
    + intros w Hw. rewrite Hg'. destruct (decide (n = w)) as [<-|Hne].
      * exists t. split; [done|]. unfold t. lia.
      * apply elem_of_cons in Hw as [->|Hw]; [done|]. auto.
  - unfold astar_measure. simpl. unfold Maze.heappush.
    rewrite length_app. simpl.
    assert (S (sum_list_with (score_of m (<[n:=t]> (Maze.g_score st)))
                 (all_cells m))
            <= sum_list_with (score_of m (Maze.g_score st)) (all_cells m))%nat;
      [|lia].
    apply (sum_list_flip _ _ _ n).
    + apply NoDup_all_cells.
    + by apply elem_of_all_cells.
    + unfold score_of. rewrite lookup_insert_eq.
      destruct (Maze.g_score st !! n) as [gn|] eqn:En.
      * unfold t in *. lia.
      * pose proof (score_size m (Maze.g_score st')) as Hb.
        rewrite Hsz2 in Hb by done. unfold t.
        assert (S (size (Maze.g_score st)) <= length (all_cells m))%nat; [|lia].
        apply Hb. intros v cv Hv. by apply (ai_score Hinv' v cv).
    + intros b _ Hne. unfold score_of. by rewrite lookup_insert_ne.
Qed.

Lemma relax_all cur l : ∀ done st,
  relax_inv m cur done st -> (∀ n, n ∈ l -> step m cur n) ->
  ∃ st', foldM (Maze.relax m cur) st l = Ok st' ∧
         relax_inv m cur (reverse l ++ done) st' ∧
         (astar_measure m st' <= astar_measure m st)%nat.
Proof.
  induction l as [|n l IH]; intros done st Hinv Hl; simpl.
  - exists st. by split.
  - destruct (relax_ok cur done st n Hinv) as (st1 & -> & Hinv1 & Hm1).
    { apply Hl. by left. }
    simpl. destruct (IH (n :: done) st1 Hinv1) as (st' & E & Hinv' & Hm').
    { intros n' Hn'. apply Hl. by right. }
    exists st'. split; [done|]. split; [|lia].
    by rewrite reverse_cons, <- app_assoc.
Qed.
End relax.

(** ** A-star: the [while open_set] loop *)

Section astar.
Context (m : Maze.t).
Hypothesis Hwf : well_formed m.

(** *** Following [came_from] back to the start *)

Lemma walk_back_ok st : astar_inv m st ->
  ∀ fuel cur c acc,
    Maze.g_score st !! cur = Some c -> (Z.to_nat c <= fuel)%nat ->
    ∃ ch, Maze.walk_back fuel (Maze.came_from st) cur acc = Ok (acc ++ ch) ∧
          path m (Maze.start m) cur (reverse (ch ++ [Maze.start m])) ∧
          NoDup (ch ++ [Maze.start m]) ∧
          Z.of_nat (length ch) <= c ∧
          ∀ x, x ∈ ch -> ∃ cx, Maze.g_score st !! x = Some cx ∧ cx <= c.
Proof.
  intros Hinv. induction fuel as [|fuel IH]; intros cur c acc Hc Hfuel.
  - destruct (Maze.came_from st !! cur) as [prev|] eqn:Ecf.
    + destruct (ai_parent Hinv cur prev Ecf)
        as (_ & cu & cv & Hu & Hv & Hlt).
      destruct (ai_score Hinv prev cu Hu) as (_ & ? & _).
      rewrite Hc in Hv. injection Hv as <-. lia.
    + simpl. rewrite Ecf. exists []. rewrite app_nil_r. split; [done|].
      assert (cur = Maze.start m) as ->.
      { destruct (decide (cur = Maze.start m)) as [|Hne]; [done|].
        destruct (ai_has_parent Hinv cur Hne) as [? ?]; [eauto|congruence]. }
      split; [apply path_singleton|]. split; [apply NoDup_singleton|].
      destruct (ai_score Hinv _ c Hc) as (_ & ? & _).
      split; [simpl; lia|]. by intros x ?%not_elem_of_nil.
  - destruct (Maze.came_from st !! cur) as [prev|] eqn:Ecf.
    + simpl. rewrite Ecf.
      destruct (ai_parent Hinv cur prev Ecf)
        as (Hstep & cu & cv & Hu & Hv & Hlt).
      rewrite Hc in Hv. injection Hv as <-.
      destruct (ai_score Hinv prev cu Hu) as (_ & ? & _).
      destruct (IH prev cu (acc ++ [cur]) Hu) as (ch & E & Hp & Hnd & Hlen & Hall);
        [lia|].
      exists (cur :: ch). split; [by rewrite E, <- app_assoc|].
      split; [|split; [|split]].
      * simpl. rewrite reverse_cons. by eapply path_snoc.
      * simpl. constructor; [|done]. intros Hin.
        apply elem_of_app in Hin as [Hin|Hin].
        -- destruct (Hall cur Hin) as (cx & Hcx & ?).
           rewrite Hc in Hcx. injection Hcx as <-. lia.
        -- apply list_elem_of_singleton in Hin as ->.
           rewrite (ai_start_root Hinv) in Ecf. done.
      * simpl length. lia.
      * intros x Hx. apply elem_of_cons in Hx as [->|Hx].
        -- exists c. split; [done|lia].
        -- destruct (Hall x Hx) as (cx & ? & ?). exists cx. split; [done|lia].
    + simpl. rewrite Ecf. exists []. rewrite app_nil_r. split; [done|].
      assert (cur = Maze.start m) as ->.
      { destruct (decide (cur = Maze.start m)) as [|Hne]; [done|].
        destruct (ai_has_parent Hinv cur Hne) as [? ?]; [eauto|congruence]. }
      split; [apply path_singleton|]. split; [apply NoDup_singleton|].
      destruct (ai_score Hinv _ c Hc) as (_ & ? & _).
      split; [simpl; lia|]. by intros x ?%not_elem_of_nil.
Qed.

(** *** Along any path, the heap holds a cell scored no worse than the way
    there, or the end of the path is scored no worse than its length *)

Lemma astar_front st :
  (∀ v, settled m st v) ->
  ∀ l a c,
    chain (step m) (a :: l) -> Maze.g_score st !! a = Some c ->
    (∃ l1 x l2 cx f,
        a :: l = l1 ++ x :: l2 ∧ Maze.g_score st !! x = Some cx ∧
        (f, x) ∈ Maze.open_set st ∧ f <= cx + hcost m x ∧
        cx <= c + Z.of_nat (length l1)) ∨
    (∃ b c', last (a :: l) = Some b ∧ Maze.g_score st !! b = Some c' ∧
             c' <= c + Z.of_nat (length l)).
Proof.
  intros Hset. induction l as [|b l IH]; intros a c Hch Ha.
  - right. exists a, c. split; [done|]. split; [done|]. simpl. lia.
  - inversion Hch as [| |? ? ? Hs Hch']; subst.
    destruct (Hset a c Ha) as [(f & Hf & Hfle)|Hnb].
    + left. exists [], a, (b :: l), c, f. simpl. repeat split; try done. lia.
    + destruct (Hnb b Hs) as (cb & Hb & Hcb).
      destruct (IH b cb Hch' Hb)
        as [(l1 & x & l2 & cx & f & E & Hx & Hf & Hfle & Hcx)|
            (e & ce & Hl & He & Hce)].
      * left. exists (a :: l1), x, l2, cx, f. simpl. rewrite E.
        repeat split; try done. lia.
      * right. exists e, ce. rewrite last_cons_cons. split; [done|].
        split; [done|]. simpl length. lia.
Qed.

Lemma astar_optimal st f heap' c q :
  astar_inv m st -> (∀ v, settled m st v) ->
  Maze.heappop (Maze.open_set st) = Some ((f, Maze.end_ m), heap') ->
  Maze.g_score st !! Maze.end_ m = Some c ->
  path m (Maze.start m) (Maze.end_ m) q ->
  c + 1 <= Z.of_nat (length q).
Proof.
  intros Hinv Hset Hpop Hc (Hh & Hl & Hch).
  destruct q as [|a q]; [done|]. injection Hh as ->.
  apply heappop_Some in Hpop as (Hin & _ & Hmin).
  destruct (astar_front st Hset q _ 0 Hch (ai_start Hinv))
    as [(l1 & x & l2 & cx & fx & E & Hx & Hfx & Hfle & Hcx)|
        (e & ce & Hl' & He & Hce)].
  - rewrite E in Hch, Hl. apply chain_app_inv in Hch as [_ Hch].
    rewrite last_app_cons in Hl.
    pose proof (heuristic_chain m _ _ _ Hch Hl) as Hh.
    specialize (Hmin _ Hfx). simpl in Hmin.
    destruct (ai_heap Hinv _ _ Hin) as (c' & Hc' & Hb).
    rewrite Hc in Hc'. injection Hc' as <-.
    assert (Hlen : length (Maze.start m :: q) = (length l1 + S (length l2))%nat).
    { rewrite E, length_app. done. }
    rewrite Hlen. destruct Hb as [Hb|Hb].
    + unfold hcost in *. rewrite heuristic_self in Hb. lia.
    + rewrite Hb, (ai_start Hinv) in Hc. injection Hc as <-. lia.
  - rewrite Hl in Hl'. injection Hl' as <-.
    rewrite Hc in He. injection He as <-. simpl length. lia.
Qed.

Lemma astar_exhausted st :
  astar_inv m st -> (∀ v, settled m st v) -> Maze.open_set st = [] ->
  ¬ reachable m (Maze.start m) (Maze.end_ m).
Proof.
  intros Hinv Hset Hempty Hr.
  assert (H : ∀ a b, reachable m a b -> is_Some (Maze.g_score st !! a) ->
                     is_Some (Maze.g_score st !! b)).
  { intros a b Hab. induction Hab as [|a b c Hs _ IH]; [done|].
    intros [ca Ha]. apply IH.
    destruct (Hset a ca Ha) as [(f & Hf & _)|Hnb].
    - rewrite Hempty in Hf. by apply not_elem_of_nil in Hf.
    - destruct (Hnb b Hs) as (cb & ? & _). eauto. }
  destruct (ai_end Hinv) as [f Hf].
  - apply (H _ _ Hr). rewrite (ai_start Hinv). eauto.
  - rewrite Hempty in Hf. by apply not_elem_of_nil in Hf.
Qed.

(** *** The loop *)

Lemma astar_loop_ok fuel : ∀ st,
  astar_inv m st -> (∀ v, settled m st v) ->
  (astar_measure m st <= fuel)%nat ->
  ∃ p, Maze.astar_loop fuel m st = Ok p ∧
       ((p = [] ∧ ¬ reachable m (Maze.start m) (Maze.end_ m)) ∨
        (path m (Maze.start m) (Maze.end_ m) p ∧ NoDup p ∧
         ∀ q, path m (Maze.start m) (Maze.end_ m) q ->
              (length p <= length q)%nat)).
Proof.
  assert (Hfound : ∀ st f heap',
    astar_inv m st -> (∀ v, settled m st v) ->
    Maze.heappop (Maze.open_set st) = Some ((f, Maze.end_ m), heap') ->
    ∃ p, (path' ← Maze.walk_back (Z.to_nat (Maze.width m * Maze.height m))
                    (Maze.came_from st) (Maze.end_ m) [];
          Ok (reverse (path' ++ [Maze.start m]))) = Ok p ∧
         path m (Maze.start m) (Maze.end_ m) p ∧ NoDup p ∧
         ∀ q, path m (Maze.start m) (Maze.end_ m) q ->
              (length p <= length q)%nat).
  { intros st f heap' Hinv Hset Hpop.
    pose proof Hpop as Hpop'.
    apply heappop_Some in Hpop' as (Hin & _ & _).
    destruct (ai_heap Hinv _ _ Hin) as (c & Hc & _).
    destruct (ai_score Hinv _ c Hc) as ([Hex Hey] & Hc0 & Hcsz).
    destruct (walk_back_ok st Hinv (Z.to_nat (Maze.width m * Maze.height m))
                (Maze.end_ m) c [] Hc) as (ch & E & Hp & Hnd & Hlen & _).
    { pose proof (score_size m (Maze.g_score st)) as Hb.
      rewrite length_all_cells in Hb by lia.
      assert (size (Maze.g_score st)
              <= Z.to_nat (Maze.width m * Maze.height m))%nat; [|lia].
      apply Hb. intros v cv Hv. by apply (ai_score Hinv v cv). }
    rewrite E. simpl. exists (reverse (ch ++ [Maze.start m])).
    split; [done|]. split; [done|]. split; [by rewrite reverse_Permutation|].
    intros q Hq.
    pose proof (astar_optimal st f heap' c q Hinv Hset Hpop Hc Hq).
    rewrite length_reverse, length_app. simpl. lia. }
  induction fuel as [|fuel IH]; intros st Hinv Hset Hfuel.
  - destruct (Maze.heappop (Maze.open_set st)) as [[[f cur] heap']|] eqn:Ep.
    + simpl. rewrite Ep.
      destruct (decide (cur = Maze.end_ m)) as [->|Hne].
      * destruct (Hfound st f heap' Hinv Hset Ep) as (p & -> & Hres).
        exists p. split; [done|]. by right.
      * apply heappop_Some in Ep as (Hin & _ & _).
        unfold astar_measure in Hfuel.
        destruct (Maze.open_set st); [by apply not_elem_of_nil in Hin|].
        simpl in Hfuel. lia.
    + simpl. rewrite Ep. exists []. split; [done|]. left. split; [done|].
      apply heappop_None in Ep. by apply astar_exhausted with st.
  - destruct (Maze.heappop (Maze.open_set st)) as [[[f cur] heap']|] eqn:Ep.
    + simpl. rewrite Ep.
      destruct (decide (cur = Maze.end_ m)) as [->|Hne].
      * destruct (Hfound st f heap' Hinv Hset Ep) as (p & -> & Hres).
        exists p. split; [done|]. by right.
      * apply heappop_Some in Ep as (Hin & -> & _).
        destruct (ai_heap Hinv _ _ Hin) as (c & Hc & _).
        destruct (ai_score Hinv _ c Hc) as (Hcin & Hc0 & Hcsz).
        destruct Hwf as [Hsh _].
        pose proof (get_connected_neighbors_eq m cur Hsh Hcin) as Hcn.
        rewrite Hcn. simpl.
        set (st0 := {| Maze.open_set := _; Maze.came_from := _;
                       Maze.g_score := _; Maze.f_score := _ |}).
        assert (Hinv0 : relax_inv m cur [] st0).
        { split; [|split].
          - split; simpl; try apply Hinv.
            + intros f' v Hv. apply elem_of_remove_one in Hv.
              by apply (ai_heap Hinv).
            + intros He. destruct (ai_end Hinv He) as [f' Hf'].
              exists f'. apply elem_of_remove_one_ne; [done|].
              intros [= _ E]. by rewrite E in Hne.
          - intros v Hv cv Hcv. simpl in Hcv.
            destruct (Hset v cv Hcv) as [(f' & Hf' & Hle)|Hnb]; [|by right].
            left. exists f'. split; [|done]. simpl.
            apply elem_of_remove_one_ne; [done|]. intros [= _ E]. done.
          - exists c. split; [done|]. by intros w ?%not_elem_of_nil. }
        destruct (relax_all m cur (connected_of m cur) [] st0 Hinv0)
          as (st' & -> & (Hinv' & Hset' & c' & Hc' & Hdone) & Hm).
        { intros n Hn. by apply step_connected_of. }
        simpl. apply IH; [done| |].
        -- intros v. destruct (decide (v = cur)) as [->|Hv]; [|by apply Hset'].
           intros cv Hcv. right. intros w Hw.
           rewrite Hc' in Hcv. injection Hcv as <-.
           apply Hdone. rewrite app_nil_r, elem_of_reverse.
           by apply step_connected_of.
        -- assert (astar_measure m st0 < astar_measure m st)%nat; [|lia].
           unfold astar_measure. simpl.
           pose proof (length_remove_one _ _ Hin). lia.
    + simpl. rewrite Ep. exists []. split; [done|]. left. split; [done|].
      apply heappop_None in Ep. by apply astar_exhausted with st.
Qed.

Lemma astar_inv_init :
  let st := {| Maze.open_set := Maze.heappush [] (0, Maze.start m);
               Maze.came_from := ∅;
               Maze.g_score := {[Maze.start m := 0]};
               Maze.f_score :=
                 {[Maze.start m :=
                     Maze.heuristic (Maze.start m) (Maze.end_ m)]} |} in
  astar_inv m st ∧ (∀ v, settled m st v) ∧
  (astar_measure m st <= Maze.astar_fuel m)%nat.
Proof.
  intros st. destruct Hwf as [Hsh Hst]. split; [|split].
  - split; simpl.
    + apply lookup_singleton_eq.
    + apply lookup_empty.
    + intros v c Hv. apply lookup_singleton_Some in Hv as [<- <-].
      split; [done|]. rewrite map_size_singleton. lia.
    + intros v u Hv. by rewrite lookup_empty in Hv.
    + intros v Hne [c Hc]. apply lookup_singleton_Some in Hc as [<- _]. done.
    + intros f v Hin. apply list_elem_of_singleton in Hin as [= -> ->].
      exists 0. rewrite lookup_singleton_eq. split; [done|by right].
    + intros [c Hc]. apply lookup_singleton_Some in Hc as [<- _].
      exists 0. by left.
  - intros v c Hv. simpl in Hv. apply lookup_singleton_Some in Hv as [<- <-].
    left. exists 0. split; [by left|]. unfold hcost.
    pose proof (heuristic_nonneg (Maze.start m) (Maze.end_ m)). lia.
  - unfold astar_measure, Maze.astar_fuel. simpl.
    destruct Hst as [Hx Hy].
    rewrite <- length_all_cells by lia.
    set (N := length (all_cells m)).
    assert (sum_list_with (score_of m {[Maze.start m := 0%Z]}) (all_cells m)
            <= N * N)%nat; [|lia].
    assert (H : ∀ l : list (Z * Z),
              (sum_list_with (score_of m {[Maze.start m := 0%Z]}) l
               <= length l * N)%nat).
    { induction l as [|a l IH]; simpl; [lia|].
      assert (score_of m {[Maze.start m := 0%Z]} a <= N)%nat; [|lia].
      unfold score_of. destruct (_ !! a) as [c|] eqn:E; [|done].
      apply lookup_singleton_Some in E as [_ <-]. simpl. lia. }
    apply H.
Qed.

Lemma solve_astar_ok :
  ∃ p, Maze.solve_astar m = Ok p ∧
       ((p = [] ∧ ¬ reachable m (Maze.start m) (Maze.end_ m)) ∨
        (path m (Maze.start m) (Maze.end_ m) p ∧ NoDup p ∧
         ∀ q, path m (Maze.start m) (Maze.end_ m) q ->
              (length p <= length q)%nat)).
Proof.
  destruct astar_inv_init as (Hinv & Hset & Hfuel).
  by apply astar_loop_ok.
Qed.
End astar.

(** ** The edge list lists every edge once *)

Lemma NoDup_edges m : NoDup (edges m).
Proof.
  unfold edges. apply NoDup_ListNoDup, List.NoDup_filter, NoDup_ListNoDup.
  apply NoDup_list_prod; [apply NoDup_all_cells|].
  repeat constructor; rewrite ?elem_of_cons, ?elem_of_nil; intros H;
    repeat destruct H as [H|H]; done.
Qed.

Lemma elem_of_edges m p d :
  shape (Maze.width m) (Maze.height m) (Maze.cells m) ->
  (p, d) ∈ edges m ↔
  inb m p ∧ (d = Direction.EAST ∨ d = Direction.SOUTH) ∧ step m p (move p d).
Proof.
  intros Hsh. unfold edges.
  rewrite list_elem_of_In, filter_In, in_prod_iff, <- list_elem_of_In,
    elem_of_all_cells.
  unfold is_edge. simpl. rewrite andb_true_iff, negb_true_iff.
  split.
  - intros [[Hp Hd] [Hin Hw]]. split; [done|]. split.
    { simpl in Hd. destruct Hd as [<-|[<-|[]]]; auto. }
    apply step_spec; [done..|]. exists d. split; [done|]. split; [|done].
    by apply in_bounds_spec in Hin.
  - intros (Hp & Hd & Hs). split.
    { split; [done|]. simpl. destruct Hd as [-> | ->]; auto. }
    apply step_spec in Hs as (d' & E & Hin & Hw); [|done..].
    apply move_inj in E as <-. split; [|done].
    by apply in_bounds_spec.
Qed.

Lemma step_edges m a b :
  shape (Maze.width m) (Maze.height m) (Maze.cells m) ->
  symmetric_walls m -> inb m a -> step m a b ->
  ∃ d, (b = move a d ∧ (a, d) ∈ edges m) ∨ (a = move b d ∧ (b, d) ∈ edges m).
Proof.
  intros Hsh Hsym Ha Hs.
  pose proof (step_symmetric _ _ _ Hsh Hsym Ha Hs) as Hs'.
  pose proof (step_inb _ _ _ Hsh Ha Hs) as Hb.
  apply step_spec in Hs as (d & -> & _ & _); [|done..].
  destruct (decide (d = Direction.EAST ∨ d = Direction.SOUTH)) as [Hd|Hd].
  - exists d. left. split; [done|]. apply elem_of_edges; [done|].
    split; [done|]. split; [done|].
    apply step_symmetric; [done..|]. done.
  - exists (Direction.opposite d). right. rewrite move_opposite.
    split; [done|]. apply elem_of_edges; [done|]. split; [done|].
    split; [destruct d; tauto|]. by rewrite move_opposite.
Qed.

(** ** Consecutive cells of a path are one unit move apart, with no wall on
    the way *)

Lemma chain_adjacent m a l :
  shape (Maze.width m) (Maze.height m) (Maze.cells m) -> inb m a ->
  chain (step m) (a :: l) -> chain (adjacent m) (a :: l).
Proof.
  intros Hsh. revert a. induction l as [|b l IH]; intros a Ha Hch.
  - constructor.
  - inversion Hch as [| |? ? ? Hs Hch']; subst.
    pose proof (step_inb _ _ _ Hsh Ha Hs) as Hb.
    constructor; [|by apply IH].
    apply step_spec in Hs as (d & -> & _ & Hw); [|done..].
    split; [done|]. split; [done|]. eauto.
Qed.

Lemma path_adjacent m a b p :
  shape (Maze.width m) (Maze.height m) (Maze.cells m) -> inb m a ->
  path m a b p -> chain (adjacent m) p.
Proof.
  intros Hsh Ha (Hh & _ & Hch). destruct p as [|a' p]; [constructor|].
  injection Hh as ->. by apply chain_adjacent.
Qed.

Lemma adjacent_unit_step m a b :
  adjacent m a b -> Z.abs (b.1 - a.1) + Z.abs (b.2 - a.2) = 1.
Proof.
  intros (_ & _ & d & -> & _). destruct a as [x y], d; unfold move; simpl; lia.
Qed.

(** ** The connectivity graph, told from the walls *)

(** On a grid of the announced dimensions [_get_connected_neighbors]
    enumerates the edges of that graph: no more, no fewer. *)
Lemma adjacent_step m a b :
  shape (Maze.width m) (Maze.height m) (Maze.cells m) ->
  adjacent m a b ↔ inb m a ∧ step m a b.
Proof.
  intros Hsh. split.
  - intros (Ha & Hb & d & -> & Hw). split; [done|].
    apply (step_spec _ _ _ Hsh Ha). eauto.
  - intros [Ha Hs]. apply (step_spec _ _ _ Hsh Ha) in Hs as (d & -> & Hb & Hw).
    split; [done|]. split; [done|]. eauto.
Qed.

Lemma wall_path_path m a b p :
  shape (Maze.width m) (Maze.height m) (Maze.cells m) -> inb m a ->
  wall_path m a b p ↔ path m a b p.
Proof.
  intros Hsh Ha. split.
  - intros (Hh & Hl & Hc). split; [done|]. split; [done|].
    eapply chain_mono; [|exact Hc]. intros x y _ _ Hxy.
    by apply (adjacent_step m x y Hsh) in Hxy as [_ ?].
  - intros Hp. pose proof (path_adjacent _ _ _ _ Hsh Ha Hp).
    by destruct Hp as (? & ? & _).
Qed.

Lemma wall_reachable_reachable m a b :
  shape (Maze.width m) (Maze.height m) (Maze.cells m) -> inb m a ->
  wall_reachable m a b ↔ reachable m a b.
Proof.
  intros Hsh Ha. split.
  - intros Hr. clear Ha. induction Hr as [a|a b c Hab _ IH]; [constructor|].
    apply (adjacent_step m a b Hsh) in Hab as [_ Hs].
    by eapply rtc_l.
  - intros Hr. induction Hr as [a|a b c Hab _ IH]; [constructor|].
    eapply rtc_l.
    + by apply (adjacent_step m a b Hsh).
    + apply IH. by eapply step_inb.
Qed.

(** ** Constructed mazes, solvers and examples *)

Lemma init_raises rnd w h cs :
  w <= 0 ∨ h <= 0 -> Maze.__init__ rnd w h cs = Raise IndexError.
Proof.
  intros Hwh. unfold Maze.__init__, Maze._generate_maze. simpl.
  assert (E : grid_update
                ((fun x => (fun y => Cell.__init__ x y) <$> range h) <$> range w)
                0 0 (fun c => Cell.set_visited c true) = Raise IndexError);
    [|by rewrite E].
  unfold grid_update, range. rewrite length_fmap, length_seqZ.
  destruct (decide (w <= 0)) as [Hw|Hw].
  - replace (Z.to_nat w) with 0%nat by lia. done.
  - rewrite py_norm_inrange by lia.
    rewrite list_lookup_fmap, lookup_seqZ_lt by lia. simpl.
    rewrite length_fmap, length_seqZ.
    replace (Z.to_nat h) with 0%nat by lia. done.
Qed.

Lemma init_Ok_generated rnd w h cs m :
  Maze.__init__ rnd w h cs = Ok m -> 0 < w ∧ 0 < h ∧ generated w h cs m.
Proof.
  intros E. destruct (decide (0 < w ∧ 0 < h)) as [[Hw Hh]|Hn].
  - destruct (init_generated rnd w h cs Hw Hh) as (m' & E' & Hg).
    rewrite E in E'. injection E' as <-. done.
  - rewrite init_raises in E by lia. done.
Qed.

Lemma generated_well_formed w h cs m :
  0 < w -> 0 < h -> generated w h cs m -> well_formed m.
Proof.
  intros Hw Hh Hg. split.
  - rewrite (gen_width Hg), (gen_height Hg).
    apply (gen_shape Hg).
  - rewrite (gen_start Hg). unfold inb.
    rewrite (gen_width Hg), (gen_height Hg). simpl. lia.
Qed.

Lemma solver_ok m solve :
  well_formed m -> solve ∈ solvers ->
  ∃ p, solve m = Ok p ∧ search_result m p.
Proof.
  intros Hwf Hs. unfold solvers in Hs.
  apply elem_of_cons in Hs as [->|Hs]; [|apply elem_of_cons in Hs as [->|Hs]].
  - destruct (solve_bfs_ok m Hwf) as (p & E & Hr & _). eauto.
  - by apply solve_dfs_ok.
  - apply list_elem_of_singleton in Hs as ->.
    destruct (solve_astar_ok m Hwf) as (p & E & [Hr|(Hp & Hnd & _)]).
    + exists p. split; [done|]. by left.
    + exists p. split; [done|]. by right.
Qed.

Lemma example_maze_init : Maze.__init__ (fun k => k) 2 2 20 = Ok example_maze.
Proof. vm_compute. reflexivity. Qed.

Lemma example_maze_well_formed : well_formed example_maze.
Proof.
  split.
  - split; [vm_compute; reflexivity|].
    apply Forall_forall. intros col Hcol. vm_compute in Hcol.
    repeat (apply elem_of_cons in Hcol as [->|Hcol]; [reflexivity|]).
    by apply not_elem_of_nil in Hcol.
  - vm_compute. repeat split; discriminate.
Qed.

Lemma example_maze_reachable :
  reachable example_maze (Maze.start example_maze) (Maze.end_ example_maze).
Proof.
  apply (rtc_l _ _ (0, 1)).
  { exists [(0, 1)]. split; [vm_compute; reflexivity|by left]. }
  apply (rtc_l _ _ (1, 1)).
  { exists [(0, 0); (1, 1)]. split; [vm_compute; reflexivity|by right; left]. }
  apply rtc_refl.
Qed.


Lemma example_maze_wall_reachable :
  wall_reachable example_maze (Maze.start example_maze)
    (Maze.end_ example_maze).
Proof.
  apply (rtc_l _ _ (0, 1)).
  { split; [vm_compute; repeat split; discriminate|].
    split; [vm_compute; repeat split; discriminate|].
    exists Direction.SOUTH. split; vm_compute; reflexivity. }
  apply (rtc_l _ _ (1, 1)).
  { split; [vm_compute; repeat split; discriminate|].
    split; [vm_compute; repeat split; discriminate|].
    exists Direction.EAST. split; vm_compute; reflexivity. }
  apply rtc_refl.
Qed.

Lemma west_maze_well_formed : well_formed west_maze.
Proof.
  split.
  - split; [reflexivity|]. constructor; [reflexivity|].
    constructor; [reflexivity|constructor].
  - unfold inb. simpl. lia.
Qed.

Lemma west_maze_wall_reachable :
  wall_reachable west_maze (Maze.start west_maze) (Maze.end_ west_maze).
Proof.
  apply rtc_once.
  split; [vm_compute; repeat split; discriminate|].
  split; [vm_compute; repeat split; discriminate|].
  exists Direction.WEST. split; vm_compute; reflexivity.
Qed.


(** The model at work. *)

Example example_maze_walls :
  layout (Maze.__init__ (fun k => k) 2 2 20) =
  Ok [[ {[Direction.NORTH := true; Direction.SOUTH := false;
          Direction.EAST := true; Direction.WEST := true]};
        {[Direction.NORTH := false; Direction.SOUTH := true;
          Direction.EAST := false; Direction.WEST := true]} ];
      [ {[Direction.NORTH := true; Direction.SOUTH := false;
          Direction.EAST := true; Direction.WEST := true]};
        {[Direction.NORTH := false; Direction.SOUTH := true;
          Direction.EAST := true; Direction.WEST := false]} ]].
Proof. vm_compute. reflexivity. Qed.

Example example_maze_solved :
  Maze.solve_bfs example_maze = Ok [(0, 0); (0, 1); (1, 1)] ∧
  Maze.solve_dfs example_maze = Ok [(0, 0); (0, 1); (1, 1)] ∧
  Maze.solve_astar example_maze = Ok [(0, 0); (0, 1); (1, 1)].
Proof. repeat split; vm_compute; reflexivity. Qed.

Example walled_maze_unsolved :
  Maze.solve_bfs walled_maze = Ok [] ∧
  Maze.solve_dfs walled_maze = Ok [] ∧
  Maze.solve_astar walled_maze = Ok [].
Proof. repeat split; vm_compute; reflexivity. Qed.

Example heappop_smallest :
  Maze.heappop [(3, (0, 0)); (1, (2, 1)); (1, (1, 5))] =
  Some ((1, (1, 5)), [(3, (0, 0)); (1, (2, 1))]).
Proof. reflexivity. Qed.

Example west_maze_solved :
  Maze.solve_bfs west_maze = Ok [(1, 0); (0, 0)] ∧
  Maze.solve_dfs west_maze = Ok [(1, 0); (0, 0)] ∧
  Maze.solve_astar west_maze = Ok [(1, 0); (0, 0)].
Proof. repeat split; vm_compute; reflexivity. Qed.

Example one_way_maze_solved :
  Maze.solve_bfs one_way_maze = Ok [(1, 0); (0, 0)] ∧
  Maze.solve_dfs one_way_maze = Ok [(1, 0); (0, 0)] ∧
  Maze.solve_astar one_way_maze = Ok [(1, 0); (0, 0)].
Proof. repeat split; vm_compute; reflexivity. Qed.

(** ** Generation depends on the draws only *)

#[local] Arguments Direction.of_value : simpl never.

Lemma generate_loop_ext rnd rnd' :
  (∀ k, rnd k = rnd' k) ->
  ∀ fuel k m stack,
    Maze.generate_loop fuel rnd k m stack =
    Maze.generate_loop fuel rnd' k m stack.
Proof.
  intros Hext. induction fuel as [|fuel IH]; intros k m stack; simpl.
  - done.
  - destruct (pop_last stack) as [[[x y] rest]|]; [|done].
    destruct (grid_get (Maze.cells m) x y) as [c|e]; simpl; [|done].
    destruct (Maze.unvisited_neighbors m x y) as [[|q l]|e]; simpl;
      [apply IH| |done].
    unfold Maze.choice. rewrite Hext.
    destruct (_ !! _) as [[nx ny]|]; simpl; [|done].
    destruct (grid_get (Maze.cells m) nx ny) as [c'|e]; simpl; [|done].
    destruct (Direction.of_value (nx - x, ny - y)) as [d|e]; simpl; [|done].
    destruct (grid_update (Maze.cells m) x y _) as [cs1|e]; simpl; [|done].
    destruct (grid_update cs1 nx ny _) as [cs2|e]; simpl; [|done].
    destruct (grid_update cs2 nx ny _) as [cs3|e]; simpl; [|done].
    apply IH.
Qed.

Lemma generate_loop_cell_size rnd cs' :
  ∀ fuel k m stack,
    same_but_size (Maze.generate_loop fuel rnd k m stack)
      (Maze.generate_loop fuel rnd k (with_cell_size m cs') stack).
Proof.
  induction fuel as [|fuel IH]; intros k m stack; simpl.
  - destruct (pop_last stack) as [[[x y] rest]|]; simpl; done.
  - destruct (pop_last stack) as [[[x y] rest]|]; [|done].
    destruct (grid_get (Maze.cells m) x y) as [c|e]; simpl; [|done].
    change (Maze.unvisited_neighbors (with_cell_size m cs') x y)
      with (Maze.unvisited_neighbors m x y).
    destruct (Maze.unvisited_neighbors m x y) as [[|q l]|e]; simpl;
      [apply IH| |done].
    destruct (Maze.choice rnd k (q :: l)) as [[nx ny]|e]; simpl; [|done].
    destruct (grid_get (Maze.cells m) nx ny) as [c'|e]; simpl; [|done].
    destruct (Direction.of_value (nx - x, ny - y)) as [d|e]; simpl; [|done].
    destruct (grid_update (Maze.cells m) x y _) as [cs1|e]; simpl; [|done].
    destruct (grid_update cs1 nx ny _) as [cs2|e]; simpl; [|done].
    destruct (grid_update cs2 nx ny _) as [cs3|e]; simpl; [|done].
    apply (IH (S k) (Maze.set_cells m cs3)).
Qed.

Lemma layout_ext rnd rnd' w h cs cs' :
  (∀ k, rnd k = rnd' k) ->
  layout (Maze.__init__ rnd w h cs) = layout (Maze.__init__ rnd' w h cs').
Proof.
  intros Hext. unfold Maze.__init__, Maze._generate_maze. simpl.
  destruct (grid_update _ 0 0 _) as [cs0|e]; simpl; [|done].
  rewrite <- (generate_loop_ext rnd rnd' Hext).
  set (m0 := Maze.set_cells _ cs0).
  set (m0' := Maze.set_cells _ cs0).
  pose proof (generate_loop_cell_size rnd cs'
                (Maze.generate_fuel m0) 0 m0 [(0, 0)]) as Hsame.
  change (with_cell_size m0 cs') with m0' in Hsame.
  change (Maze.generate_fuel
            {| Maze.width := w; Maze.height := h; Maze.cell_size := cs;
               Maze.cells := (fun x => (fun y => Cell.__init__ x y) <$> range h)
                               <$> range w;
               Maze.start := (0, 0); Maze.end_ := (w - 1, h - 1) |})
    with (Maze.generate_fuel m0).
  change (Maze.generate_fuel
            {| Maze.width := w; Maze.height := h; Maze.cell_size := cs';
               Maze.cells := (fun x => (fun y => Cell.__init__ x y) <$> range h)
                               <$> range w;
               Maze.start := (0, 0); Maze.end_ := (w - 1, h - 1) |})
    with (Maze.generate_fuel m0).
  destruct (Maze.generate_loop _ rnd 0 m0 _) as [m1|e1];
    destruct (Maze.generate_loop _ rnd 0 m0' _) as [m1'|e1'];
    simpl in Hsame; try done; [|by subst].
  rewrite Hsame. simpl.
  destruct (grid_update (Maze.cells m1) _ _ _) as [cs1|e]; simpl; [|done].
  destruct (grid_update cs1 _ _ _) as [cs2|e]; simpl; done.
Qed.

(** * The properties of the specification *)

(** C1. For positive width and height and whatever the random draws, the
    constructor returns a maze whose connectivity graph is connected and
    acyclic and has exactly [width * height - 1] edges. *)
Theorem generated_maze_is_perfect (rnd : nat -> nat) (w h cs : Z) :
  0 < w -> 0 < h ->
  ∃ m, Maze.__init__ rnd w h cs = Ok m ∧
       connected m ∧ acyclic m ∧ Z.of_nat (length (edges m)) = w * h - 1.
Proof.
  intros Hw Hh. destruct (init_generated rnd w h cs Hw Hh) as (m & E & Hg).
  exists m. split; [done|]. split; [apply (gen_connected Hg)|].
  split; [apply (gen_acyclic Hg)|apply (gen_edges Hg)].
Qed.

Lemma generated_maze_is_perfect_witness :
  0 < 3 ∧ 0 < 2 ∧
  ∃ m, Maze.__init__ (fun k => (k * k + 1)%nat) 3 2 20 = Ok m ∧
       connected m ∧ acyclic m ∧ Z.of_nat (length (edges m)) = 3 * 2 - 1.
Proof.
  split; [lia|]. split; [lia|].
  apply (generated_maze_is_perfect (fun k => (k * k + 1)%nat) 3 2 20); lia.
Defined.

(** C2. In every constructed maze the wall state is the same on the two
    sides of every edge shared by two cells of the grid. The solvers take
    the maze and return a path only, so nothing changes the walls after
    the constructor returned. *)
Theorem generated_walls_symmetric (rnd : nat -> nat) (w h cs : Z)
    (m : Maze.t) :
  Maze.__init__ rnd w h cs = Ok m -> symmetric_walls m.
Proof.
  intros E. apply init_Ok_generated in E as (_ & _ & Hg).
  apply (gen_symmetric Hg).
Qed.

Lemma generated_walls_symmetric_witness :
  Maze.__init__ (fun k => k) 2 2 20 = Ok example_maze ∧
  symmetric_walls example_maze.
Proof.
  split; [vm_compute; reflexivity|].
  apply (generated_walls_symmetric (fun k => k) 2 2 20 example_maze).
  vm_compute. reflexivity.
Defined.

(** C3. The connectivity graph is read off the walls: two cells of the
    grid are joined when they are one grid step apart and the first has
    no wall on that side. When that graph connects the start to the end,
    [solve_bfs] and [solve_astar] both return a path of the graph from
    the start to the end that no path of the graph is shorter than; the
    two have the same length. *)
Theorem bfs_astar_shortest (m : Maze.t) :
  well_formed m -> wall_reachable m (Maze.start m) (Maze.end_ m) ->
  ∃ pb pa,
    Maze.solve_bfs m = Ok pb ∧ Maze.solve_astar m = Ok pa ∧
    wall_path m (Maze.start m) (Maze.end_ m) pb ∧
    wall_path m (Maze.start m) (Maze.end_ m) pa ∧
    (∀ q, wall_path m (Maze.start m) (Maze.end_ m) q ->
          (length pb <= length q)%nat ∧ (length pa <= length q)%nat) ∧
    length pb = length pa.
Proof.
  intros Hwf Hr. pose proof Hwf as [Hsh Hst].
  apply (wall_reachable_reachable m _ _ Hsh Hst) in Hr.
  destruct (solve_bfs_ok m Hwf) as (pb & Eb & [[_ Hn]|[Hpb _]] & Hminb);
    [done|].
  destruct (solve_astar_ok m Hwf) as (pa & Ea & [[_ Hn]|(Hpa & _ & Hmina)]);
    [done|].
  exists pb, pa. split; [done|]. split; [done|].
  split; [by apply wall_path_path|]. split; [by apply wall_path_path|].
  split.
  - intros q Hq. apply (wall_path_path m _ _ q Hsh Hst) in Hq. auto.
  - pose proof (Hminb pa Hpa). pose proof (Hmina pb Hpb). lia.
Qed.

Lemma bfs_astar_shortest_witness :
  well_formed example_maze ∧
  wall_reachable example_maze (Maze.start example_maze)
    (Maze.end_ example_maze) ∧
  ∃ pb pa,
    Maze.solve_bfs example_maze = Ok pb ∧
    Maze.solve_astar example_maze = Ok pa ∧
    wall_path example_maze (Maze.start example_maze)
      (Maze.end_ example_maze) pb ∧
    wall_path example_maze (Maze.start example_maze)
      (Maze.end_ example_maze) pa ∧
    (∀ q, wall_path example_maze (Maze.start example_maze)
            (Maze.end_ example_maze) q ->
          (length pb <= length q)%nat ∧ (length pa <= length q)%nat) ∧
    length pb = length pa.
Proof.
  split; [exact example_maze_well_formed|].
  split; [exact example_maze_wall_reachable|].
  apply (bfs_astar_shortest example_maze).
  - exact example_maze_well_formed.
  - exact example_maze_wall_reachable.
Defined.

(** C4. When the graph read off the walls connects the start to the end,
    each of the three solvers returns a path whose first cell is the
    start, whose last cell is the end, and whose consecutive cells are
    one grid step apart with no wall on the way. *)
Theorem solvers_return_valid_paths (m : Maze.t)
    (solve : Maze.t -> result (list (Z * Z))) :
  well_formed m -> wall_reachable m (Maze.start m) (Maze.end_ m) ->
  solve ∈ solvers ->
  ∃ p, solve m = Ok p ∧
       head p = Some (Maze.start m) ∧ last p = Some (Maze.end_ m) ∧
       chain (adjacent m) p.
Proof.
  intros Hwf Hr Hs. pose proof Hwf as [Hsh Hst].
  apply (wall_reachable_reachable m _ _ Hsh Hst) in Hr.
  destruct (solver_ok m solve Hwf Hs) as (p & E & [[_ Hn]|[Hp _]]); [done|].
  exists p. split; [done|].
  pose proof (path_adjacent _ _ _ _ Hsh Hst Hp) as Hadj.
  destruct Hp as (Hh & Hl & _). done.
Qed.

Lemma solvers_return_valid_paths_witness :
  well_formed west_maze ∧
  wall_reachable west_maze (Maze.start west_maze) (Maze.end_ west_maze) ∧
  Maze.solve_dfs ∈ solvers ∧
  ∃ p, Maze.solve_dfs west_maze = Ok p ∧
       head p = Some (Maze.start west_maze) ∧
       last p = Some (Maze.end_ west_maze) ∧
       chain (adjacent west_maze) p.
Proof.
  assert (Hin : Maze.solve_dfs ∈ solvers) by (right; left).
  split; [exact west_maze_well_formed|].
  split; [exact west_maze_wall_reachable|].
  split; [exact Hin|].
  apply (solvers_return_valid_paths west_maze Maze.solve_dfs).
  - exact west_maze_well_formed.
  - exact west_maze_wall_reachable.
  - exact Hin.
Defined.



(** C6, amended. The constructor takes a width, a height and a
    cell size, and no seed; its draws come from the ambient generator.
    Generation is reproducible given those draws: two constructions with
    the same width and height under the same sequence of draws produce
    the same wall layout. *)
Theorem layout_determined_by_draws (rnd rnd' : nat -> nat)
    (w h cs cs' : Z) :
  (∀ k, rnd k = rnd' k) ->
  layout (Maze.__init__ rnd w h cs) = layout (Maze.__init__ rnd' w h cs').
Proof. apply layout_ext. Qed.

Lemma layout_determined_by_draws_witness :
  (∀ k : nat, (k + 1)%nat = S k) ∧
  layout (Maze.__init__ (fun k => (k + 1)%nat) 3 3 20) =
  layout (Maze.__init__ S 3 3 30).
Proof.
  split; [intros k; lia|].
  apply (layout_determined_by_draws (fun k => (k + 1)%nat) S 3 3 20 30).
  intros k. lia.
Defined.

(** C6, counterexample: the same call of the constructor, with the same
    width, height and cell size, yields different wall layouts under
    different states of the ambient generator. *)
Lemma same_arguments_different_layouts :
  layout (Maze.__init__ (fun _ => 0%nat) 2 2 20) ≠
  layout (Maze.__init__ (fun _ => 1%nat) 2 2 20).
Proof. vm_compute. discriminate. Qed.

(** C7. With a width or a height that is not positive the constructor
    raises: the caller gets the exception and no maze. *)
Theorem init_fails_without_cells (rnd : nat -> nat) (w h cs : Z) :
  w <= 0 ∨ h <= 0 -> Maze.__init__ rnd w h cs = Raise IndexError.
Proof. apply init_raises. Qed.

Lemma init_fails_without_cells_witness :
  (5 <= 0 ∨ -2 <= 0) ∧ Maze.__init__ (fun k => k) 5 (-2) 20 = Raise IndexError.
Proof.
  split; [right; lia|].
  apply (init_fails_without_cells (fun k => k) 5 (-2) 20). right. lia.
Defined.

(** C8. When the start is the end, each of the three solvers returns the
    path made of the start alone. *)
Theorem start_is_end_single_cell_path (m : Maze.t)
    (solve : Maze.t -> result (list (Z * Z))) :
  Maze.start m = Maze.end_ m -> solve ∈ solvers ->
  solve m = Ok [Maze.start m].
Proof.
  intros E Hs. unfold solvers in Hs.
  apply elem_of_cons in Hs as [->|Hs]; [|apply elem_of_cons in Hs as [->|Hs]].
  - unfold Maze.solve_bfs. destruct (Maze.search_fuel m); simpl;
      destruct (Maze.start m); by rewrite decide_True.
  - unfold Maze.solve_dfs. destruct (Maze.search_fuel m); simpl;
      destruct (Maze.start m); by rewrite decide_True.
  - apply list_elem_of_singleton in Hs as ->.
    unfold Maze.solve_astar. destruct (Maze.astar_fuel m); simpl;
      rewrite decide_True by done;
      destruct (Z.to_nat _); simpl; by rewrite lookup_empty.
Qed.

Lemma start_is_end_single_cell_path_witness :
  Maze.start single_cell_maze = Maze.end_ single_cell_maze ∧
  Maze.solve_bfs ∈ solvers ∧
  Maze.solve_bfs single_cell_maze = Ok [Maze.start single_cell_maze].
Proof.
  assert (Hin : Maze.solve_bfs ∈ solvers) by left.
  split; [vm_compute; reflexivity|]. split; [exact Hin|].
  apply (start_is_end_single_cell_path single_cell_maze Maze.solve_bfs).
  - vm_compute. reflexivity.
  - exact Hin.
Defined.

(** C9, amended. In every constructed maze [is_start] is set on
    the cell (0, 0) and on no other, and [is_end] on the cell
    (width - 1, height - 1) and on no other, so that a cell has both only
    in the maze of one cell. *)
Theorem start_and_end_flags (rnd : nat -> nat) (w h cs : Z) (m : Maze.t)
    (p : Z * Z) :
  Maze.__init__ rnd w h cs = Ok m -> inb m p ->
  Cell.is_start (cell_of (Maze.cells m) p) = bool_decide (p = (0, 0)) ∧
  Cell.is_end (cell_of (Maze.cells m) p) =
    bool_decide (p = (w - 1, h - 1)) ∧
  (Cell.is_start (cell_of (Maze.cells m) p) = true ->
   Cell.is_end (cell_of (Maze.cells m) p) = true -> w = 1 ∧ h = 1).
Proof.
  intros E Hp. apply init_Ok_generated in E as (Hw & Hh & Hg).
  rewrite (gen_is_start Hg), (gen_is_end Hg) by done.
  split; [done|]. split; [done|].
  intros H1 H2. apply bool_decide_eq_true in H1, H2.
  rewrite H1 in H2. injection H2 as ? ?. lia.
Qed.

Lemma start_and_end_flags_witness :
  Maze.__init__ (fun k => k) 2 2 20 = Ok example_maze ∧
  inb example_maze (1, 1) ∧
  Cell.is_start (cell_of (Maze.cells example_maze) (1, 1)) =
    bool_decide ((1, 1) = (0, 0)) ∧
  Cell.is_end (cell_of (Maze.cells example_maze) (1, 1)) =
    bool_decide ((1, 1) = (2 - 1, 2 - 1)) ∧
  (Cell.is_start (cell_of (Maze.cells example_maze) (1, 1)) = true ->
   Cell.is_end (cell_of (Maze.cells example_maze) (1, 1)) = true ->
   2 = 1 ∧ 2 = 1).
Proof.
  assert (Hin : inb example_maze (1, 1)) by (vm_compute; repeat split; discriminate).
  split; [vm_compute; reflexivity|]. split; [exact Hin|].
  apply (start_and_end_flags (fun k => k) 2 2 20 example_maze (1, 1)).
  - vm_compute. reflexivity.
  - exact Hin.
Defined.

(** C9, counterexample: the one cell of the 1 x 1 maze has both
    [is_start] and [is_end] set. *)
Lemma single_cell_is_start_and_end :
  Maze.__init__ (fun k => k) 1 1 20 = Ok single_cell_maze ∧
  Cell.is_start (cell_of (Maze.cells single_cell_maze) (0, 0)) = true ∧
  Cell.is_end (cell_of (Maze.cells single_cell_maze) (0, 0)) = true.
Proof. repeat split; vm_compute; reflexivity. Qed.

(** C10. On every grid of the announced dimensions, whatever its walls, no
    cell occurs twice in the path a solver returns. *)
Theorem solver_paths_are_simple (m : Maze.t)
    (solve : Maze.t -> result (list (Z * Z))) (p : list (Z * Z)) :
  well_formed m -> solve ∈ solvers -> solve m = Ok p -> NoDup p.
Proof.
  intros Hwf Hs E.
  destruct (solver_ok m solve Hwf Hs) as (p' & E' & Hr).
  rewrite E in E'. injection E' as <-.
  destruct Hr as [[-> _]|[_ Hnd]]; [constructor|done].
Qed.

Lemma solver_paths_are_simple_witness :
  well_formed example_maze ∧ Maze.solve_dfs ∈ solvers ∧
  Maze.solve_dfs example_maze = Ok [(0, 0); (0, 1); (1, 1)] ∧
  NoDup [(0, 0); (0, 1); (1, 1)].
Proof.
  assert (Hin : Maze.solve_dfs ∈ solvers) by (right; left).
  assert (E : Maze.solve_dfs example_maze = Ok [(0, 0); (0, 1); (1, 1)])
    by (vm_compute; reflexivity).
  split; [exact example_maze_well_formed|]. split; [exact Hin|].
  split; [exact E|].
  apply (solver_paths_are_simple example_maze Maze.solve_dfs).
  - exact example_maze_well_formed.
  - exact Hin.
  - exact E.
Defined.

(** * Further properties of the code *)

(** ** The generator keeps the outer walls and visits every cell *)

Section generate_keeps.
Context (P : Maze.t -> Prop).
Hypothesis P_carve : ∀ m m' u d,
  inb m u -> inb m (move u d) -> carved m m' u d -> P m -> P m'.

Lemma generate_loop_keeps rnd fuel : ∀ k m stack,
  gen_inv m stack -> P m -> (gen_measure m stack <= fuel)%nat ->
  ∃ m', Maze.generate_loop fuel rnd k m stack = Ok m' ∧ P m'.
Proof using P_carve.
  induction fuel as [|fuel IH]; intros k m stack Hinv HP Hfuel.
  - destruct stack as [|p stack].
    + exists m. by simpl.
    + unfold gen_measure in Hfuel. simpl in Hfuel. lia.
  - destruct (pop_last stack) as [[[x y] rest]|] eqn:Epop.
    + apply pop_last_Some in Epop as ->.
      simpl. rewrite pop_last_snoc.
      pose proof (gi_shape Hinv) as Hsh.
      pose proof (gi_stack Hinv) as Hst.
      apply Forall_app in Hst as [_ Hst].
      apply Forall_singleton in Hst as [Hu Hvu].
      rewrite (grid_get_ok _ _ _ Hsh) by apply Hu. simpl.
      rewrite unvisited_neighbors_eq by done. simpl.
      destruct (Maze._get_neighbors m x y ≫= _) as [|q l] eqn:El.
      * apply IH; [|done|].
        -- eapply pop_inv; [done|]. intros q Hq. simpl in Hq.
           destruct (visited_at m q) eqn:E; [done|].
           assert (Hq' : q ∈ @nil (Z * Z)).
           { rewrite <- El. by apply elem_of_unvisited. }
           by apply not_elem_of_nil in Hq'.
        -- unfold gen_measure in *. rewrite length_app in Hfuel.
           simpl in Hfuel. lia.
      * destruct (choice_ok rnd k (q :: l)) as ([nx ny] & -> & Hv); [done|].
        simpl. rewrite <- El in Hv.
        apply elem_of_unvisited in Hv as [Hv Hfresh].
        change x with (x, y).1 in Hv. change y with (x, y).2 in Hv at 2.
        apply elem_of_get_neighbors in Hv as (d & Hvd & Hvin).
        rewrite (grid_get_ok _ _ _ Hsh) by apply Hvin. simpl.
        pose proof (of_value_move (x, y) d) as Hdir.
        rewrite <- Hvd in Hdir. simpl in Hdir. rewrite Hdir. simpl.
        rewrite Hvd in Hvin, Hfresh.
        destruct (carve_ok m (x, y) d Hsh Hu Hvin)
          as (cs1 & cs2 & cs3 & E1 & E2 & E3 & Hcarved).
        rewrite <- Hvd in E2, E3. simpl in E1, E2, E3.
        rewrite E1. simpl. rewrite E2. simpl. rewrite E3. simpl.
        rewrite Hvd.
        assert (Hin : (x, y) ∈ rest ++ [(x, y)]).
        { apply elem_of_app. right. by left. }
        apply IH.
        -- by eapply carve_inv.
        -- by apply (P_carve m _ (x, y) d).
        -- assert (Hvc : visited_count (Maze.set_cells m cs3) =
                          S (visited_count m))
             by (eapply carve_measure; eauto).
           unfold gen_measure in *.
           assert (Hall : all_cells (Maze.set_cells m cs3) = all_cells m) by done.
           rewrite Hall, Hvc.
           pose proof (length_filter_le (visited_at (Maze.set_cells m cs3))
                         (all_cells m)) as Hle.
           fold (visited_count (Maze.set_cells m cs3)) in Hle.
           unfold visited_count in Hle, Hvc. rewrite Hall in Hvc.
           rewrite !length_app in *. simpl in *.
           unfold visited_count in *. lia.
    + apply pop_last_None in Epop as ->.
      exists m. by simpl.
Qed.
End generate_keeps.

Lemma carve_enclosed m m' u d :
  inb m u -> inb m (move u d) -> carved m m' u d -> enclosed m -> enclosed m'.
Proof.
  intros Hu Hv Hc He p e Hp Hq.
  assert (Hp' : inb m p).
  { unfold inb in *. by rewrite <- (carved_width Hc), <- (carved_height Hc). }
  assert (Hq' : ¬ inb m (move p e)).
  { unfold inb in *. by rewrite <- (carved_width Hc), <- (carved_height Hc). }
  rewrite (carved_wall Hc) by done.
  destruct (decide _) as [[E|E]|_]; [| |by apply He].
  - apply pair_equal_spec in E as [-> ->]. done.
  - apply pair_equal_spec in E as [-> ->].
    rewrite move_opposite in Hq'. done.
Qed.

(** The constructed maze, beyond [generated]: the outer walls stand and
    the generator has marked every cell. *)
Lemma init_enclosed rnd w h cs m :
  Maze.__init__ rnd w h cs = Ok m -> enclosed m ∧ all_visited m.
Proof.
  intros E. pose proof (init_Ok_generated _ _ _ _ _ E) as (Hw & Hh & Hg).
  revert E. unfold Maze.__init__, Maze._generate_maze.
  set (m0 := {| Maze.width := w; Maze.height := h; Maze.cell_size := cs;
                Maze.cells := _; Maze.start := (0, 0);
                Maze.end_ := (w - 1, h - 1) |}).
  pose proof (shape_fresh_cells w h) as Hsh0.
  destruct (grid_update_ok _ _ _ Hsh0 0 0 (fun c => Cell.set_visited c true))
    as (cs0 & E0 & Hsh0' & H0a & H0b); [lia..|].
  change (Maze.cells m0) with (fresh_cells w h). rewrite E0. simpl.
  assert (Hinv0 : gen_inv (Maze.set_cells m0 cs0) [(0, 0)]).
  { apply gen_inv_init; simpl; done. }
  assert (Hfuel : (gen_measure (Maze.set_cells m0 cs0) [(0%Z, 0%Z)] <=
                   Maze.generate_fuel m0)%nat).
  { unfold gen_measure, Maze.generate_fuel. simpl.
    rewrite <- (gi_count Hinv0).
    change (all_cells (Maze.set_cells m0 cs0)) with (all_cells m0).
    rewrite length_all_cells by (simpl; lia). simpl.
    assert (0 < w * h) by lia. lia. }
  destruct (generate_loop_ok rnd (Maze.generate_fuel m0) 0
              (Maze.set_cells m0 cs0) [(0, 0)] Hinv0 Hfuel)
    as (m1 & E1 & Hinv1 & Hw1 & Hh1 & Hs1 & He1 & Hc1).
  assert (Henc0 : enclosed (Maze.set_cells m0 cs0)).
  { intros p d [Hp1 Hp2] _. unfold has_wall_at. simpl in *.
    destruct (decide (p = (0, 0))) as [->|Hne].
    - rewrite H0a, cell_of_fresh_cells by (simpl; lia). by destruct d.
    - rewrite H0b, cell_of_fresh_cells by done. by destruct d. }
  destruct (generate_loop_keeps enclosed carve_enclosed rnd
              (Maze.generate_fuel m0) 0 (Maze.set_cells m0 cs0) [(0, 0)]
              Hinv0 Henc0 Hfuel) as (m1' & E1' & Henc1).
  rewrite E1 in E1'. injection E1' as <-.
  rewrite E1. simpl in *.
  pose proof (gi_shape Hinv1) as Hsh1. rewrite Hs1, He1. simpl.
  rewrite Hw1, Hh1 in Hsh1.
  destruct (grid_update_ok _ _ _ Hsh1 0 0 (fun c => Cell.set_is_start c true))
    as (cs2 & E2 & Hsh2 & H2a & H2b); [lia..|].
  rewrite E2. simpl.
  destruct (grid_update_ok _ _ _ Hsh2 (w - 1) (h - 1)
              (fun c => Cell.set_is_end c true))
    as (cs3 & E3 & Hsh3 & H3a & H3b); [lia..|].
  rewrite E3. simpl. intros [= <-].
  assert (Hcell : ∀ p, inb m1 p ->
    cell_of cs3 p =
    (if decide (p = (w - 1, h - 1)) then fun c => Cell.set_is_end c true
     else fun c => c)
      ((if decide (p = (0, 0)) then fun c => Cell.set_is_start c true
        else fun c => c) (cell_of (Maze.cells m1) p))).
  { intros p [Hp1 Hp2]. rewrite Hw1, Hh1 in *.
    destruct (decide (p = (w - 1, h - 1))) as [->|Hne1].
    - rewrite H3a. f_equal.
      destruct (decide ((w - 1, h - 1) = (0, 0))) as [E|Hne2].
      + by rewrite E, H2a.
      + by rewrite H2b.
    - rewrite H3b by done.
      destruct (decide (p = (0, 0))) as [->|Hne2]; [done|].
      by rewrite H2b. }
  split.
  - intros p d Hp Hq. unfold has_wall_at. simpl.
    rewrite Hcell by done. specialize (Henc1 p d Hp Hq).
    unfold has_wall_at in Henc1. by repeat destruct (decide _).
  - intros p Hp. unfold visited_at. simpl.
    rewrite Hcell by done.
    pose proof (gen_inv_all_visited m1 p Hinv1 Hp) as Hv.
    unfold visited_at in Hv. by repeat destruct (decide _).
Qed.

(** ** Without cycles, a path without repetition is the only one *)

Lemma chain_reverse {A} (R : A -> A -> Prop) l :
  (∀ a b, a ∈ l -> R a b -> R b a) -> chain R l -> chain R (reverse l).
Proof.
  intros Hsym Hc. induction Hc as [|a|a b l Hab Hc IH].
  - constructor.
  - constructor.
  - assert (IH' : chain R (reverse (b :: l))).
    { apply IH. intros u v Hu. apply Hsym. by right. }
    rewrite reverse_cons. rewrite reverse_cons in IH' |- *.
    rewrite <- app_assoc. simpl.
    apply chain_snoc; [done|]. apply Hsym; [by left|done].
Qed.

Lemma chain_inb m a l p :
  inb m a -> chain (step m) (a :: l) -> p ∈ a :: l -> inb m p.
Proof.
  intros Ha Hc Hp. apply elem_of_cons in Hp as [->|Hp]; [done|].
  destruct (chain_tail_target _ _ _ _ Hc Hp) as (c & Hs).
  by eapply step_target_inb.
Qed.

Lemma first_common {A} `{EqDecision A} (P Q : list A) :
  (∃ z, z ∈ P ∧ z ∈ Q) ->
  ∃ P1 z P2, P = P1 ++ z :: P2 ∧ z ∈ Q ∧ ∀ w, w ∈ P1 -> w ∉ Q.
Proof.
  induction P as [|x P IH]; intros (z & Hz & HzQ).
  - by apply not_elem_of_nil in Hz.
  - destruct (decide (x ∈ Q)) as [Hx|Hx].
    + exists [], x, P. split; [done|]. split; [done|].
      intros w Hw. by apply not_elem_of_nil in Hw.
    + destruct IH as (P1 & z' & P2 & -> & Hz' & Hall).
      { exists z. split; [|done].
        apply elem_of_cons in Hz as [->|Hz]; done. }
      exists (x :: P1), z', P2. split; [done|]. split; [done|].
      intros w Hw. apply elem_of_cons in Hw as [->|Hw]; auto.
Qed.

Lemma last_cons_elem {A} (a : A) l b :
  l ≠ [] -> last (a :: l) = Some b -> b ∈ l.
Proof.
  intros Hne Hl. destruct l as [|c l]; [done|].
  rewrite last_cons_cons in Hl. apply last_Some in Hl as [l' ->].
  apply elem_of_app. right. by left.
Qed.

(** Two paths without repetition that leave [a] by different cells and
    end at the same cell close a cycle. *)
Lemma fork_cycle m a x y p q b :
  shape (Maze.width m) (Maze.height m) (Maze.cells m) ->
  symmetric_walls m -> inb m a -> x ≠ y ->
  chain (step m) (a :: x :: p) -> last (x :: p) = Some b ->
  NoDup (a :: x :: p) ->
  chain (step m) (a :: y :: q) -> last (y :: q) = Some b ->
  NoDup (a :: y :: q) ->
  ∃ c, cycle m c.
Proof.
  intros Hsh Hsym Ha Hxy Hcp Hlp Hnp Hcq Hlq Hnq.
  apply NoDup_cons in Hnp as [Hap Hnp]. apply NoDup_cons in Hnq as [Haq Hnq].
  assert (Hb : ∃ z, z ∈ x :: p ∧ z ∈ y :: q).
  { exists b. apply last_Some in Hlp as [lp Hlp]. apply last_Some in Hlq as [lq Hlq].
    rewrite Hlp, Hlq. split; apply elem_of_app; right; by left. }
  destruct (first_common _ _ Hb) as (P1 & z & P2 & EP & Hz & Hdisj).
  apply list_elem_of_split in Hz as (Q1 & Q2 & EQ).
  rewrite EP in Hcp, Hnp, Hap. rewrite EQ in Hcq, Hnq, Haq.
  assert (HzQ1 : z ∉ Q1).
  { apply NoDup_app in Hnq as (_ & Hq & _). intros Hin.
    apply (Hq z Hin). by left. }
  exists (a :: P1 ++ z :: reverse Q1), a, (P1 ++ z :: reverse Q1).
  split; [done|]. split; [|split].
  - rewrite length_app. simpl. rewrite length_reverse.
    destruct P1 as [|x' P1]; [|simpl; lia].
    destruct Q1 as [|y' Q1]; [|simpl; lia].
    simpl in EP, EQ. congruence.
  - apply NoDup_cons. split.
    + intros Hin. apply elem_of_app in Hin as [Hin|Hin].
      * apply Hap. apply elem_of_app. by left.
      * apply elem_of_cons in Hin as [->|Hin].
        -- apply Hap. apply elem_of_app. right. by left.
        -- rewrite elem_of_reverse in Hin. apply Haq.
           apply elem_of_app. by left.
    + apply NoDup_app. split; [|split].
      * by apply NoDup_app in Hnp as (? & _).
      * intros w Hw Hin. apply elem_of_cons in Hin as [->|Hin].
        -- apply NoDup_app in Hnp as (_ & Hp & _).
           apply (Hp z Hw). by left.
        -- rewrite elem_of_reverse in Hin. apply (Hdisj w Hw).
           rewrite EQ. apply elem_of_app. by left.
      * apply NoDup_cons. split.
        -- by rewrite elem_of_reverse.
        -- rewrite reverse_Permutation.
           by apply NoDup_app in Hnq as (? & _).
  - change ((a :: P1 ++ z :: reverse Q1) ++ [a])
      with (a :: (P1 ++ z :: reverse Q1) ++ [a]).
    rewrite <- app_assoc. simpl.
    change (a :: P1 ++ z :: reverse Q1 ++ [a])
      with ((a :: P1) ++ z :: reverse Q1 ++ [a]).
    apply chain_app.
    + change (a :: P1 ++ z :: P2) with ((a :: P1) ++ z :: P2) in Hcp.
      by apply chain_app_inv in Hcp as [? _].
    + change (a :: Q1 ++ z :: Q2) with ((a :: Q1) ++ z :: Q2) in Hcq.
      pose proof Hcq as Hcq'.
      apply chain_app_inv in Hcq as [Hcq _].
      replace (z :: reverse Q1 ++ [a]) with (reverse ((a :: Q1) ++ [z])).
      * apply chain_reverse; [|done]. intros u v Hu.
        apply step_symmetric; [done..|].
        apply (chain_inb m a (Q1 ++ z :: Q2)); [done..|].
        simpl in Hu. apply elem_of_cons in Hu as [->|Hu]; [by left|].
        right. apply elem_of_app in Hu as [Hu|Hu].
        -- apply elem_of_app. by left.
        -- apply list_elem_of_singleton in Hu as ->.
           apply elem_of_app. right. by left.
      * simpl. rewrite reverse_cons, reverse_app. by simpl.
Qed.

Lemma simple_chain_unique m b :
  shape (Maze.width m) (Maze.height m) (Maze.cells m) ->
  symmetric_walls m -> acyclic m ->
  ∀ p a q, inb m a ->
    chain (step m) (a :: p) -> last (a :: p) = Some b -> NoDup (a :: p) ->
    chain (step m) (a :: q) -> last (a :: q) = Some b -> NoDup (a :: q) ->
    p = q.
Proof.
  intros Hsh Hsym Hacyc.
  induction p as [|x p IH]; intros a q Ha Hcp Hlp Hnp Hcq Hlq Hnq.
  - destruct q as [|y q]; [done|]. simpl in Hlp. injection Hlp as <-.
    apply last_cons_elem in Hlq; [|done].
    by apply NoDup_cons in Hnq as [? _].
  - destruct q as [|y q].
    + simpl in Hlq. injection Hlq as <-.
      apply last_cons_elem in Hlp; [|done].
      by apply NoDup_cons in Hnp as [? _].
    + destruct (decide (x = y)) as [<-|Hxy].
      * f_equal. inversion Hcp; subst. inversion Hcq; subst.
        rewrite last_cons_cons in Hlp, Hlq.
        apply NoDup_cons in Hnp as [_ Hnp]. apply NoDup_cons in Hnq as [_ Hnq].
        apply (IH x); try done. by eapply step_target_inb.
      * rewrite last_cons_cons in Hlp, Hlq.
        destruct (fork_cycle m a x y p q b) as (c & Hc); try done.
        by apply Hacyc in Hc.
Qed.

Lemma simple_path_unique m a b p q :
  shape (Maze.width m) (Maze.height m) (Maze.cells m) ->
  symmetric_walls m -> acyclic m -> inb m a ->
  path m a b p -> NoDup p -> path m a b q -> NoDup q -> p = q.
Proof.
  intros Hsh Hsym Hacyc Ha (Hhp & Hlp & Hcp) Hnp (Hhq & Hlq & Hcq) Hnq.
  destruct p as [|a' p]; [done|]. injection Hhp as ->.
  destruct q as [|a' q]; [done|]. injection Hhq as ->.
  f_equal. by eapply simple_chain_unique.
Qed.

(** The graph does not depend on the end points. *)
Lemma with_ends_path m s e a b p : path (with_ends m s e) a b p ↔ path m a b p.
Proof. done. Qed.

Lemma with_ends_well_formed m a b :
  shape (Maze.width m) (Maze.height m) (Maze.cells m) -> inb m a ->
  well_formed (with_ends m a b).
Proof. intros Hsh Ha. by split. Qed.

(** ** The solvers read the walls, the dimensions and the end points only *)

Lemma foldM_ext {A B} (f g : B -> A -> result B) l :
  (∀ b a, f b a = g b a) -> ∀ b, foldM f b l = foldM g b l.
Proof.
  intros H. induction l as [|a l IH]; intros b; simpl; [done|].
  rewrite H. destruct (g b a); simpl; [apply IH|done].
Qed.

Lemma py_index_fmap {A B} (f : A -> B) (l : list A) i :
  py_index (f <$> l) i = x ← py_index l i; Ok (f x).
Proof.
  unfold py_index. rewrite length_fmap.
  destruct (py_norm (length l) i) as [j|]; [|done].
  rewrite list_lookup_fmap. by destruct (l !! j).
Qed.

Lemma grid_get_walls (cells : grid) x y :
  (c ← grid_get cells x y; Ok (Cell.walls c)) =
  (col ← py_index ((fun col : list Cell.t => Cell.walls <$> col) <$> cells) x;
   py_index col y).
Proof.
  unfold grid_get. rewrite py_index_fmap.
  destruct (py_index cells x) as [col|e]; simpl; [|done].
  by rewrite py_index_fmap.
Qed.

Lemma get_connected_neighbors_same m m' x y :
  same_layout m m' ->
  Maze._get_connected_neighbors m x y = Maze._get_connected_neighbors m' x y.
Proof.
  intros (Hw & Hh & _ & _ & Hwalls).
  pose proof (grid_get_walls (Maze.cells m) x y) as E.
  pose proof (grid_get_walls (Maze.cells m') x y) as E'.
  unfold wall_grid in Hwalls. rewrite Hwalls, <- E' in E. clear E' Hwalls.
  unfold Maze._get_connected_neighbors. apply foldM_ext.
  intros acc d. destruct (Direction.value d) as [dx dy].
  unfold Maze.in_bounds. rewrite Hw, Hh.
  destruct (_ && _); [|done].
  destruct (grid_get (Maze.cells m) x y) as [c|e],
           (grid_get (Maze.cells m') x y) as [c'|e']; simpl in *;
    try congruence.
  unfold Cell.has_wall. by injection E as ->.
Qed.

Lemma search_loop_same pop m m' fuel :
  same_layout m m' -> ∀ Q V,
  Maze.search_loop pop fuel m Q V = Maze.search_loop pop fuel m' Q V.
Proof.
  intros Hs. pose proof Hs as (_ & _ & _ & He & _).
  induction fuel as [|fuel IH]; intros Q V; simpl.
  - destruct (pop Q) as [[[[x y] p] rest]|]; [|done]. by rewrite He.
  - destruct (pop Q) as [[[[x y] p] rest]|]; [|done]. rewrite He.
    destruct (decide _); [done|].
    rewrite (get_connected_neighbors_same m m') by done.
    destruct (Maze._get_connected_neighbors m' x y) as [l|e]; simpl; [|done].
    destruct (fold_left _ _ _). apply IH.
Qed.

Lemma astar_loop_same m m' fuel :
  same_layout m m' -> ∀ st,
  Maze.astar_loop fuel m st = Maze.astar_loop fuel m' st.
Proof.
  intros Hs. pose proof Hs as (Hw & Hh & Hst & He & _).
  induction fuel as [|fuel IH]; intros st; simpl.
  - destruct (Maze.heappop _) as [[[f cur] rest]|]; [|done].
    by rewrite He, Hw, Hh, Hst.
  - destruct (Maze.heappop _) as [[[f cur] rest]|]; [|done].
    rewrite He, Hw, Hh, Hst. destruct (decide _); [done|].
    rewrite (get_connected_neighbors_same m m') by done.
    destruct (Maze._get_connected_neighbors m' _ _) as [l|e]; simpl; [|done].
    rewrite (foldM_ext (Maze.relax m cur) (Maze.relax m' cur)).
    + destruct (foldM _ _ _); simpl; [apply IH|done].
    + intros b a. unfold Maze.relax. by rewrite He.
Qed.

Lemma solver_same m m' solve :
  solve ∈ solvers -> same_layout m m' -> solve m = solve m'.
Proof.
  intros Hin Hs. pose proof Hs as (Hw & Hh & Hst & He & _).
  unfold solvers in Hin.
  apply elem_of_cons in Hin as [->|Hin]; [|apply elem_of_cons in Hin as [->|Hin]].
  - unfold Maze.solve_bfs, Maze.search_fuel. rewrite Hw, Hh, Hst.
    by apply search_loop_same.
  - unfold Maze.solve_dfs, Maze.search_fuel. rewrite Hw, Hh, Hst.
    by apply search_loop_same.
  - apply list_elem_of_singleton in Hin as ->.
    unfold Maze.solve_astar, Maze.astar_fuel. rewrite Hw, Hh, Hst, He.
    by apply astar_loop_same.
Qed.

Lemma repainted_same_layout m cs : same_layout m (repainted m cs).
Proof.
  repeat split. unfold wall_grid, repainted. simpl.
  rewrite <- list_fmap_compose. apply list_fmap_ext. intros _ col _. simpl.
  rewrite <- list_fmap_compose. by apply list_fmap_ext.
Qed.

(** ** The states of the game *)

(** *** Construction and restart *)

Lemma game_inv_shape g :
  game_inv g ->
  Maze.width (MazeGame.maze g) = MazeGame.width g ∧
  Maze.height (MazeGame.maze g) = MazeGame.height g ∧
  shape (Maze.width (MazeGame.maze g)) (Maze.height (MazeGame.maze g))
    (Maze.cells (MazeGame.maze g)).
Proof.
  intros Hg. pose proof (gv_maze Hg) as Hm.
  rewrite (gen_width Hm), (gen_height Hm).
  split; [done|]. split; [done|]. apply (gen_shape Hm).
Qed.

Lemma game_inv_well_formed g : game_inv g -> well_formed (MazeGame.maze g).
Proof.
  intros Hg. destruct (gv_dims Hg).
  by eapply generated_well_formed, (gv_maze Hg).
Qed.

Lemma reset_game_ok rnd g :
  0 < MazeGame.width g -> 0 < MazeGame.height g ->
  MazeGame.screen_width g = MazeGame.width g * MazeGame.cell_size g + 100 ->
  MazeGame.screen_height g = MazeGame.height g * MazeGame.cell_size g + 100 ->
  ∃ g', MazeGame.reset_game rnd g = Ok g' ∧ game_inv g' ∧
        Maze.__init__ rnd (MazeGame.width g) (MazeGame.height g)
          (MazeGame.cell_size g) = Ok (MazeGame.maze g') ∧
        MazeGame.width g' = MazeGame.width g ∧
        MazeGame.height g' = MazeGame.height g ∧
        MazeGame.cell_size g' = MazeGame.cell_size g ∧
        MazeGame.player_pos g' = (0, 0) ∧ MazeGame.path g' = [] ∧
        MazeGame.solution g' = [] ∧ MazeGame.lives g' = 3 ∧
        MazeGame.game_over g' = false ∧ MazeGame.show_solution g' = false ∧
        MazeGame.solving_algorithm g' = "BFS"%string.
Proof.
  intros Hw Hh Hsw Hsh. unfold MazeGame.reset_game.
  destruct (init_generated rnd (MazeGame.width g) (MazeGame.height g)
              (MazeGame.cell_size g) Hw Hh) as (m & E & Hm).
  rewrite E. simpl. eexists. split; [done|].
  destruct (init_enclosed _ _ _ _ _ E) as [Henc _].
  split; [|by rewrite (gen_start Hm)].
  split; simpl; try done.
  - rewrite (gen_start Hm). unfold inb.
    rewrite (gen_width Hm), (gen_height Hm). simpl. lia.
  - by right.
  - by left.
  - by left.
Qed.

Lemma init_game_ok set_mode rnd w h cs :
  set_mode (w * cs + 100, h * cs + 100) = Ok () -> 0 < w -> 0 < h ->
  ∃ g, MazeGame.__init__ set_mode rnd w h cs = Ok g ∧ game_inv g ∧
       Maze.__init__ rnd w h cs = Ok (MazeGame.maze g) ∧
       MazeGame.width g = w ∧ MazeGame.height g = h ∧
       MazeGame.cell_size g = cs ∧
       MazeGame.player_pos g = (0, 0) ∧ MazeGame.path g = [] ∧
       MazeGame.solution g = [] ∧ MazeGame.lives g = 3 ∧
       MazeGame.game_over g = false ∧ MazeGame.show_solution g = false ∧
       MazeGame.solving_algorithm g = "BFS"%string.
Proof.
  intros Hset Hw Hh. unfold MazeGame.__init__. rewrite Hset.
  by apply reset_game_ok.
Qed.

(** *** Moves *)

Lemma blocked_ok g b d :
  game_inv g ->
  MazeGame.blocked g (MazeGame.player_pos g).1 (MazeGame.player_pos g).2 b d =
  Ok (b && has_wall_at (MazeGame.maze g) (MazeGame.player_pos g) d).
Proof.
  intros Hg. destruct (game_inv_shape g Hg) as (_ & _ & Hsh).
  unfold MazeGame.blocked. destruct b; [|done].
  rewrite (grid_get_ok _ _ _ Hsh) by apply (gv_pos Hg).
  by destruct (MazeGame.player_pos g).
Qed.

Lemma move_player_spec g d :
  game_inv g ->
  MazeGame.move_player g (Direction.value d).1 (Direction.value d).2 =
  Ok (if can_move g d then moved g d else g).
Proof.
  intros Hg. destruct (game_inv_shape g Hg) as (Hw & Hh & Hsh).
  pose proof (blocked_ok g) as Hb.
  unfold MazeGame.move_player, can_move, moved, Maze.in_bounds, move.
  destruct (MazeGame.game_over g); [done|].
  destruct (MazeGame.player_pos g) as [x y] eqn:Epos.
  rewrite Hw, Hh. cbn [fst snd] in *.
  destruct (0 <=? x + (Direction.value d).1),
           (x + (Direction.value d).1 <? MazeGame.width g),
           (0 <=? y + (Direction.value d).2),
           (y + (Direction.value d).2 <? MazeGame.height g);
    cbn [negb andb]; try done.
  rewrite !Hb by done.
  destruct d; cbn [Direction.value fst snd Z.ltb Z.compare andb mbind
                   result_bind negb];
    destruct (has_wall_at _ _ _); cbn [negb]; rewrite ?Epos; try done;
    cbn [MazeGame.maze MazeGame.set_path MazeGame.set_player_pos];
    by destruct (decide _).
Qed.

Lemma game_inv_moved g d :
  game_inv g -> can_move g d = true -> game_inv (moved g d).
Proof.
  intros Hg Hc. unfold can_move in Hc.
  apply andb_true_iff in Hc as [Hc Hwall].
  apply andb_true_iff in Hc as [Hover Hin].
  apply in_bounds_spec in Hin. rewrite <- surjective_pairing in Hin.
  apply negb_true_iff in Hover.
  assert (Hl : MazeGame.lives g ≠ 0).
  { intros E. apply (gv_dead Hg) in E. congruence. }
  unfold moved. destruct (decide _) as [E|E].
  - split; simpl; try apply Hg; try done.
    + apply Forall_app. split; [apply Hg|]. apply Forall_singleton, Hg.
    + intros _. by left.
    + intros _. by left.
  - split; simpl; try apply Hg; try done.
    + apply Forall_app. split; [apply Hg|]. apply Forall_singleton, Hg.
    + congruence.
Qed.

Lemma move_player_ok g d :
  game_inv g ->
  ∃ g', MazeGame.move_player g (Direction.value d).1 (Direction.value d).2
        = Ok g' ∧ game_inv g'.
Proof.
  intros Hg. rewrite move_player_spec by done. eexists. split; [done|].
  destruct (can_move g d) eqn:E; [by apply game_inv_moved|done].
Qed.

(** *** Solving *)

Lemma solve_maze_ok g :
  game_inv g ->
  ∃ p, MazeGame.solve_maze g =
       Ok (MazeGame.set_show_solution (MazeGame.set_solution g p) true) ∧
       path (MazeGame.maze g) (Maze.start (MazeGame.maze g))
         (Maze.end_ (MazeGame.maze g)) p ∧ NoDup p ∧
       ∃ solve, solve ∈ solvers ∧ solve (MazeGame.maze g) = Ok p.
Proof.
  intros Hg. pose proof (game_inv_well_formed g Hg) as Hwf.
  assert (Hreach : reachable (MazeGame.maze g) (Maze.start (MazeGame.maze g))
                     (Maze.end_ (MazeGame.maze g))).
  { pose proof (gv_maze Hg) as Hm. apply (gen_connected Hm).
    - apply Hwf.
    - rewrite (gen_end Hm). unfold inb.
      rewrite (gen_width Hm), (gen_height Hm). simpl.
      destruct (gv_dims Hg). lia. }
  assert (Hsolve : ∀ solve, solve ∈ solvers ->
            ∃ p, solve (MazeGame.maze g) = Ok p ∧
                 path (MazeGame.maze g) (Maze.start (MazeGame.maze g))
                   (Maze.end_ (MazeGame.maze g)) p ∧ NoDup p).
  { intros solve Hin. destruct (solver_ok _ solve Hwf Hin) as (p & E & Hr).
    exists p. split; [done|]. by destruct Hr as [[_ Hn]|Hr]. }
  unfold MazeGame.solve_maze. pose proof (gv_algorithm Hg) as Ha.
  apply elem_of_cons in Ha as [Ha|Ha]; [|apply elem_of_cons in Ha as [Ha|Ha]].
  - destruct (Hsolve Maze.solve_bfs) as (p & E & Hp & Hn); [by left|].
    rewrite Ha. simpl. rewrite E. simpl. exists p. split; [done|]. split; [done|]. split; [done|].
    exists Maze.solve_bfs. split; [by left|done].
  - destruct (Hsolve Maze.solve_dfs) as (p & E & Hp & Hn); [by right; left|].
    rewrite Ha. simpl. rewrite E. simpl. exists p. split; [done|]. split; [done|]. split; [done|].
    exists Maze.solve_dfs. split; [by right; left|done].
  - apply list_elem_of_singleton in Ha.
    destruct (Hsolve Maze.solve_astar) as (p & E & Hp & Hn);
      [by right; right; left|].
    rewrite Ha. simpl. rewrite E. simpl. exists p. split; [done|]. split; [done|]. split; [done|].
    exists Maze.solve_astar. split; [by right; right; left|done].
Qed.

Lemma game_inv_solved g p :
  game_inv g ->
  path (MazeGame.maze g) (Maze.start (MazeGame.maze g))
    (Maze.end_ (MazeGame.maze g)) p -> NoDup p ->
  game_inv (MazeGame.set_show_solution (MazeGame.set_solution g p) true).
Proof.
  intros Hg Hp Hn. split; simpl; try apply Hg. by right.
Qed.

Lemma game_inv_select g name :
  game_inv g -> name ∈ ["BFS"; "DFS"; "A*"]%string ->
  game_inv (MazeGame.select_algorithm g name).
Proof.
  intros Hg Hn. split; simpl; try apply Hg; [by left|done].
Qed.

(** *** The check of every frame *)

Lemma index_ok {A} `{EqDecision A} (l : list A) (v : A) :
  v ∈ l ->
  ∃ i, index l v = Ok i ∧ l !! i = Some v ∧ v ∉ take i l.
Proof.
  induction l as [|a l IH]; intros Hin; [by apply not_elem_of_nil in Hin|].
  simpl. destruct (decide (a = v)) as [->|Hne].
  - exists O. split; [done|]. split; [done|]. simpl. apply not_elem_of_nil.
  - apply elem_of_cons in Hin as [->|Hin]; [done|].
    destruct (IH Hin) as (i & -> & Hi & Hni). exists (S i).
    split; [done|]. split; [done|]. simpl.
    intros H'. apply elem_of_cons in H' as [->|H']; done.
Qed.

Lemma index_raises {A} `{EqDecision A} (l : list A) (v : A) :
  v ∉ l -> index l v = Raise ValueError.
Proof.
  induction l as [|a l IH]; intros Hin; [done|]. simpl.
  apply not_elem_of_cons in Hin as [Hne Hin].
  destruct (decide (a = v)); [done|]. by rewrite IH.
Qed.

Lemma elem_of_but_last {A} (l : list A) v : v ∈ but_last l -> v ∈ l.
Proof. unfold but_last. apply subseteq_take. Qed.

Lemma elem_of_last_n {A} n (l : list A) v : v ∈ last_n n l -> v ∈ l.
Proof. unfold last_n. apply subseteq_drop. Qed.

Lemma game_inv_lose_life g :
  game_inv g -> MazeGame.game_over g = false ->
  game_inv (MazeGame.lose_life g).
Proof.
  intros Hg Hover.
  assert (Hl : MazeGame.lives g ≠ 0).
  { intros E. apply (gv_dead Hg) in E. congruence. }
  pose proof (gv_lives Hg) as Hl'.
  unfold MazeGame.lose_life. simpl.
  destruct (MazeGame.lives g - 1 <=? 0) eqn:E.
  - apply Z.leb_le in E.
    split; simpl; try apply Hg; try done; try lia.
  - apply Z.leb_gt in E.
    split; simpl; try apply Hg; try done; try lia. congruence.
Qed.

Lemma lose_life_fields g :
  MazeGame.maze (MazeGame.lose_life g) = MazeGame.maze g ∧
  MazeGame.path (MazeGame.lose_life g) = MazeGame.path g ∧
  MazeGame.player_pos (MazeGame.lose_life g) = MazeGame.player_pos g ∧
  MazeGame.lives (MazeGame.lose_life g) = MazeGame.lives g - 1 ∧
  MazeGame.width (MazeGame.lose_life g) = MazeGame.width g ∧
  MazeGame.height (MazeGame.lose_life g) = MazeGame.height g ∧
  (MazeGame.game_over (MazeGame.lose_life g) = true ->
   MazeGame.game_over g = true ∨ MazeGame.lives g - 1 <= 0).
Proof.
  unfold MazeGame.lose_life. simpl.
  destruct (_ <=? _) eqn:E; repeat split; simpl; auto.
  apply Z.leb_le in E. auto.
Qed.

Lemma check_path_checked g :
  ∃ g', MazeGame.check_path g = Ok g' ∧ checked g g'.
Proof.
  unfold MazeGame.check_path.
  destruct (MazeGame.game_over g) eqn:Hover; simpl.
  { exists g. split; [done|constructor]. }
  destruct (bool_decide _); simpl; [|exists g; split; [done|constructor]].
  destruct (MazeGame.player_pos g) as [x y] eqn:Epos.
  destruct (bool_decide ((x, y) ∈ but_last _)) eqn:E1.
  - apply bool_decide_eq_true in E1.
    destruct (bool_decide ((x, y) ∈ last_n 5 _)) eqn:E2;
      [|exists g; split; [done|constructor]].
    apply bool_decide_eq_true in E2.
    destruct (lose_life_fields g) as (Hm & Hp & _).
    rewrite Hp.
    destruct (index_ok (MazeGame.path g) (x, y)) as (i & -> & Hi & Hni).
    { by apply elem_of_but_last. }
    simpl. eexists. split; [done|].
    rewrite <- Epos in *. by apply checked_back.
  - apply bool_decide_eq_false in E1.
    destruct (_ <? _) eqn:E3; [|exists g; split; [done|constructor]].
    apply Z.ltb_lt in E3. eexists. split; [done|].
    destruct (lose_life_fields g) as (-> & _).
    rewrite <- Epos in *. by apply checked_long.
Qed.

Lemma game_inv_checked g g' : game_inv g -> checked g g' -> game_inv g'.
Proof.
  intros Hg Hc. destruct Hc as [|i Hover Hin Hi Hni|Hover Hnin Hlen]; [done|..].
  - pose proof (game_inv_lose_life g Hg Hover) as Hg'.
    destruct (lose_life_fields g) as (Hm & Hp & Hpos & _).
    split; simpl; try apply Hg'.
    rewrite Hm. apply Forall_take, Hg.
  - pose proof (game_inv_lose_life g Hg Hover) as Hg'.
    destruct (lose_life_fields g) as (Hm & Hp & Hpos & _).
    split; simpl; try apply Hg'.
    + rewrite Hm. apply (game_inv_well_formed g Hg).
    + done.
    + intros Ho. right.
      destruct (lose_life_fields g) as (_ & _ & _ & Hl & _ & _ & Hlo).
      pose proof (gv_lives Hg') as Hl'.
      destruct (Hlo Ho) as [E|E]; [congruence|lia].
    + rewrite Hm. intros E. by right.
Qed.

(** *** Drawing *)

Lemma fold_row {C} (f : Z -> result (list C)) ys :
  (∀ y, y ∈ ys -> ∃ l, f y = Ok l) -> ∀ acc,
  foldM (fun acc y => cmds ← f y; Ok (acc ++ cmds)) acc ys =
  Ok (acc ++ (ys ≫= fun y => match f y with Ok l => l | Raise _ => [] end)).
Proof.
  induction ys as [|y ys IH]; intros Hf acc; simpl.
  - by rewrite app_nil_r.
  - destruct (Hf y) as (l & E); [by left|]. rewrite E. simpl.
    rewrite IH by (intros; apply Hf; by right). by rewrite app_assoc.
Qed.

Lemma fold_cells {C} (f : Z -> Z -> result (list C)) xs ys :
  (∀ x y, x ∈ xs -> y ∈ ys -> ∃ l, f x y = Ok l) -> ∀ acc,
  foldM (fun acc x =>
           foldM (fun acc y => cmds ← f x y; Ok (acc ++ cmds)) acc ys)
    acc xs =
  Ok (acc ++ (list_prod xs ys ≫= fun p =>
                match f p.1 p.2 with Ok l => l | Raise _ => [] end)).
Proof.
  induction xs as [|x xs IH]; intros Hf acc; simpl.
  - by rewrite app_nil_r.
  - rewrite (fold_row (f x)) by (intros; apply Hf; [by left|done]). simpl.
    rewrite IH by (intros; apply Hf; [by right|done]).
    rewrite bind_app, app_assoc. do 2 f_equal. f_equal.
    clear. induction ys as [|y ys IH]; [done|].
    simpl map. rewrite !bind_cons. simpl. by f_equal.
Qed.

Lemma draw_cell_ok g p :
  game_inv g -> inb (MazeGame.maze g) p ->
  MazeGame.draw_cell g p.1 p.2 = Ok (cell_commands g p).
Proof.
  intros Hg Hp. destruct (game_inv_shape g Hg) as (_ & _ & Hsh).
  unfold cell_commands, MazeGame.draw_cell.
  by rewrite (grid_get_ok _ _ _ Hsh) by apply Hp.
Qed.

Lemma draw_ok g :
  game_inv g ->
  MazeGame.draw g =
  Ok ([MazeGame.Fill (255, 255, 255)] ++
      (all_cells (MazeGame.maze g) ≫= cell_commands g) ++
      MazeGame.draw_ui g ++ [MazeGame.Flip]).
Proof.
  intros Hg. destruct (game_inv_shape g Hg) as (Hw & Hh & Hsh).
  unfold MazeGame.draw.
  rewrite (fold_cells (MazeGame.draw_cell g)).
  - unfold all_cells. by rewrite Hw, Hh.
  - intros x y Hx Hy. exists (cell_commands g (x, y)).
    apply (draw_cell_ok g (x, y) Hg).
    unfold range in Hx, Hy. apply elem_of_seqZ in Hx, Hy.
    unfold inb. rewrite Hw, Hh. simpl. lia.
Qed.

(** *** Events, frames and the loop *)

Lemma handle_event_ok rnd running g ev :
  game_inv g ->
  ∃ running' g', MazeGame.handle_event rnd running g ev = Ok (running', g') ∧
                 game_inv g' ∧
                 MazeGame.width g' = MazeGame.width g ∧
                 MazeGame.height g' = MazeGame.height g ∧
                 MazeGame.cell_size g' = MazeGame.cell_size g.
Proof.
  intros Hg.
  assert (Hmove : ∀ d,
    ∃ g', MazeGame.move_player g (Direction.value d).1 (Direction.value d).2
          = Ok g' ∧ game_inv g' ∧
          MazeGame.width g' = MazeGame.width g ∧
          MazeGame.height g' = MazeGame.height g ∧
          MazeGame.cell_size g' = MazeGame.cell_size g).
  { intros d. rewrite move_player_spec by done. eexists. split; [done|].
    destruct (can_move g d) eqn:E; [|done].
    split; [by apply game_inv_moved|].
    unfold moved. by destruct (decide _). }
  destruct ev as [|k|]; simpl; [by exists false, g| |by exists running, g].
  destruct k; simpl; try destruct (MazeGame.game_over g) eqn:Hover; simpl;
    try (by exists false, g); try (by exists running, g).
  - destruct (reset_game_ok rnd g) as (g' & -> & Hg' & _ & ? & ? & ? & _);
      try apply Hg. by exists running, g'.
  - destruct (reset_game_ok rnd g) as (g' & -> & Hg' & _ & ? & ? & ? & _);
      try apply Hg. by exists running, g'.
  - destruct (Hmove Direction.NORTH) as (g' & E & ?). simpl in E.
    rewrite E. by exists running, g'.
  - destruct (Hmove Direction.SOUTH) as (g' & E & ?). simpl in E.
    rewrite E. by exists running, g'.
  - destruct (Hmove Direction.WEST) as (g' & E & ?). simpl in E.
    rewrite E. by exists running, g'.
  - destruct (Hmove Direction.EAST) as (g' & E & ?). simpl in E.
    rewrite E. by exists running, g'.
  - destruct (solve_maze_ok g Hg) as (p & -> & Hp & Hn & _). simpl.
    eexists _, _. split; [done|]. split; [by apply game_inv_solved|done].
  - eexists _, _. split; [done|].
    split; [apply game_inv_select; [done|by left]|done].
  - eexists _, _. split; [done|].
    split; [apply game_inv_select; [done|by right; left]|done].
  - eexists _, _. split; [done|].
    split; [apply game_inv_select; [done|by right; right; left]|done].
Qed.

Lemma events_ok events : ∀ running g,
  game_inv g ->
  ∃ running' g',
    foldM (fun '(running, self) '(rnd, ev) =>
             MazeGame.handle_event rnd running self ev)
      (running, g) events = Ok (running', g') ∧
    game_inv g' ∧
    MazeGame.width g' = MazeGame.width g ∧
    MazeGame.height g' = MazeGame.height g ∧
    MazeGame.cell_size g' = MazeGame.cell_size g.
Proof.
  induction events as [|[rnd ev] events IH]; intros running g Hg; simpl.
  - by exists running, g.
  - destruct (handle_event_ok rnd running g ev Hg)
      as (r1 & g1 & -> & Hg1 & Hw1 & Hh1 & Hc1). simpl.
    destruct (IH r1 g1 Hg1) as (r2 & g2 & E & Hg2 & Hw2 & Hh2 & Hc2).
    exists r2, g2. split; [done|]. split; [done|]. split; [congruence|].
    split; congruence.
Qed.

Lemma checked_dims g g' :
  checked g g' ->
  MazeGame.width g' = MazeGame.width g ∧
  MazeGame.height g' = MazeGame.height g ∧
  MazeGame.cell_size g' = MazeGame.cell_size g ∧
  MazeGame.maze g' = MazeGame.maze g.
Proof.
  intros [| |]; [done|..]; unfold MazeGame.lose_life; simpl;
    by destruct (_ <=? _).
Qed.

Lemma frame_ok events running g :
  game_inv g ->
  ∃ running' g', MazeGame.frame events running g = Ok (running', g') ∧
                 game_inv g' ∧
                 MazeGame.width g' = MazeGame.width g ∧
                 MazeGame.height g' = MazeGame.height g ∧
                 MazeGame.cell_size g' = MazeGame.cell_size g.
Proof.
  intros Hg. unfold MazeGame.frame.
  destruct (events_ok events running g Hg)
    as (r1 & g1 & -> & Hg1 & Hw1 & Hh1 & Hc1). simpl.
  destruct (check_path_checked g1) as (g2 & -> & Hc). simpl.
  pose proof (game_inv_checked _ _ Hg1 Hc) as Hg2.
  rewrite (draw_ok g2 Hg2). simpl.
  destruct (checked_dims _ _ Hc) as (Hw2 & Hh2 & Hc2 & _).
  exists r1, g2. split; [done|]. split; [done|]. split; [congruence|].
  split; congruence.
Qed.

Lemma run_loop_ok frames : ∀ running g,
  game_inv g ->
  ∃ g', MazeGame.run_loop frames running g = Ok g' ∧ game_inv g' ∧
        MazeGame.width g' = MazeGame.width g ∧
        MazeGame.height g' = MazeGame.height g ∧
        MazeGame.cell_size g' = MazeGame.cell_size g.
Proof.
  induction frames as [|events frames IH]; intros running g Hg; simpl.
  - exists g. by destruct running.
  - destruct running; [|by exists g].
    destruct (frame_ok events true g Hg)
      as (r1 & g1 & -> & Hg1 & Hw1 & Hh1 & Hc1). simpl.
    destruct (IH r1 g1 Hg1) as (g2 & E & Hg2 & Hw2 & Hh2 & Hc2).
    exists g2. split; [done|]. split; [done|]. split; [congruence|].
    split; congruence.
Qed.

(** ** Directions, cells and neighbours *)

(** X1. [Direction(v)] returns the member whose value is [v], and a member
    is found again from its value; every other pair raises [ValueError]. *)
Theorem direction_of_value_inverse (v : Z * Z) (d : Direction.t) :
  (Direction.of_value v = Ok d ↔ Direction.value d = v) ∧
  ((∃ d', Direction.of_value v = Ok d') ∨
   Direction.of_value v = Raise ValueError).
Proof.
  split; [split|].
  - intros H. unfold Direction.of_value in H.
    destruct v as [[|[?|?|]|[?|?|]] [|[?|?|]|[?|?|]]];
      try discriminate; by injection H as <-.
  - intros <-. by destruct d.
  - unfold Direction.of_value.
    destruct v as [[|[?|?|]|[?|?|]] [|[?|?|]|[?|?|]]]; eauto.
Qed.

(** X2. [Direction.opposite] is an involution without fixed point, and the
    offset of the opposite direction is the negated offset. *)
Theorem opposite_negates_offset (d : Direction.t) :
  Direction.opposite (Direction.opposite d) = d ∧
  Direction.opposite d ≠ d ∧
  Direction.value (Direction.opposite d) =
    (- (Direction.value d).1, - (Direction.value d).2).
Proof. by destruct d. Qed.

Lemma has_wall_remove_walls ds : ∀ c e,
  Cell.has_wall (fold_left Cell.remove_wall ds c) e =
  if decide (e ∈ ds) then false else Cell.has_wall c e.
Proof.
  induction ds as [|d ds IH]; intros c e; simpl.
  - destruct (decide (e ∈ [])) as [H|_]; [by apply not_elem_of_nil in H|done].
  - rewrite IH, has_wall_remove_wall.
    destruct (decide (e ∈ ds)) as [H|H].
    + rewrite decide_True; [done|by right].
    + destruct (decide (d = e)) as [->|Hne].
      * rewrite decide_True; [done|by left].
      * rewrite decide_False; [done|].
        intros H'. apply elem_of_cons in H' as [->|H']; done.
Qed.

(** X3. A new cell has its four walls, and after any sequence of
    [remove_wall] calls [has_wall] is false exactly for the directions
    that were removed: removal is idempotent and the order is
    irrelevant. *)
Theorem walls_after_removals (x y : Z) (ds : list Direction.t)
    (e : Direction.t) :
  Cell.has_wall (fold_left Cell.remove_wall ds (Cell.__init__ x y)) e =
  bool_decide (e ∉ ds).
Proof.
  rewrite has_wall_remove_walls.
  destruct (decide (e ∈ ds)) as [H|H].
  - symmetry. apply bool_decide_eq_false. by intros H'.
  - rewrite bool_decide_eq_true_2 by done. by destruct e.
Qed.

(** X4. [_get_neighbors] returns, without repetition, exactly the cells of
    the grid at distance one of [(x, y)], whether or not [(x, y)] itself
    is on the grid. *)
Theorem get_neighbors_spec (m : Maze.t) (x y : Z) :
  (∀ q, q ∈ Maze._get_neighbors m x y ↔
        inb m q ∧ Z.abs (q.1 - x) + Z.abs (q.2 - y) = 1) ∧
  NoDup (Maze._get_neighbors m x y).
Proof.
  split.
  - intros q. rewrite (elem_of_get_neighbors m (x, y) q). split.
    + intros (d & -> & Hin). split; [done|].
      destruct d; unfold move; simpl; lia.
    + intros (Hin & Hd). destruct q as [qx qy]. simpl in Hd.
      assert (Hc : (qx = x + 0 ∧ qy = y + -1) ∨ (qx = x + 0 ∧ qy = y + 1) ∨
                   (qx = x + 1 ∧ qy = y + 0) ∨ (qx = x + -1 ∧ qy = y + 0))
        by lia.
      destruct Hc as [[-> ->]|[[-> ->]|[[-> ->]|[-> ->]]]].
      * by exists Direction.NORTH.
      * by exists Direction.SOUTH.
      * by exists Direction.EAST.
      * by exists Direction.WEST.
  - rewrite get_neighbors_eq. unfold move. simpl.
    repeat destruct (Maze.in_bounds m _ _); simpl;
      repeat (apply NoDup_cons; split;
              [rewrite ?elem_of_cons, elem_of_nil;
               intros H; repeat destruct H as [H|H];
               try (apply pair_equal_spec in H; lia); done|]);
      apply NoDup_nil_2.
Qed.

(** X5. Where no neighbour of [(x, y)] lies on the grid,
    [_get_connected_neighbors] returns the empty list and looks at no
    cell: this holds whatever the grid, even an empty one. *)
Theorem connected_neighbors_off_grid (m : Maze.t) (x y : Z) :
  (∀ d, ¬ inb m (move (x, y) d)) ->
  Maze._get_connected_neighbors m x y = Ok [].
Proof.
  intros H. unfold Maze._get_connected_neighbors.
  assert (Hd : ∀ d, Maze.in_bounds m (x + (Direction.value d).1)
                      (y + (Direction.value d).2) = false).
  { intros d. apply not_true_is_false. intros E.
    apply in_bounds_spec in E. by apply (H d). }
  pose proof (Hd Direction.NORTH) as HN. pose proof (Hd Direction.SOUTH) as HS.
  pose proof (Hd Direction.EAST) as HE. pose proof (Hd Direction.WEST) as HW.
  simpl in *. by rewrite HN, HS, HE, HW.
Qed.

Lemma connected_neighbors_off_grid_witness :
  (∀ d, ¬ inb walled_maze (move (5, 5) d)) ∧
  Maze._get_connected_neighbors walled_maze 5 5 = Ok [].
Proof.
  assert (H : ∀ d, ¬ inb walled_maze (move (5, 5) d)).
  { intros d. unfold inb. destruct d; simpl; lia. }
  split; [exact H|]. exact (connected_neighbors_off_grid walled_maze 5 5 H).
Defined.

(** X6. One column past the eastern edge [_get_connected_neighbors]
    raises [IndexError], but one column before the western edge the
    negative index wraps around: the cell of the last column is read, and
    the answer is the cell [(0, y)] when that cell has no east wall. *)
Theorem connected_neighbors_beside_grid (m : Maze.t) (y : Z) :
  shape (Maze.width m) (Maze.height m) (Maze.cells m) ->
  0 < Maze.width m -> 0 <= y < Maze.height m ->
  Maze._get_connected_neighbors m (Maze.width m) y = Raise IndexError ∧
  Maze._get_connected_neighbors m (-1) y =
    Ok (if has_wall_at m (Maze.width m - 1, y) Direction.EAST
        then [] else [(0, y)]).
Proof.
  intros Hsh Hw Hy. pose proof Hsh as [Hlen Hcols].
  assert (Hout : ∀ a b, ¬ inb m (a, b) -> Maze.in_bounds m a b = false).
  { intros a b H. apply not_true_is_false. intros E.
    by apply in_bounds_spec in E. }
  assert (Hin : ∀ a b, inb m (a, b) -> Maze.in_bounds m a b = true).
  { intros a b H. by apply in_bounds_spec. }
  unfold Maze._get_connected_neighbors. split.
  - simpl.
    rewrite (Hout (Maze.width m + 0)) by (unfold inb; simpl; lia).
    rewrite (Hout (Maze.width m + 0)) by (unfold inb; simpl; lia).
    rewrite (Hout (Maze.width m + 1)) by (unfold inb; simpl; lia).
    rewrite (Hin (Maze.width m + -1)) by (unfold inb; simpl; lia).
    simpl. unfold grid_get, py_index, py_norm. rewrite Hlen.
    rewrite (proj2 (Z.ltb_ge (Maze.width m) 0)) by lia.
    rewrite (proj2 (Z.ltb_ge (Maze.width m)
                      (Z.of_nat (Z.to_nat (Maze.width m))))) by lia.
    by rewrite andb_false_r.
  - simpl.
    replace (-1 + 1) with 0 by lia. rewrite Z.add_0_r.
    rewrite (Hin 0 y) by (unfold inb; simpl; lia).
    assert (E : grid_get (Maze.cells m) (-1) y =
                grid_get (Maze.cells m) (Maze.width m - 1) y).
    { unfold grid_get, py_index, py_norm. rewrite Hlen. simpl.
      rewrite (proj2 (Z.ltb_ge (Maze.width m - 1) 0)) by lia.
      by replace (-1 + Z.of_nat (Z.to_nat (Maze.width m)))
        with (Maze.width m - 1) by lia. }
    rewrite E, (grid_get_ok _ _ _ Hsh) by lia. simpl.
    unfold has_wall_at. by destruct (Cell.has_wall _ _).
Qed.

Lemma connected_neighbors_beside_grid_witness :
  shape (Maze.width example_maze) (Maze.height example_maze)
    (Maze.cells example_maze) ∧
  0 < Maze.width example_maze ∧ 0 <= 1 < Maze.height example_maze ∧
  Maze._get_connected_neighbors example_maze (Maze.width example_maze) 1
    = Raise IndexError ∧
  Maze._get_connected_neighbors example_maze (-1) 1 =
    Ok (if has_wall_at example_maze (Maze.width example_maze - 1, 1)
             Direction.EAST
        then [] else [(0, 1)]).
Proof.
  assert (H1 : shape (Maze.width example_maze) (Maze.height example_maze)
                 (Maze.cells example_maze))
    by apply example_maze_well_formed.
  assert (H2 : 0 < Maze.width example_maze) by (vm_compute; reflexivity).
  assert (H3 : 0 <= 1 < Maze.height example_maze)
    by (vm_compute; split; [discriminate|reflexivity]).
  split; [exact H1|]. split; [exact H2|]. split; [exact H3|].
  exact (connected_neighbors_beside_grid example_maze 1 H1 H2 H3).
Defined.

(** ** Constructed mazes *)

(** X7. The generator never removes an outer wall: in a constructed maze
    every side of a cell that faces outside the grid has its wall. *)
Theorem generated_maze_is_enclosed (rnd : nat -> nat) (w h cs : Z)
    (m : Maze.t) :
  Maze.__init__ rnd w h cs = Ok m -> enclosed m.
Proof. intros E. by apply init_enclosed in E as [? _]. Qed.

Lemma generated_maze_is_enclosed_witness :
  Maze.__init__ (fun k => k) 2 2 20 = Ok example_maze ∧
  enclosed example_maze.
Proof.
  assert (H : Maze.__init__ (fun k => k) 2 2 20 = Ok example_maze)
    by (vm_compute; reflexivity).
  split; [exact H|].
  exact (generated_maze_is_enclosed (fun k => k) 2 2 20 example_maze H).
Defined.

(** X8. The generator reaches every cell: in a constructed maze every cell
    of the grid is left with [visited] set. *)
Theorem generated_maze_all_visited (rnd : nat -> nat) (w h cs : Z)
    (m : Maze.t) :
  Maze.__init__ rnd w h cs = Ok m -> all_visited m.
Proof. intros E. by apply init_enclosed in E as [_ ?]. Qed.

Lemma generated_maze_all_visited_witness :
  Maze.__init__ (fun k => k) 2 2 20 = Ok example_maze ∧
  all_visited example_maze.
Proof.
  assert (H : Maze.__init__ (fun k => k) 2 2 20 = Ok example_maze)
    by (vm_compute; reflexivity).
  split; [exact H|].
  exact (generated_maze_all_visited (fun k => k) 2 2 20 example_maze H).
Defined.

Lemma simple_path_exists m a b :
  shape (Maze.width m) (Maze.height m) (Maze.cells m) -> inb m a ->
  reachable m a b -> ∃ p, path m a b p ∧ NoDup p.
Proof.
  intros Hsh Ha Hr.
  destruct (solve_dfs_ok (with_ends m a b)) as (p & _ & [[_ Hn]|Hp]).
  - by apply with_ends_well_formed.
  - done.
  - by exists p.
Qed.

Lemma generated_unique_path w h cs m a b :
  0 < w -> 0 < h -> generated w h cs m -> inb m a -> inb m b ->
  ∃ p, path m a b p ∧ NoDup p ∧ ∀ q, path m a b q -> NoDup q -> q = p.
Proof.
  intros Hw Hh Hg Ha Hb.
  destruct (generated_well_formed w h cs m Hw Hh Hg) as [Hsh _].
  destruct (simple_path_exists m a b Hsh Ha) as (p & Hp & Hn).
  { by apply (gen_connected Hg). }
  exists p. split; [done|]. split; [done|]. intros q Hq Hnq.
  apply (simple_path_unique m a b q p); try done.
  - apply (gen_symmetric Hg).
  - apply (gen_acyclic Hg).
Qed.

Lemma generated_solvers_agree w h cs m :
  0 < w -> 0 < h -> generated w h cs m ->
  ∃ p, (∀ solve, solve ∈ solvers -> solve m = Ok p) ∧
       path m (Maze.start m) (Maze.end_ m) p ∧ NoDup p ∧
       ∀ q, path m (Maze.start m) (Maze.end_ m) q -> NoDup q -> q = p.
Proof.
  intros Hw Hh Hg.
  pose proof (generated_well_formed w h cs m Hw Hh Hg) as Hwf.
  pose proof Hwf as [Hsh Hst].
  assert (Hend : inb m (Maze.end_ m)).
  { rewrite (gen_end Hg). unfold inb.
    rewrite (gen_width Hg), (gen_height Hg). simpl. lia. }
  destruct (generated_unique_path w h cs m (Maze.start m) (Maze.end_ m)
              Hw Hh Hg Hst Hend) as (p & Hp & Hn & Huniq).
  exists p. split; [|done].
  intros solve Hin. destruct (solver_ok m solve Hwf Hin) as (q & Eq & Hr).
  rewrite Eq. f_equal. destruct Hr as [[_ Hnr]|[Hq Hnq]].
  - destruct Hnr. by eapply path_reachable.
  - by apply Huniq.
Qed.

(** X9. In a constructed maze any two cells of the grid are joined by
    exactly one path without repeated cell. *)
Theorem generated_maze_unique_paths (rnd : nat -> nat) (w h cs : Z)
    (m : Maze.t) (a b : Z * Z) :
  Maze.__init__ rnd w h cs = Ok m -> inb m a -> inb m b ->
  ∃ p, path m a b p ∧ NoDup p ∧ ∀ q, path m a b q -> NoDup q -> q = p.
Proof.
  intros E Ha Hb. apply init_Ok_generated in E as (Hw & Hh & Hg).
  by apply (generated_unique_path w h cs).
Qed.

Lemma generated_maze_unique_paths_witness :
  Maze.__init__ (fun k => k) 2 2 20 = Ok example_maze ∧
  inb example_maze (0, 1) ∧ inb example_maze (1, 0) ∧
  ∃ p, path example_maze (0, 1) (1, 0) p ∧ NoDup p ∧
       ∀ q, path example_maze (0, 1) (1, 0) q -> NoDup q -> q = p.
Proof.
  assert (H : Maze.__init__ (fun k => k) 2 2 20 = Ok example_maze)
    by (vm_compute; reflexivity).
  assert (Ha : inb example_maze (0, 1))
    by (vm_compute; repeat split; discriminate).
  assert (Hb : inb example_maze (1, 0))
    by (vm_compute; repeat split; discriminate).
  split; [exact H|]. split; [exact Ha|]. split; [exact Hb|].
  exact (generated_maze_unique_paths (fun k => k) 2 2 20 example_maze
           (0, 1) (1, 0) H Ha Hb).
Defined.

(** X10. On a constructed maze the three solvers return the same path:
    the only path without repeated cell from the start to the end. *)
Theorem solvers_agree_on_generated (rnd : nat -> nat) (w h cs : Z)
    (m : Maze.t) :
  Maze.__init__ rnd w h cs = Ok m ->
  ∃ p, Maze.solve_bfs m = Ok p ∧ Maze.solve_dfs m = Ok p ∧
       Maze.solve_astar m = Ok p ∧
       path m (Maze.start m) (Maze.end_ m) p ∧ NoDup p ∧
       ∀ q, path m (Maze.start m) (Maze.end_ m) q -> NoDup q -> q = p.
Proof.
  intros E. apply init_Ok_generated in E as (Hw & Hh & Hg).
  destruct (generated_solvers_agree w h cs m Hw Hh Hg) as (p & Hsolve & Hp).
  exists p. split; [apply Hsolve; by left|].
  split; [apply Hsolve; by right; left|].
  split; [apply Hsolve; by right; right; left|]. done.
Qed.

Lemma solvers_agree_on_generated_witness :
  Maze.__init__ (fun k => k) 2 2 20 = Ok example_maze ∧
  ∃ p, Maze.solve_bfs example_maze = Ok p ∧
       Maze.solve_dfs example_maze = Ok p ∧
       Maze.solve_astar example_maze = Ok p ∧
       path example_maze (Maze.start example_maze)
         (Maze.end_ example_maze) p ∧ NoDup p ∧
       ∀ q, path example_maze (Maze.start example_maze)
              (Maze.end_ example_maze) q -> NoDup q -> q = p.
Proof.
  assert (H : Maze.__init__ (fun k => k) 2 2 20 = Ok example_maze)
    by (vm_compute; reflexivity).
  split; [exact H|].
  exact (solvers_agree_on_generated (fun k => k) 2 2 20 example_maze H).
Defined.

(** ** The solvers *)

(** X11. The solvers read the dimensions, the end points and the walls
    only: on two mazes that agree on these, whatever their [cell_size]
    and the other attributes of their cells, a solver returns the same
    result, exceptions included. *)
Theorem solvers_read_layout_only (m m' : Maze.t)
    (solve : Maze.t -> result (list (Z * Z))) :
  solve ∈ solvers -> same_layout m m' -> solve m = solve m'.
Proof. apply solver_same. Qed.

Lemma solvers_read_layout_only_witness :
  Maze.solve_astar ∈ solvers ∧
  same_layout example_maze (repainted example_maze 7) ∧
  Maze.solve_astar example_maze =
    Maze.solve_astar (repainted example_maze 7).
Proof.
  assert (H1 : Maze.solve_astar ∈ solvers) by (right; right; left).
  assert (H2 : same_layout example_maze (repainted example_maze 7))
    by (vm_compute; done).
  split; [exact H1|]. split; [exact H2|].
  exact (solvers_read_layout_only example_maze (repainted example_maze 7)
           Maze.solve_astar H1 H2).
Defined.

(** X12. On a well-formed maze every cell of the path a solver returns
    lies on the grid, and the path has at most [width * height] cells. *)
Theorem solver_paths_stay_on_grid (m : Maze.t)
    (solve : Maze.t -> result (list (Z * Z))) (p : list (Z * Z)) :
  well_formed m -> solve ∈ solvers -> solve m = Ok p ->
  Forall (inb m) p ∧ Z.of_nat (length p) <= Maze.width m * Maze.height m.
Proof.
  intros Hwf Hin E. destruct (solver_ok m solve Hwf Hin) as (p' & E' & Hr).
  rewrite E in E'. injection E' as <-.
  pose proof Hwf as [Hsh [Hx Hy]].
  assert (Hall : Forall (inb m) p).
  { destruct Hr as [[-> _]|[(Hh & _ & Hc) _]]; [constructor|].
    destruct p as [|a p]; [done|]. injection Hh as ->.
    apply Forall_forall. intros q Hq.
    by apply (chain_inb m (Maze.start m) p). }
  split; [done|].
  assert (Hle : (length p <= length (all_cells m))%nat).
  { apply submseteq_length, NoDup_submseteq.
    - destruct Hr as [[-> _]|[_ Hn]]; [constructor|done].
    - intros q Hq. apply elem_of_all_cells.
      by apply (proj1 (Forall_forall _ _) Hall). }
  rewrite length_all_cells in Hle by lia. nia.
Qed.

Lemma solver_paths_stay_on_grid_witness :
  well_formed example_maze ∧ Maze.solve_dfs ∈ solvers ∧
  Maze.solve_dfs example_maze = Ok [(0, 0); (0, 1); (1, 1)] ∧
  Forall (inb example_maze) [(0, 0); (0, 1); (1, 1)] ∧
  Z.of_nat (length [(0, 0); (0, 1); (1, 1)]) <=
    Maze.width example_maze * Maze.height example_maze.
Proof.
  assert (H1 : well_formed example_maze) by apply example_maze_well_formed.
  assert (H2 : Maze.solve_dfs ∈ solvers) by (right; left).
  assert (H3 : Maze.solve_dfs example_maze = Ok [(0, 0); (0, 1); (1, 1)])
    by (vm_compute; reflexivity).
  split; [exact H1|]. split; [exact H2|]. split; [exact H3|].
  exact (solver_paths_stay_on_grid example_maze Maze.solve_dfs
           [(0, 0); (0, 1); (1, 1)] H1 H2 H3).
Defined.

(** X13. The heuristic of [solve_astar] never overestimates: a path of
    the connectivity graph from [a] to [b] has at least
    [heuristic(a, b) + 1] cells, whatever the maze. *)
Theorem heuristic_is_admissible (m : Maze.t) (a b : Z * Z)
    (p : list (Z * Z)) :
  path m a b p -> Maze.heuristic a b + 1 <= Z.of_nat (length p).
Proof.
  intros (Hh & Hl & Hc). destruct p as [|a' p]; [done|].
  injection Hh as ->.
  pose proof (heuristic_chain m b p a Hc Hl). simpl length. lia.
Qed.

Lemma heuristic_is_admissible_witness :
  path example_maze (0, 0) (1, 1) [(0, 0); (0, 1); (1, 1)] ∧
  Maze.heuristic (0, 0) (1, 1) + 1 <=
    Z.of_nat (length [(0, 0); (0, 1); (1, 1)]).
Proof.
  assert (H : path example_maze (0, 0) (1, 1) [(0, 0); (0, 1); (1, 1)]).
  { split; [done|]. split; [done|].
    constructor; [|constructor; [|constructor]].
    - eexists. split; [vm_compute; reflexivity|]. by left.
    - eexists. split; [vm_compute; reflexivity|]. right. by left. }
  split; [exact H|].
  exact (heuristic_is_admissible example_maze (0, 0) (1, 1)
           [(0, 0); (0, 1); (1, 1)] H).
Defined.

(** X14. On a well-formed maze the path of [solve_dfs] is never shorter
    than the path of [solve_bfs], and one is empty exactly when the other
    is. *)
Theorem dfs_no_shorter_than_bfs (m : Maze.t) (pb pd : list (Z * Z)) :
  well_formed m -> Maze.solve_bfs m = Ok pb -> Maze.solve_dfs m = Ok pd ->
  (length pb <= length pd)%nat ∧ (pb = [] ↔ pd = []).
Proof.
  intros Hwf Eb Ed.
  destruct (solve_bfs_ok m Hwf) as (pb' & Eb' & Hrb & Hmin).
  rewrite Eb in Eb'. injection Eb' as <-.
  destruct (solve_dfs_ok m Hwf) as (pd' & Ed' & Hrd).
  rewrite Ed in Ed'. injection Ed' as <-.
  destruct Hrb as [[-> Hnb]|[Hpb _]], Hrd as [[-> Hnd]|[Hpd _]].
  - done.
  - destruct Hnb. by eapply path_reachable.
  - destruct Hnd. by eapply path_reachable.
  - split; [by apply Hmin|].
    split; intros ->; by apply path_nonempty in Hpb, Hpd.
Qed.

Lemma dfs_no_shorter_than_bfs_witness :
  well_formed example_maze ∧
  Maze.solve_bfs example_maze = Ok [(0, 0); (0, 1); (1, 1)] ∧
  Maze.solve_dfs example_maze = Ok [(0, 0); (0, 1); (1, 1)] ∧
  (length [(0, 0); (0, 1); (1, 1)] <=
   length [(0, 0); (0, 1); (1, 1)])%nat ∧
  ([(0, 0); (0, 1); (1, 1)] = [] ↔ [(0, 0); (0, 1); (1, 1)] = []).
Proof.
  assert (H1 : well_formed example_maze) by apply example_maze_well_formed.
  assert (H2 : Maze.solve_bfs example_maze = Ok [(0, 0); (0, 1); (1, 1)])
    by (vm_compute; reflexivity).
  assert (H3 : Maze.solve_dfs example_maze = Ok [(0, 0); (0, 1); (1, 1)])
    by (vm_compute; reflexivity).
  split; [exact H1|]. split; [exact H2|]. split; [exact H3|].
  exact (dfs_no_shorter_than_bfs example_maze [(0, 0); (0, 1); (1, 1)]
           [(0, 0); (0, 1); (1, 1)] H1 H2 H3).
Defined.

(** ** The game *)

Lemma game_init_raises set_mode rnd w h cs :
  w <= 0 ∨ h <= 0 ->
  MazeGame.__init__ set_mode rnd w h cs =
  Raise (match set_mode (w * cs + 100, h * cs + 100) with
         | Ok _ => IndexError
         | Raise e => e
         end).
Proof.
  intros H. unfold MazeGame.__init__, MazeGame.reset_game.
  destruct (set_mode _) as [u|e]; [|done]. simpl. by rewrite init_raises.
Qed.

Lemma game_init_Ok set_mode rnd w h cs g :
  MazeGame.__init__ set_mode rnd w h cs = Ok g ->
  0 < w ∧ 0 < h ∧ game_inv g.
Proof.
  intros E. destruct (decide (0 < w ∧ 0 < h)) as [[Hw Hh]|Hn].
  - destruct (set_mode (w * cs + 100, h * cs + 100)) as [[]|e] eqn:Hset.
    + destruct (init_game_ok set_mode rnd w h cs Hset Hw Hh)
        as (g' & E' & Hg & _).
      rewrite E in E'. by injection E' as <-.
    + unfold MazeGame.__init__ in E. by rewrite Hset in E.
  - rewrite game_init_raises in E by lia. done.
Qed.

Lemma reachable_game_inv g : reachable_game g -> game_inv g.
Proof.
  induction 1 as [set_mode rnd w h cs g E|rnd running g ev running' g' _ IH E
                  |g g' _ IH E].
  - by apply game_init_Ok in E as (_ & _ & ?).
  - destruct (handle_event_ok rnd running g ev IH) as (r & g1 & E1 & Hg1 & _).
    rewrite E in E1. by injection E1 as _ <-.
  - destruct (check_path_checked g) as (g1 & E1 & Hc).
    rewrite E in E1. injection E1 as <-. by eapply game_inv_checked.
Qed.

Lemma example_game_init :
  MazeGame.__init__ any_window (fun k => k) 2 2 20 = Ok example_game.
Proof. vm_compute. reflexivity. Qed.

Lemma example_game_reachable : reachable_game example_game.
Proof. eapply reach_init, example_game_init. Qed.

(** X15. With a width or a height that is not positive
    [MazeGame(width, height, cell_size)] always raises. The window is
    opened first: when [set_mode] raises, for a negative size for
    instance, its exception is the one raised; when the window opens,
    the [IndexError] of the maze's constructor is, which nothing
    catches. *)
Theorem game_init_fails_without_cells (set_mode : Z * Z -> result unit)
    (rnd : nat -> nat) (w h cs : Z) :
  w <= 0 ∨ h <= 0 ->
  MazeGame.__init__ set_mode rnd w h cs =
  Raise (match set_mode (w * cs + 100, h * cs + 100) with
         | Ok _ => IndexError
         | Raise e => e
         end).
Proof. apply game_init_raises. Qed.

Lemma game_init_fails_without_cells_witness :
  ((0 <= 0 ∨ 15 <= 0) ∧
   MazeGame.__init__ no_negative_window (fun k => k) 0 15 30
     = Raise IndexError) ∧
  ((-10 <= 0 ∨ 15 <= 0) ∧
   MazeGame.__init__ no_negative_window (fun k => k) (-10) 15 30
     = Raise PygameError).
Proof.
  assert (H : 0 <= 0 ∨ 15 <= 0) by (left; lia).
  assert (H' : -10 <= 0 ∨ 15 <= 0) by (left; lia).
  split.
  - split; [exact H|].
    exact (game_init_fails_without_cells no_negative_window (fun k => k)
             0 15 30 H).
  - split; [exact H'|].
    exact (game_init_fails_without_cells no_negative_window (fun k => k)
             (-10) 15 30 H').
Defined.

(** X16. Once its window is open the game never raises: when [set_mode]
    accepts the size of the window and the width and the height are
    positive, whatever the draws and the events of the frames, building
    the game and running it returns a state, in which the dimensions are
    the ones given, the player stands on the grid and between 0 and 3
    lives are left. The drawing of every frame is part of the run. *)
Theorem game_runs_without_exception (set_mode : Z * Z -> result unit)
    (rnd : nat -> nat) (w h cs : Z)
    (frames : list (list ((nat -> nat) * MazeGame.event))) :
  set_mode (w * cs + 100, h * cs + 100) = Ok () -> 0 < w -> 0 < h ->
  ∃ g, (g0 ← MazeGame.__init__ set_mode rnd w h cs;
        MazeGame.run frames g0) = Ok g ∧
       MazeGame.width g = w ∧ MazeGame.height g = h ∧
       MazeGame.cell_size g = cs ∧
       inb (MazeGame.maze g) (MazeGame.player_pos g) ∧
       0 <= MazeGame.lives g <= 3.
Proof.
  intros Hset Hw Hh.
  destruct (init_game_ok set_mode rnd w h cs Hset Hw Hh)
    as (g0 & -> & Hg0 & _ & Hw0 & Hh0 & Hc0 & _).
  simpl. unfold MazeGame.run.
  destruct (run_loop_ok frames true g0 Hg0) as (g & -> & Hg & Hw1 & Hh1 & Hc1).
  exists g. split; [done|]. split; [congruence|]. split; [congruence|].
  split; [congruence|]. split; [apply Hg|apply Hg].
Qed.

Lemma game_runs_without_exception_witness :
  no_negative_window (40 * 20 + 100, 35 * 20 + 100) = Ok () ∧
  0 < 40 ∧ 0 < 35 ∧
  ∃ g, MazeGame.main no_negative_window (fun k => k)
         [[(fun k => k, MazeGame.KEYDOWN MazeGame.K_DOWN)];
          [(fun k => S k, MazeGame.KEYDOWN MazeGame.K_r);
           (fun k => k, MazeGame.KEYDOWN MazeGame.K_s)];
          [(fun k => k, MazeGame.QUIT)]] = Ok g ∧
       MazeGame.width g = 40 ∧ MazeGame.height g = 35 ∧
       MazeGame.cell_size g = 20 ∧
       inb (MazeGame.maze g) (MazeGame.player_pos g) ∧
       0 <= MazeGame.lives g <= 3.
Proof.
  assert (H0 : no_negative_window (40 * 20 + 100, 35 * 20 + 100) = Ok ())
    by (vm_compute; reflexivity).
  assert (H1 : 0 < 40) by lia. assert (H2 : 0 < 35) by lia.
  split; [exact H0|]. split; [exact H1|]. split; [exact H2|].
  exact (game_runs_without_exception no_negative_window (fun k => k)
           40 35 20 _ H0 H1 H2).
Defined.

(** X17. In every state the game goes through, the player and the cells
    of its trail are on the grid, between 0 and 3 lives are left, the
    game is over when no life is left, and it is over only when no life
    is left or the player stands on the end cell; the player stands on
    the end cell only when the game is over, or in the maze of one
    cell. *)
Theorem game_state_invariant (g : MazeGame.t) :
  reachable_game g ->
  inb (MazeGame.maze g) (MazeGame.player_pos g) ∧
  Forall (inb (MazeGame.maze g)) (MazeGame.path g) ∧
  0 <= MazeGame.lives g <= 3 ∧
  (MazeGame.lives g = 0 -> MazeGame.game_over g = true) ∧
  (MazeGame.game_over g = true ->
   MazeGame.player_pos g = Maze.end_ (MazeGame.maze g) ∨
   MazeGame.lives g = 0) ∧
  (MazeGame.player_pos g = Maze.end_ (MazeGame.maze g) ->
   MazeGame.game_over g = true ∨
   MazeGame.width g * MazeGame.height g = 1).
Proof.
  intros Hr. apply reachable_game_inv in Hr as Hg.
  split; [apply Hg|]. split; [apply Hg|]. split; [apply Hg|].
  split; [apply Hg|]. split; [apply Hg|].
  intros E. destruct (gv_end Hg E) as [?|Hse]; [by left|right].
  pose proof (gv_maze Hg) as Hm. destruct (gv_dims Hg).
  rewrite (gen_start Hm), (gen_end Hm) in Hse.
  injection Hse as Hx Hy. nia.
Qed.

Lemma game_state_invariant_witness :
  reachable_game example_game ∧
  inb (MazeGame.maze example_game) (MazeGame.player_pos example_game) ∧
  Forall (inb (MazeGame.maze example_game)) (MazeGame.path example_game) ∧
  0 <= MazeGame.lives example_game <= 3 ∧
  (MazeGame.lives example_game = 0 ->
   MazeGame.game_over example_game = true) ∧
  (MazeGame.game_over example_game = true ->
   MazeGame.player_pos example_game =
     Maze.end_ (MazeGame.maze example_game) ∨
   MazeGame.lives example_game = 0) ∧
  (MazeGame.player_pos example_game =
     Maze.end_ (MazeGame.maze example_game) ->
   MazeGame.game_over example_game = true ∨
   MazeGame.width example_game * MazeGame.height example_game = 1).
Proof.
  assert (H : reachable_game example_game).
  { apply (reach_init any_window (fun k => k) 2 2 20). vm_compute. reflexivity. }
  split; [exact H|]. exact (game_state_invariant example_game H).
Defined.

(** *** Keys *)

Lemma handle_arrow rnd running g d :
  MazeGame.handle_event rnd running g (MazeGame.KEYDOWN (arrow d)) =
  g' ← MazeGame.move_player g (Direction.value d).1 (Direction.value d).2;
  Ok (running, g').
Proof.
  destruct d; simpl; unfold MazeGame.move_player;
    by destruct (MazeGame.game_over g).
Qed.

Lemma can_move_step g d :
  game_inv g ->
  can_move g d = true ↔
  MazeGame.game_over g = false ∧
  step (MazeGame.maze g) (MazeGame.player_pos g)
    (move (MazeGame.player_pos g) d).
Proof.
  intros Hg. destruct (game_inv_shape g Hg) as (_ & _ & Hsh).
  rewrite (step_spec _ _ _ Hsh (gv_pos Hg)). unfold can_move.
  rewrite !andb_true_iff, !negb_true_iff, in_bounds_spec.
  rewrite <- surjective_pairing. split.
  - intros [[Ho Hin] Hwall]. split; [done|]. by exists d.
  - intros (Ho & d' & Hd & Hin & Hwall).
    apply move_inj in Hd as <-. done.
Qed.

(** X18. An arrow key moves the player by one step of the connectivity
    graph or not at all: in every state the game goes through, the key
    of direction [d] leaves the game as it is when the game is over or
    the cell in that direction is not joined to the player's cell, and
    otherwise puts the player on that cell, appends the cell left to the
    trail and ends the game exactly when the end cell is reached. The
    maze and the lives are never changed. *)
Theorem arrow_keys_follow_the_maze (rnd : nat -> nat) (running : bool)
    (g : MazeGame.t) (d : Direction.t) :
  reachable_game g ->
  ∃ g', MazeGame.handle_event rnd running g (MazeGame.KEYDOWN (arrow d))
        = Ok (running, g') ∧
        MazeGame.maze g' = MazeGame.maze g ∧
        MazeGame.lives g' = MazeGame.lives g ∧
        ((g' = g ∧
          (MazeGame.game_over g = true ∨
           ¬ step (MazeGame.maze g) (MazeGame.player_pos g)
               (move (MazeGame.player_pos g) d))) ∨
         (step (MazeGame.maze g) (MazeGame.player_pos g)
            (move (MazeGame.player_pos g) d) ∧
          MazeGame.player_pos g' = move (MazeGame.player_pos g) d ∧
          MazeGame.path g' = MazeGame.path g ++ [MazeGame.player_pos g] ∧
          MazeGame.game_over g' =
            bool_decide (move (MazeGame.player_pos g) d =
                         Maze.end_ (MazeGame.maze g)))).
Proof.
  intros Hr. apply reachable_game_inv in Hr as Hg.
  rewrite handle_arrow, move_player_spec by done. simpl.
  pose proof (can_move_step g d Hg) as Hc.
  destruct (can_move g d) eqn:E.
  - destruct Hc as [Hc _]. destruct (Hc eq_refl) as [Ho Hs].
    exists (moved g d). unfold moved. split; [done|].
    destruct (decide _) as [He|He]; simpl.
    + split; [done|]. split; [done|]. right.
      by rewrite bool_decide_eq_true_2.
    + split; [done|]. split; [done|]. right.
      by rewrite bool_decide_eq_false_2.
  - exists g. split; [done|]. split; [done|]. split; [done|]. left.
    split; [done|]. destruct (MazeGame.game_over g) eqn:Ho; [by left|right].
    intros Hs. destruct Hc as [_ Hc]. by pose proof (Hc (conj eq_refl Hs)).
Qed.

Lemma arrow_keys_follow_the_maze_witness :
  reachable_game example_game ∧
  ∃ g', MazeGame.handle_event (fun k => k) true example_game
          (MazeGame.KEYDOWN (arrow Direction.SOUTH)) = Ok (true, g') ∧
        MazeGame.maze g' = MazeGame.maze example_game ∧
        MazeGame.lives g' = MazeGame.lives example_game ∧
        ((g' = example_game ∧
          (MazeGame.game_over example_game = true ∨
           ¬ step (MazeGame.maze example_game)
               (MazeGame.player_pos example_game)
               (move (MazeGame.player_pos example_game) Direction.SOUTH))) ∨
         (step (MazeGame.maze example_game)
            (MazeGame.player_pos example_game)
            (move (MazeGame.player_pos example_game) Direction.SOUTH) ∧
          MazeGame.player_pos g' =
            move (MazeGame.player_pos example_game) Direction.SOUTH ∧
          MazeGame.path g' =
            MazeGame.path example_game ++
            [MazeGame.player_pos example_game] ∧
          MazeGame.game_over g' =
            bool_decide
              (move (MazeGame.player_pos example_game) Direction.SOUTH =
               Maze.end_ (MazeGame.maze example_game)))).
Proof.
  assert (H : reachable_game example_game).
  { apply (reach_init any_window (fun k => k) 2 2 20). vm_compute. reflexivity. }
  split; [exact H|].
  exact (arrow_keys_follow_the_maze (fun k => k) true example_game
           Direction.SOUTH H).
Defined.

(** X19. Whatever algorithm is selected, the key [s] stores the same
    solution: in every state the game goes through, while the game is not
    over, it stores the path [solve_bfs] returns, which leads from the
    start of the maze to its end and which no path is shorter than, and
    it switches the display of the solution on. The player's position
    plays no part. *)
Theorem solve_key_stores_the_shortest_path (rnd : nat -> nat)
    (running : bool) (g : MazeGame.t) :
  reachable_game g -> MazeGame.game_over g = false ->
  ∃ p g',
    MazeGame.handle_event rnd running g (MazeGame.KEYDOWN MazeGame.K_s)
      = Ok (running, g') ∧
    g' = MazeGame.set_show_solution (MazeGame.set_solution g p) true ∧
    Maze.solve_bfs (MazeGame.maze g) = Ok p ∧
    path (MazeGame.maze g) (Maze.start (MazeGame.maze g))
      (Maze.end_ (MazeGame.maze g)) p ∧
    ∀ q, path (MazeGame.maze g) (Maze.start (MazeGame.maze g))
           (Maze.end_ (MazeGame.maze g)) q ->
         (length p <= length q)%nat.
Proof.
  intros Hr Ho. apply reachable_game_inv in Hr as Hg.
  destruct (gv_dims Hg) as [Hw Hh].
  destruct (generated_solvers_agree _ _ _ _ Hw Hh (gv_maze Hg))
    as (p & Hsolve & Hp & Hn & _).
  destruct (solve_maze_ok g Hg) as (p' & E & _ & _ & solve & Hin & Es).
  rewrite (Hsolve solve Hin) in Es. injection Es as <-.
  exists p, (MazeGame.set_show_solution (MazeGame.set_solution g p) true).
  simpl. rewrite Ho, E. simpl. split; [done|]. split; [done|].
  split; [apply Hsolve; by left|]. split; [done|].
  destruct (solve_bfs_ok _ (game_inv_well_formed g Hg)) as (pb & Eb & _ & Hmin).
  rewrite (Hsolve Maze.solve_bfs) in Eb by by left.
  by injection Eb as <-.
Qed.

Lemma solve_key_stores_the_shortest_path_witness :
  reachable_game example_game ∧ MazeGame.game_over example_game = false ∧
  ∃ p g',
    MazeGame.handle_event (fun k => k) true example_game
      (MazeGame.KEYDOWN MazeGame.K_s) = Ok (true, g') ∧
    g' = MazeGame.set_show_solution
           (MazeGame.set_solution example_game p) true ∧
    Maze.solve_bfs (MazeGame.maze example_game) = Ok p ∧
    path (MazeGame.maze example_game)
      (Maze.start (MazeGame.maze example_game))
      (Maze.end_ (MazeGame.maze example_game)) p ∧
    ∀ q, path (MazeGame.maze example_game)
           (Maze.start (MazeGame.maze example_game))
           (Maze.end_ (MazeGame.maze example_game)) q ->
         (length p <= length q)%nat.
Proof.
  assert (H : reachable_game example_game).
  { apply (reach_init any_window (fun k => k) 2 2 20). vm_compute. reflexivity. }
  assert (H' : MazeGame.game_over example_game = false)
    by (vm_compute; reflexivity).
  split; [exact H|]. split; [exact H'|].
  exact (solve_key_stores_the_shortest_path (fun k => k) true example_game
           H H').
Defined.

Lemma handle_event_over rnd running g ev :
  MazeGame.game_over g = true -> ev ≠ MazeGame.KEYDOWN MazeGame.K_r ->
  ∃ running', MazeGame.handle_event rnd running g ev = Ok (running', g).
Proof.
  intros Ho Hne. destruct ev as [|k|]; simpl; eauto.
  destruct k; simpl; rewrite ?Ho; simpl; eauto. done.
Qed.

Lemma events_over events : ∀ running g,
  MazeGame.game_over g = true -> Forall no_restart events ->
  ∃ running',
    foldM (fun '(running, self) '(rnd, ev) =>
             MazeGame.handle_event rnd running self ev)
      (running, g) events = Ok (running', g).
Proof.
  induction events as [|[rnd ev] events IH]; intros running g Ho Hall; simpl.
  - by exists running.
  - apply Forall_cons in Hall as [Hne Hall].
    destruct (handle_event_over rnd running g ev Ho Hne) as (r1 & ->).
    simpl. by apply IH.
Qed.

(** X20. Once the game is over only a restart changes it: in every state
    the game goes through in which the game is over, a frame whose events
    hold no key [r] leaves every attribute of the game as it is, whatever
    keys were pressed. *)
Theorem game_over_is_final
    (events : list ((nat -> nat) * MazeGame.event)) (running : bool)
    (g : MazeGame.t) :
  reachable_game g -> MazeGame.game_over g = true ->
  Forall no_restart events ->
  ∃ running', MazeGame.frame events running g = Ok (running', g).
Proof.
  intros Hr Ho Hall. apply reachable_game_inv in Hr as Hg.
  unfold MazeGame.frame.
  destruct (events_over events running g Ho Hall) as (r1 & ->). simpl.
  unfold MazeGame.check_path. rewrite Ho. simpl.
  rewrite (draw_ok g Hg). simpl. by exists r1.
Qed.

Lemma game_over_is_final_witness :
  reachable_game won_game ∧ MazeGame.game_over won_game = true ∧
  Forall no_restart
    [(fun k : nat => k, MazeGame.KEYDOWN MazeGame.K_LEFT);
     (fun k : nat => k, MazeGame.KEYDOWN MazeGame.K_3)] ∧
  ∃ running',
    MazeGame.frame
      [(fun k : nat => k, MazeGame.KEYDOWN MazeGame.K_LEFT);
       (fun k : nat => k, MazeGame.KEYDOWN MazeGame.K_3)] true won_game
    = Ok (running', won_game).
Proof.
  assert (H1 : reachable_game won_game).
  { eapply (reach_event (fun k => k) true _
              (MazeGame.KEYDOWN MazeGame.K_RIGHT) true).
    - eapply (reach_event (fun k => k) true example_game
                (MazeGame.KEYDOWN MazeGame.K_DOWN) true).
      + apply (reach_init any_window (fun k => k) 2 2 20). vm_compute. reflexivity.
      + vm_compute. reflexivity.
    - vm_compute. reflexivity. }
  assert (H2 : MazeGame.game_over won_game = true)
    by (vm_compute; reflexivity).
  assert (H3 : Forall no_restart
                 [(fun k : nat => k, MazeGame.KEYDOWN MazeGame.K_LEFT);
                  (fun k : nat => k, MazeGame.KEYDOWN MazeGame.K_3)]).
  { repeat constructor; unfold no_restart; simpl; discriminate. }
  split; [exact H1|]. split; [exact H2|]. split; [exact H3|].
  exact (game_over_is_final _ true won_game H1 H2 H3).
Defined.

Lemma handle_event_keeps rnd running g ev running' g' :
  game_inv g -> ev ≠ MazeGame.KEYDOWN MazeGame.K_r ->
  MazeGame.handle_event rnd running g ev = Ok (running', g') ->
  MazeGame.lives g' = MazeGame.lives g ∧
  MazeGame.maze g' = MazeGame.maze g.
Proof.
  intros Hg Hne E.
  assert (Hmove : ∀ d g1,
    MazeGame.move_player g (Direction.value d).1 (Direction.value d).2
      = Ok g1 ->
    MazeGame.lives g1 = MazeGame.lives g ∧
    MazeGame.maze g1 = MazeGame.maze g).
  { intros d g1. rewrite move_player_spec by done. intros [= <-].
    destruct (can_move g d); [|done]. unfold moved.
    by destruct (decide _). }
  destruct ev as [|k|]; simpl in E; try (by injection E as _ <-).
  destruct k; simpl in E; try done;
    destruct (MazeGame.game_over g) eqn:Ho; simpl in E;
    try (by injection E as _ <-).
  - destruct (MazeGame.move_player g 0 (-1)) as [g1|] eqn:E1; [|done].
    injection E as _ <-. by apply (Hmove Direction.NORTH).
  - destruct (MazeGame.move_player g 0 1) as [g1|] eqn:E1; [|done].
    injection E as _ <-. by apply (Hmove Direction.SOUTH).
  - destruct (MazeGame.move_player g (-1) 0) as [g1|] eqn:E1; [|done].
    injection E as _ <-. by apply (Hmove Direction.WEST).
  - destruct (MazeGame.move_player g 1 0) as [g1|] eqn:E1; [|done].
    injection E as _ <-. by apply (Hmove Direction.EAST).
  - destruct (solve_maze_ok g Hg) as (p & E1 & _). rewrite E1 in E.
    by injection E as _ <-.
Qed.

Lemma events_keep events : ∀ running g,
  game_inv g -> Forall no_restart events ->
  ∃ running' g',
    foldM (fun '(running, self) '(rnd, ev) =>
             MazeGame.handle_event rnd running self ev)
      (running, g) events = Ok (running', g') ∧
    game_inv g' ∧ MazeGame.lives g' = MazeGame.lives g ∧
    MazeGame.maze g' = MazeGame.maze g.
Proof.
  induction events as [|[rnd ev] events IH]; intros running g Hg Hall; simpl.
  - by exists running, g.
  - apply Forall_cons in Hall as [Hne Hall].
    destruct (handle_event_ok rnd running g ev Hg)
      as (r1 & g1 & E1 & Hg1 & _).
    destruct (handle_event_keeps _ _ _ _ _ _ Hg Hne E1) as [Hl1 Hm1].
    rewrite E1. simpl.
    destruct (IH r1 g1 Hg1 Hall) as (r2 & g2 & E2 & Hg2 & Hl2 & Hm2).
    exists r2, g2. split; [done|]. split; [done|]. split; congruence.
Qed.

Lemma checked_lives g g' :
  checked g g' ->
  MazeGame.lives g - 1 <= MazeGame.lives g' <= MazeGame.lives g.
Proof.
  intros [| |]; simpl; [lia|..];
    destruct (lose_life_fields g) as (_ & _ & _ & Hl & _); simpl; lia.
Qed.

(** X21. A frame costs one life at most: in every state the game goes
    through, a frame whose events hold no key [r] returns a state with the
    same maze and with the same number of lives or one less, however many
    keys were pressed. *)
Theorem frame_costs_one_life_at_most
    (events : list ((nat -> nat) * MazeGame.event)) (running : bool)
    (g : MazeGame.t) :
  reachable_game g -> Forall no_restart events ->
  ∃ running' g',
    MazeGame.frame events running g = Ok (running', g') ∧
    MazeGame.maze g' = MazeGame.maze g ∧
    MazeGame.lives g - 1 <= MazeGame.lives g' <= MazeGame.lives g.
Proof.
  intros Hr Hall. apply reachable_game_inv in Hr as Hg.
  unfold MazeGame.frame.
  destruct (events_keep events running g Hg Hall)
    as (r1 & g1 & -> & Hg1 & Hl1 & Hm1). simpl.
  destruct (check_path_checked g1) as (g2 & -> & Hc). simpl.
  rewrite (draw_ok g2 (game_inv_checked _ _ Hg1 Hc)). simpl.
  exists r1, g2. split; [done|].
  destruct (checked_dims _ _ Hc) as (_ & _ & _ & Hm2).
  pose proof (checked_lives _ _ Hc). split; [congruence|lia].
Qed.

Lemma frame_costs_one_life_at_most_witness :
  reachable_game example_game ∧
  Forall no_restart
    [(fun k : nat => k, MazeGame.KEYDOWN MazeGame.K_DOWN);
     (fun k : nat => k, MazeGame.KEYDOWN MazeGame.K_UP)] ∧
  ∃ running' g',
    MazeGame.frame
      [(fun k : nat => k, MazeGame.KEYDOWN MazeGame.K_DOWN);
       (fun k : nat => k, MazeGame.KEYDOWN MazeGame.K_UP)] true example_game
    = Ok (running', g') ∧
    MazeGame.maze g' = MazeGame.maze example_game ∧
    MazeGame.lives example_game - 1 <= MazeGame.lives g'
      <= MazeGame.lives example_game.
Proof.
  assert (H1 : reachable_game example_game).
  { apply (reach_init any_window (fun k => k) 2 2 20). vm_compute. reflexivity. }
  assert (H2 : Forall no_restart
                 [(fun k : nat => k, MazeGame.KEYDOWN MazeGame.K_DOWN);
                  (fun k : nat => k, MazeGame.KEYDOWN MazeGame.K_UP)]).
  { repeat constructor; unfold no_restart; simpl; discriminate. }
  split; [exact H1|]. split; [exact H2|].
  exact (frame_costs_one_life_at_most _ true example_game H1 H2).
Defined.

(** *** The check of a frame and the lives *)

(** X22. The check of a frame never raises, whatever the state, even one
    the game cannot reach: the position [index] looks for is always in
    the trail. It keeps the maze, never lengthens the trail, and either
    changes nothing or takes exactly one life, after which the player's
    cell is no longer among the cells of the trail before the last: the
    same step back is not charged again. *)
Theorem check_path_never_raises (g : MazeGame.t) :
  ∃ g', MazeGame.check_path g = Ok g' ∧
        MazeGame.maze g' = MazeGame.maze g ∧
        (length (MazeGame.path g') <= length (MazeGame.path g))%nat ∧
        (g' = g ∨
         (MazeGame.lives g' = MazeGame.lives g - 1 ∧
          MazeGame.player_pos g' ∉ but_last (MazeGame.path g'))).
Proof.
  destruct (check_path_checked g) as (g' & E & Hc). exists g'.
  split; [done|]. destruct (checked_dims _ _ Hc) as (_ & _ & _ & Hm).
  split; [done|].
  destruct Hc as [|i Hover Hin Hi Hni|Hover Hnin Hlen].
  - split; [done|by left].
  - destruct (lose_life_fields g) as (_ & _ & Hpos & Hl & _).
    simpl. split; [rewrite length_take; lia|]. right. split; [done|].
    rewrite Hpos. unfold but_last. rewrite length_take.
    apply lookup_lt_Some in Hi.
    rewrite take_take. by replace (_ `min` _)%nat with i by lia.
  - destruct (lose_life_fields g) as (_ & _ & Hpos & Hl & _).
    simpl. split; [lia|]. right. split; [done|]. apply not_elem_of_nil.
Qed.

Lemma check_path_short g :
  (length (MazeGame.path g) <= 1)%nat -> MazeGame.check_path g = Ok g.
Proof.
  intros H. unfold MazeGame.check_path.
  rewrite (bool_decide_eq_false_2 (1 < _)%nat) by lia.
  by rewrite andb_false_r.
Qed.

Lemma check_path_backstep g a b :
  MazeGame.game_over g = false -> MazeGame.path g = [a; b] ->
  MazeGame.player_pos g = a ->
  MazeGame.check_path g = Ok (MazeGame.set_path (MazeGame.lose_life g) [a]).
Proof.
  intros Ho Hp Hpos. unfold MazeGame.check_path.
  destruct (lose_life_fields g) as (_ & Hp' & _).
  rewrite Ho, Hp, Hpos, Hp', Hp. destruct a as [x y]. simpl.
  unfold but_last, last_n. simpl.
  rewrite !bool_decide_eq_true_2 by by left.
  by rewrite decide_True.
Qed.

(** X23. Stepping to a neighbouring cell and straight back costs a life:
    from a state the game goes through in which the trail is empty, as
    when the game starts, the key of a direction the player can move in,
    other than onto the end cell, followed in the next frame by the
    opposite key, leaves the player where it was with one life less and
    the trail reduced to that cell. *)
Theorem stepping_back_costs_a_life (r1 r2 : nat -> nat) (g : MazeGame.t)
    (d : Direction.t) :
  reachable_game g -> MazeGame.path g = [] -> can_move g d = true ->
  move (MazeGame.player_pos g) d ≠ Maze.end_ (MazeGame.maze g) ->
  ∃ g', MazeGame.run
          [[(r1, MazeGame.KEYDOWN (arrow d))];
           [(r2, MazeGame.KEYDOWN (arrow (Direction.opposite d)))]] g
        = Ok g' ∧
        MazeGame.lives g' = MazeGame.lives g - 1 ∧
        MazeGame.player_pos g' = MazeGame.player_pos g ∧
        MazeGame.path g' = [MazeGame.player_pos g] ∧
        MazeGame.maze g' = MazeGame.maze g.
Proof.
  intros Hr Hpath Hcan Hend. apply reachable_game_inv in Hr as Hg.
  destruct (game_inv_shape g Hg) as (Hw & Hh & Hsh).
  pose proof (proj1 (can_move_step g d Hg) Hcan) as [Ho Hs].
  set (g1 := MazeGame.set_path
               (MazeGame.set_player_pos g (move (MazeGame.player_pos g) d))
               [MazeGame.player_pos g]).
  assert (E1 : moved g d = g1).
  { unfold moved. rewrite decide_False by done. by rewrite Hpath. }
  assert (Hg1 : game_inv g1).
  { rewrite <- E1. by apply game_inv_moved. }
  assert (Hback : move (MazeGame.player_pos g1) (Direction.opposite d) =
                  MazeGame.player_pos g) by apply move_opposite.
  assert (Hcan1 : can_move g1 (Direction.opposite d) = true).
  { apply (can_move_step g1 _ Hg1). split; [done|]. rewrite Hback.
    apply step_symmetric; try done.
    - apply (gen_symmetric (gv_maze Hg)).
    - apply Hg. }
  assert (Hne : MazeGame.player_pos g ≠ Maze.end_ (MazeGame.maze g)).
  { intros E. destruct (gv_end Hg E) as [?|Hse]; [congruence|].
    pose proof (gv_maze Hg) as Hm. destruct (gv_dims Hg).
    rewrite (gen_start Hm), (gen_end Hm) in Hse. injection Hse as Hx Hy.
    pose proof (gv_pos Hg) as [Hp1 Hp2].
    pose proof (step_target_inb _ _ _ Hs) as [Hq1 Hq2].
    rewrite Hw, Hh in *. pose proof (move_ne (MazeGame.player_pos g) d) as Hm'.
    apply Hm'. destruct (MazeGame.player_pos g), (move _ d). simpl in *.
    f_equal; lia. }
  set (g2 := MazeGame.set_path
               (MazeGame.set_player_pos g1 (MazeGame.player_pos g))
               [MazeGame.player_pos g; move (MazeGame.player_pos g) d]).
  assert (E2 : moved g1 (Direction.opposite d) = g2).
  { unfold moved. rewrite Hback. by rewrite decide_False by done. }
  assert (Hg2 : game_inv g2).
  { rewrite <- E2. by apply game_inv_moved. }
  assert (E3 : MazeGame.check_path g2 =
               Ok (MazeGame.set_path (MazeGame.lose_life g2)
                     [MazeGame.player_pos g]))
    by by apply (check_path_backstep g2 _ (move (MazeGame.player_pos g) d)).
  assert (Hg3 : game_inv (MazeGame.set_path (MazeGame.lose_life g2)
                            [MazeGame.player_pos g])).
  { destruct (check_path_checked g2) as (g3 & E3' & Hc).
    rewrite E3 in E3'. injection E3' as <-. by eapply game_inv_checked. }
  eexists. split.
  - unfold MazeGame.run, MazeGame.run_loop, MazeGame.frame. cbn [foldM].
    rewrite handle_arrow, move_player_spec, Hcan, E1 by done.
    cbn [mbind result_bind].
    rewrite check_path_short by (simpl; lia). cbn [mbind result_bind].
    rewrite (draw_ok g1 Hg1). cbn [mbind result_bind foldM].
    rewrite handle_arrow, move_player_spec, Hcan1, E2 by done.
    cbn [mbind result_bind].
    rewrite E3. cbn [mbind result_bind]. rewrite (draw_ok _ Hg3). done.
  - destruct (lose_life_fields g2) as (Hm & _ & Hpos & Hl & _).
    simpl. by rewrite Hl, Hpos, Hm.
Qed.

Lemma stepping_back_costs_a_life_witness :
  reachable_game example_game ∧ MazeGame.path example_game = [] ∧
  can_move example_game Direction.SOUTH = true ∧
  move (MazeGame.player_pos example_game) Direction.SOUTH ≠
    Maze.end_ (MazeGame.maze example_game) ∧
  ∃ g', MazeGame.run
          [[(fun k : nat => k, MazeGame.KEYDOWN (arrow Direction.SOUTH))];
           [(fun k : nat => k,
             MazeGame.KEYDOWN (arrow (Direction.opposite Direction.SOUTH)))]]
          example_game = Ok g' ∧
        MazeGame.lives g' = MazeGame.lives example_game - 1 ∧
        MazeGame.player_pos g' = MazeGame.player_pos example_game ∧
        MazeGame.path g' = [MazeGame.player_pos example_game] ∧
        MazeGame.maze g' = MazeGame.maze example_game.
Proof.
  assert (H1 : reachable_game example_game).
  { apply (reach_init any_window (fun k => k) 2 2 20). vm_compute. reflexivity. }
  assert (H2 : MazeGame.path example_game = []) by (vm_compute; reflexivity).
  assert (H3 : can_move example_game Direction.SOUTH = true)
    by (vm_compute; reflexivity).
  assert (H4 : move (MazeGame.player_pos example_game) Direction.SOUTH ≠
               Maze.end_ (MazeGame.maze example_game))
    by (vm_compute; discriminate).
  split; [exact H1|]. split; [exact H2|]. split; [exact H3|].
  split; [exact H4|].
  exact (stepping_back_costs_a_life (fun k => k) (fun k => k) example_game
           Direction.SOUTH H1 H2 H3 H4).
Defined.

(** *** What is drawn *)

Lemma cell_commands_spec g p :
  game_inv g -> inb (MazeGame.maze g) p ->
  cell_commands g p = background g p ++ wall_lines g p.
Proof.
  intros Hg Hp. destruct (game_inv_shape g Hg) as (_ & _ & Hsh).
  pose proof (gv_maze Hg) as Hm.
  unfold cell_commands, MazeGame.draw_cell.
  rewrite (grid_get_ok _ _ _ Hsh) by apply Hp.
  rewrite <- surjective_pairing. cbn [mbind result_bind].
  rewrite (gen_is_start Hm), (gen_is_end Hm) by done.
  unfold background, wall_lines, has_wall_at, rect_at, wall_segment, corner.
  rewrite (gen_start Hm), (gen_end Hm).
  f_equal. simpl.
  rewrite !Z.add_0_r, app_nil_r. done.
Qed.

Lemma elem_of_background g p c :
  c ∈ background g p -> ∃ color, c = rect_at g p color.
Proof.
  unfold background. intros H.
  destruct (bool_decide (p = Maze.start _));
    [apply list_elem_of_singleton in H; eauto|].
  destruct (bool_decide (p = Maze.end_ _));
    [apply list_elem_of_singleton in H; eauto|].
  destruct (bool_decide (p = MazeGame.player_pos g));
    [apply list_elem_of_singleton in H; eauto|].
  destruct (bool_decide (p ∈ MazeGame.path g));
    [apply list_elem_of_singleton in H; eauto|].
  destruct (_ && _); [apply list_elem_of_singleton in H; eauto|].
  by apply not_elem_of_nil in H.
Qed.

Lemma elem_of_wall_lines g p c :
  c ∈ wall_lines g p ->
  ∃ d, has_wall_at (MazeGame.maze g) p d = true ∧ c = wall_segment g p d.
Proof.
  unfold wall_lines. rewrite list_elem_of_bind. intros (d & H & _).
  exists d. destruct (has_wall_at _ _ _); [|by apply not_elem_of_nil in H].
  by apply list_elem_of_singleton in H.
Qed.

(** The calls of a drawing, by origin. *)
Lemma elem_of_draw g c :
  game_inv g ->
  ∃ cmds, MazeGame.draw g = Ok cmds ∧
    (c ∈ cmds ↔
     c = MazeGame.Fill (255, 255, 255) ∨
     (∃ p, inb (MazeGame.maze g) p ∧
           (c ∈ background g p ∨ c ∈ wall_lines g p)) ∨
     c ∈ MazeGame.draw_ui g ∨ c = MazeGame.Flip).
Proof.
  intros Hg. rewrite (draw_ok g Hg). eexists. split; [done|].
  rewrite !elem_of_app, !list_elem_of_singleton, list_elem_of_bind.
  split.
  - intros [?|[(p & Hc & Hp)|[?|?]]]; auto.
    right. left. apply elem_of_all_cells in Hp. exists p. split; [done|].
    rewrite cell_commands_spec in Hc by done. by apply elem_of_app in Hc.
  - intros [?|[(p & Hp & Hc)|[?|?]]]; auto.
    right. left. exists p. split; [|by apply elem_of_all_cells].
    rewrite cell_commands_spec by done. by apply elem_of_app.
Qed.

Lemma elem_of_draw_ui g text color dest :
  MazeGame.Blit text color dest ∈ MazeGame.draw_ui g ->
  text = ("Lives: " +:+ pretty (MazeGame.lives g))%string ∨
  text = ("Algorithm: " +:+ MazeGame.solving_algorithm g)%string ∨
  (MazeGame.game_over g = true ∧
   ((0 < MazeGame.lives g ∧ text = win_text) ∨
    (MazeGame.lives g <= 0 ∧ text = lost_text))).
Proof.
  unfold MazeGame.draw_ui. rewrite !elem_of_app, !list_elem_of_singleton.
  intros [H|[H|H]].
  - left. by injection H.
  - right. right. destruct (MazeGame.game_over g);
      [|by apply not_elem_of_nil in H].
    apply list_elem_of_singleton in H. split; [done|].
    destruct (0 <? MazeGame.lives g) eqn:E.
    + left. apply Z.ltb_lt in E. split; [done|]. by injection H.
    + right. apply Z.ltb_ge in E. split; [done|]. by injection H.
  - right. left. by injection H.
Qed.

Lemma shows_spec g cmds text :
  game_inv g -> MazeGame.draw g = Ok cmds ->
  shows cmds text ↔ ∃ color dest,
    MazeGame.Blit text color dest ∈ MazeGame.draw_ui g.
Proof.
  intros Hg E. unfold shows. split; intros (color & dest & H);
    exists color, dest;
    destruct (elem_of_draw g (MazeGame.Blit text color dest) Hg)
      as (cmds' & E' & Hiff);
    rewrite E in E'; injection E' as <-.
  - apply Hiff in H as [H|[(p & _ & [H|H])|[H|H]]]; try done.
    + by apply elem_of_background in H as (? & ?).
    + apply elem_of_wall_lines in H as (d & _ & H). by destruct d.
  - apply Hiff. auto.
Qed.

(** X24. The outcome shown is the true one: in every state the game goes
    through the drawing returns, the text of the win is among its calls
    exactly when the game is over with a life left, and then the player
    stands on the end cell; the text of the loss is among them exactly
    when the game is over with no life left. *)
Theorem drawn_outcome_is_true (g : MazeGame.t) :
  reachable_game g ->
  ∃ cmds, MazeGame.draw g = Ok cmds ∧
    (shows cmds win_text ↔
     MazeGame.game_over g = true ∧ 0 < MazeGame.lives g) ∧
    (shows cmds win_text ->
     MazeGame.player_pos g = Maze.end_ (MazeGame.maze g)) ∧
    (shows cmds lost_text ↔
     MazeGame.game_over g = true ∧ MazeGame.lives g = 0).
Proof.
  intros Hr. apply reachable_game_inv in Hr as Hg.
  pose proof (draw_ok g Hg) as E.
  match type of E with _ = Ok ?c => set (cmds := c) in * end.
  exists cmds. split; [exact E|].
  pose proof (gv_lives Hg) as Hl.
  assert (Hwin : shows cmds win_text ↔
                 MazeGame.game_over g = true ∧ 0 < MazeGame.lives g).
  { rewrite (shows_spec g _ win_text Hg E). split.
    - intros (color & dest & H).
      apply elem_of_draw_ui in H as [H|[H|(Ho & [[? _]|[_ H]])]];
        try done; by vm_compute in H.
    - intros [Ho Hpos]. eexists _, _. unfold MazeGame.draw_ui.
      rewrite Ho, (proj2 (Z.ltb_lt 0 _) Hpos).
      apply elem_of_app. right. apply elem_of_app. left. by left. }
  split; [exact Hwin|]. split.
  - intros H. apply Hwin in H as [Ho Hpos].
    destruct (gv_over Hg Ho); [done|lia].
  - rewrite (shows_spec g _ lost_text Hg E). split.
    + intros (color & dest & H).
      apply elem_of_draw_ui in H as [H|[H|(Ho & [[_ H]|[? _]])]];
        try (by vm_compute in H). split; [done|lia].
    + intros [Ho Hz]. eexists _, _. unfold MazeGame.draw_ui.
      rewrite Ho, Hz. simpl. right. by left.
Qed.

Lemma drawn_outcome_is_true_witness :
  reachable_game example_game ∧
  ∃ cmds, MazeGame.draw example_game = Ok cmds ∧
    (shows cmds win_text ↔
     MazeGame.game_over example_game = true ∧
     0 < MazeGame.lives example_game) ∧
    (shows cmds win_text ->
     MazeGame.player_pos example_game =
       Maze.end_ (MazeGame.maze example_game)) ∧
    (shows cmds lost_text ↔
     MazeGame.game_over example_game = true ∧
     MazeGame.lives example_game = 0).
Proof.
  assert (H : reachable_game example_game).
  { apply (reach_init any_window (fun k => k) 2 2 20). vm_compute. reflexivity. }
  split; [exact H|]. exact (drawn_outcome_is_true example_game H).
Defined.

Lemma draw_ui_texts g c :
  c ∈ MazeGame.draw_ui g -> ∃ text color dest, c = MazeGame.Blit text color dest.
Proof.
  unfold MazeGame.draw_ui. rewrite !elem_of_app, !list_elem_of_singleton.
  intros [->|[H| ->]]; eauto.
  destruct (MazeGame.game_over g); [|by apply not_elem_of_nil in H].
  apply list_elem_of_singleton in H as ->. destruct (0 <? _); eauto.
Qed.

(** X25. The player is drawn except on the start and on the end cell: in
    every state the game goes through, the blue rectangle is among the
    calls of the drawing exactly when the player stands on neither, and
    it is then the rectangle of the player's cell. At the beginning of a
    game, with the player on the start cell, no player is drawn. *)
Theorem player_is_drawn_off_start_and_end (g : MazeGame.t)
    (l t w h : Z) :
  reachable_game g ->
  ∃ cmds, MazeGame.draw g = Ok cmds ∧
    (MazeGame.Rect (100, 100, 255) l t w h ∈ cmds ↔
     MazeGame.player_pos g ≠ Maze.start (MazeGame.maze g) ∧
     MazeGame.player_pos g ≠ Maze.end_ (MazeGame.maze g) ∧
     MazeGame.Rect (100, 100, 255) l t w h =
       rect_at g (MazeGame.player_pos g) (100, 100, 255)).
Proof.
  intros Hr. apply reachable_game_inv in Hr as Hg.
  destruct (elem_of_draw g (MazeGame.Rect (100, 100, 255) l t w h) Hg)
    as (cmds & E & Hiff).
  exists cmds. split; [done|]. rewrite Hiff. clear Hiff. split.
  - intros [H|[(p & Hp & [H|H])|[H|H]]]; try done.
    + unfold background in H.
      destruct (bool_decide (p = Maze.start _)) eqn:E1;
        [by apply list_elem_of_singleton in H|].
      destruct (bool_decide (p = Maze.end_ _)) eqn:E2;
        [by apply list_elem_of_singleton in H|].
      destruct (bool_decide (p = MazeGame.player_pos g)) eqn:E3.
      * apply bool_decide_eq_false in E1, E2.
        apply bool_decide_eq_true in E3 as <-.
        by apply list_elem_of_singleton in H.
      * destruct (bool_decide (p ∈ MazeGame.path g));
          [by apply list_elem_of_singleton in H|].
        destruct (_ && _); [by apply list_elem_of_singleton in H|].
        by apply not_elem_of_nil in H.
    + apply elem_of_wall_lines in H as (d & _ & H). by destruct d.
    + by apply draw_ui_texts in H as (? & ? & ? & ?).
  - intros (Hs & He & ->). right. left.
    exists (MazeGame.player_pos g). split; [apply Hg|]. left.
    unfold background.
    rewrite (bool_decide_eq_false_2 _ Hs), (bool_decide_eq_false_2 _ He).
    rewrite bool_decide_eq_true_2 by done. by left.
Qed.

Lemma player_is_drawn_off_start_and_end_witness :
  reachable_game example_game ∧
  ∃ cmds, MazeGame.draw example_game = Ok cmds ∧
    (MazeGame.Rect (100, 100, 255) 50 50 20 20 ∈ cmds ↔
     MazeGame.player_pos example_game ≠
       Maze.start (MazeGame.maze example_game) ∧
     MazeGame.player_pos example_game ≠
       Maze.end_ (MazeGame.maze example_game) ∧
     MazeGame.Rect (100, 100, 255) 50 50 20 20 =
       rect_at example_game (MazeGame.player_pos example_game)
         (100, 100, 255)).
Proof.
  assert (H : reachable_game example_game).
  { apply (reach_init any_window (fun k => k) 2 2 20). vm_compute. reflexivity. }
  split; [exact H|].
  exact (player_is_drawn_off_start_and_end example_game 50 50 20 20 H).
Defined.

Lemma corner_in_area g p dx dy :
  game_inv g -> 0 <= MazeGame.cell_size g -> inb (MazeGame.maze g) p ->
  0 <= dx <= 1 -> 0 <= dy <= 1 ->
  50 <= (corner g p dx dy).1 <= MazeGame.screen_width g - 50 ∧
  50 <= (corner g p dx dy).2 <= MazeGame.screen_height g - 50.
Proof.
  intros Hg Hcs [Hx Hy] Hdx Hdy.
  destruct (game_inv_shape g Hg) as (Hw & Hh & _). rewrite Hw, Hh in *.
  destruct (gv_screen Hg) as [-> ->]. unfold corner. simpl. nia.
Qed.

(** X26. The maze is painted inside its area: in every state the game
    goes through, with a cell size that is not negative, every rectangle
    and every line of the drawing lies in the window without its margin
    of 50 pixels. *)
Theorem maze_is_drawn_inside_its_area (g : MazeGame.t) :
  reachable_game g -> 0 <= MazeGame.cell_size g ->
  ∃ cmds, MazeGame.draw g = Ok cmds ∧ Forall (in_maze_area g) cmds.
Proof.
  intros Hr Hcs. apply reachable_game_inv in Hr as Hg.
  pose proof (draw_ok g Hg) as E.
  match type of E with _ = Ok ?c => set (cmds := c) in * end.
  exists cmds. split; [done|]. apply Forall_forall. intros c Hc.
  destruct (elem_of_draw g c Hg) as (cmds' & E' & Hiff).
  rewrite E in E'. injection E' as <-.
  apply Hiff in Hc as [->|[(p & Hp & [H|H])|[H| ->]]]; try done.
  - apply elem_of_background in H as (color & ->).
    pose proof (corner_in_area g p 0 0 Hg Hcs Hp) as H0.
    pose proof (corner_in_area g p 1 1 Hg Hcs Hp) as H1.
    unfold corner in H0, H1. simpl in *. lia.
  - apply elem_of_wall_lines in H as (d & _ & ->).
    destruct d; simpl; split; apply corner_in_area; try done; lia.
  - by apply draw_ui_texts in H as (? & ? & ? & ->).
Qed.

Lemma maze_is_drawn_inside_its_area_witness :
  reachable_game example_game ∧ 0 <= MazeGame.cell_size example_game ∧
  ∃ cmds, MazeGame.draw example_game = Ok cmds ∧
          Forall (in_maze_area example_game) cmds.
Proof.
  assert (H : reachable_game example_game).
  { apply (reach_init any_window (fun k => k) 2 2 20). vm_compute. reflexivity. }
  assert (H' : 0 <= MazeGame.cell_size example_game)
    by (vm_compute; discriminate).
  split; [exact H|]. split; [exact H'|].
  exact (maze_is_drawn_inside_its_area example_game H H').
Defined.

Lemma scaled_inj (c a b : Z) : 0 < c -> a * c + 50 = b * c + 50 -> a = b.
Proof. intros Hc E. nia. Qed.

Lemma wall_segment_inj g p q d d' :
  0 < MazeGame.cell_size g -> wall_segment g q d' = wall_segment g p d ->
  (q = p ∧ d' = d) ∨ (q = move p d ∧ d' = Direction.opposite d).
Proof.
  intros Hcs E. destruct p as [px py], q as [qx qy].
  destruct d, d'; injection E as E1 E2 E3 E4;
    apply (scaled_inj _ _ _ Hcs) in E1, E2, E3, E4;
    simpl in *; try lia;
    ((left; split; [f_equal; lia|done]) ||
     (right; split; [unfold move; simpl; f_equal; lia|done])).
Qed.

(** X27. The walls drawn are the walls standing: in every state the game
    goes through, with a positive cell size, the segment of a side of a
    cell of the grid is among the calls of the drawing exactly when the
    cell has its wall on that side. *)
Theorem walls_drawn_are_walls_standing (g : MazeGame.t) (p : Z * Z)
    (d : Direction.t) :
  reachable_game g -> 0 < MazeGame.cell_size g ->
  inb (MazeGame.maze g) p ->
  ∃ cmds, MazeGame.draw g = Ok cmds ∧
    (wall_segment g p d ∈ cmds ↔
     has_wall_at (MazeGame.maze g) p d = true).
Proof.
  intros Hr Hcs Hp. apply reachable_game_inv in Hr as Hg.
  destruct (elem_of_draw g (wall_segment g p d) Hg) as (cmds & E & Hiff).
  exists cmds. split; [done|]. rewrite Hiff. clear Hiff. split.
  - intros [H|[(q & Hq & [H|H])|[H|H]]].
    + by destruct d.
    + apply elem_of_background in H as (color & H). by destruct d.
    + apply elem_of_wall_lines in H as (d' & Hwall & H). symmetry in H.
      apply wall_segment_inj in H as [[-> ->]|[-> ->]]; [done| |done].
      by rewrite (gen_symmetric (gv_maze Hg) p d Hp Hq).
    + apply draw_ui_texts in H as (? & ? & ? & H). by destruct d.
    + by destruct d.
  - intros Hwall. right. left. exists p. split; [done|]. right.
    unfold wall_lines. apply list_elem_of_bind. exists d. rewrite Hwall.
    split; [by left|]. destruct d; rewrite !elem_of_cons; auto.
Qed.

Lemma walls_drawn_are_walls_standing_witness :
  reachable_game example_game ∧ 0 < MazeGame.cell_size example_game ∧
  inb (MazeGame.maze example_game) (0, 1) ∧
  ∃ cmds, MazeGame.draw example_game = Ok cmds ∧
    (wall_segment example_game (0, 1) Direction.EAST ∈ cmds ↔
     has_wall_at (MazeGame.maze example_game) (0, 1) Direction.EAST = true).
Proof.
  assert (H1 : reachable_game example_game).
  { apply (reach_init any_window (fun k => k) 2 2 20). vm_compute. reflexivity. }
  assert (H2 : 0 < MazeGame.cell_size example_game)
    by (vm_compute; reflexivity).
  assert (H3 : inb (MazeGame.maze example_game) (0, 1))
    by (vm_compute; repeat split; discriminate).
  split; [exact H1|]. split; [exact H2|]. split; [exact H3|].
  exact (walls_drawn_are_walls_standing example_game (0, 1) Direction.EAST
           H1 H2 H3).
Defined.

(** *** Restart *)

(** X28. The key [r] always restarts the game, over or not: in every
    state the game goes through it succeeds and leaves a game of the same
    dimensions whose maze is the one the constructor builds from the
    draws made, with the player on the start cell, three lives, an empty
    trail, no solution stored or shown, and the algorithm back to
    breadth-first search. *)
Theorem restart_key_resets_the_game (rnd : nat -> nat) (running : bool)
    (g : MazeGame.t) :
  reachable_game g ->
  ∃ g', MazeGame.handle_event rnd running g
          (MazeGame.KEYDOWN MazeGame.K_r) = Ok (running, g') ∧
        Maze.__init__ rnd (MazeGame.width g) (MazeGame.height g)
          (MazeGame.cell_size g) = Ok (MazeGame.maze g') ∧
        MazeGame.width g' = MazeGame.width g ∧
        MazeGame.height g' = MazeGame.height g ∧
        MazeGame.cell_size g' = MazeGame.cell_size g ∧
        MazeGame.player_pos g' = Maze.start (MazeGame.maze g') ∧
        MazeGame.lives g' = 3 ∧ MazeGame.game_over g' = false ∧
        MazeGame.path g' = [] ∧ MazeGame.solution g' = [] ∧
        MazeGame.show_solution g' = false ∧
        MazeGame.solving_algorithm g' = "BFS"%string.
Proof.
  intros Hr. apply reachable_game_inv in Hr as Hg.
  destruct (gv_dims Hg) as [Hw Hh]. destruct (gv_screen Hg) as [Hsw Hsh].
  destruct (reset_game_ok rnd g Hw Hh Hsw Hsh)
    as (g' & E & Hg' & Em & ? & ? & ? & Hpos & ? & ? & ? & ? & ? & ?).
  exists g'. simpl. rewrite E. simpl. split; [done|].
  rewrite (gen_start (gv_maze Hg')). by repeat (split; [done|]).
Qed.

Lemma restart_key_resets_the_game_witness :
  reachable_game won_game ∧
  ∃ g', MazeGame.handle_event (fun k => S k) true won_game
          (MazeGame.KEYDOWN MazeGame.K_r) = Ok (true, g') ∧
        Maze.__init__ (fun k => S k) (MazeGame.width won_game)
          (MazeGame.height won_game) (MazeGame.cell_size won_game)
          = Ok (MazeGame.maze g') ∧
        MazeGame.width g' = MazeGame.width won_game ∧
        MazeGame.height g' = MazeGame.height won_game ∧
        MazeGame.cell_size g' = MazeGame.cell_size won_game ∧
        MazeGame.player_pos g' = Maze.start (MazeGame.maze g') ∧
        MazeGame.lives g' = 3 ∧ MazeGame.game_over g' = false ∧
        MazeGame.path g' = [] ∧ MazeGame.solution g' = [] ∧
        MazeGame.show_solution g' = false ∧
        MazeGame.solving_algorithm g' = "BFS"%string.
Proof.
  assert (H : reachable_game won_game).
  { eapply (reach_event (fun k => k) true _
              (MazeGame.KEYDOWN MazeGame.K_RIGHT) true).
    - eapply (reach_event (fun k => k) true example_game
                (MazeGame.KEYDOWN MazeGame.K_DOWN) true).
      + apply (reach_init any_window (fun k => k) 2 2 20). vm_compute. reflexivity.
      + vm_compute. reflexivity.
    - vm_compute. reflexivity. }
  split; [exact H|].
  exact (restart_key_resets_the_game (fun k => S k) true won_game H).
Defined.
